(** * Batch-scoring drivers of the batch-endpoint examples

    The repository ships four scoring scripts (each a [batch_driver.py]
    written out by a notebook cell) that the batch host loads once per worker
    and then calls with mini-batches of file paths:

    - the torch MNIST classifier        ([deployment-torch/code/batch_driver.py]),
    - the keras ImageNet classifier     ([deployment-keras/code/batch_driver.py]),
    - the BART text summariser          ([code/batch_driver.py], text summarisation),
    - the heart-classifier parquet writer ([code/batch_driver.py], custom outputs).

    Each script is embedded below as a computation in a small state-and-
    exception monad over the Python module globals it declares with [global],
    together with the part of the outside world it touches.  The libraries the
    scripts call (torch, keras, transformers, pandas, mlflow, the file system)
    are interfaces: records of operations, fallible where the Python call can
    raise.

    The scores of the image classifiers are binary32 numbers, as the tensors
    of torch and tensorflow hold them: the data of IEEE 754, with its
    infinities and its NaN.  The drivers do no arithmetic on them; the
    soft-max is an operation of the library, and the drivers compare. *)

From Stdlib Require Import Reals Lra Ascii String.
From Stdlib Require Import Floats.SpecFloat.
From stdpp Require Import base option list strings gmap.

Set Default Proof Using "Type".

(** ** Python exceptions and the driver monad *)

Inductive exn : Type :=
  | KeyError (key : string)            (* [os.environ[k]], [ds[..]["text"]] *)
  | IndexError                         (* [glob.glob(..)[-1]] on an empty list *)
  | NameError (name : string)          (* a global read before [init] bound it *)
  | UnboundLocalError (name : string)  (* a local read before assignment *)
  | LoadError (path : string)          (* a file that cannot be opened or parsed *)
  | DatasetError                       (* [load_dataset] could not build the data set *)
  | DeviceError                        (* [.to(device)] failed *)
  | InferenceError                     (* the model raised on its input *)
  | ValueError                         (* wrong lengths, empty reductions *)
  | OSError (path : string).           (* a file that cannot be written *)

Inductive result (A : Type) : Type :=
  | Ok (a : A)
  | Raise (e : exn).
Arguments Ok {A} a.
Arguments Raise {A} e.

(** A computation reads and updates a state [S]; an exception keeps the state
    reached when it was raised (Python does not roll back). *)
Definition M (S A : Type) : Type := S -> result A * S.

Definition ret {S A} (a : A) : M S A := fun s => (Ok a, s).
Definition raise {S A} (e : exn) : M S A := fun s => (Raise e, s).
Definition bind {S A B} (m : M S A) (k : A -> M S B) : M S B :=
  fun s => match m s with
           | (Ok a, s') => k a s'
           | (Raise e, s') => (Raise e, s')
           end.
Definition get {S} : M S S := fun s => (Ok s, s).
Definition modify {S} (f : S -> S) : M S unit := fun s => (Ok tt, f s).

(** [try: m except Exception as e: h e] *)
Definition try_except {S A} (m : M S A) (h : exn -> M S A) : M S A :=
  fun s => match m s with
           | (Ok a, s') => (Ok a, s')
           | (Raise e, s') => h e s'
           end.

(** A library call that either returns or raises [e]. *)
Definition lift {S A} (e : exn) (o : option A) : M S A :=
  match o with
  | Some a => ret a
  | None => raise e
  end.

Declare Scope py_scope.
Delimit Scope py_scope with py.
Notation "x <- m ;; k" := (bind m (fun x => k))
  (at level 100, m at next level, right associativity) : py_scope.
Notation "m ;;; k" := (bind m (fun _ => k))
  (at level 100, right associativity) : py_scope.
Open Scope py_scope.

(** [for x in xs: body x], the body run for its effects. *)
Fixpoint for_each {S A} (xs : list A) (body : A -> M S unit) : M S unit :=
  match xs with
  | [] => ret tt
  | x :: xs' => body x ;;; for_each xs' body
  end.

(** [for x in xs: acc.append(f x)]: the loop that grows a result list, the
    list threaded through the iterations. *)
Fixpoint for_append {S A B} (xs : list A) (f : A -> M S B) (acc : list B)
  : M S (list B) :=
  match xs with
  | [] => ret acc
  | x :: xs' => b <- f x ;; for_append xs' f (acc ++ [b])
  end.

(** ** Paths: [os.path.basename], [os.path.join], [pathlib.Path(..).stem] *)

Definition slash : ascii := "/"%char.
Definition dot : ascii := "."%char.

(** [s.rfind(c)]: the highest index of [c] in [s], or [-1]. *)
Fixpoint rfind (c : ascii) (s : string) : Z :=
  match s with
  | EmptyString => (-1)%Z
  | String a s' =>
      let r := rfind c s' in
      if (0 <=? r)%Z then (r + 1)%Z
      else if Ascii.eqb a c then 0%Z else (-1)%Z
  end.

(** [c in s] *)
Fixpoint contains (c : ascii) (s : string) : bool :=
  match s with
  | EmptyString => false
  | String a s' => Ascii.eqb a c || contains c s'
  end.

(** [s[n:]] and [s[:n]] for a non-negative [n]. *)
Fixpoint slice_from (n : nat) (s : string) : string :=
  match n, s with
  | O, _ => s
  | S n', String _ s' => slice_from n' s'
  | S _, EmptyString => EmptyString
  end.

Fixpoint slice_to (n : nat) (s : string) : string :=
  match n, s with
  | S n', String a s' => String a (slice_to n' s')
  | _, _ => EmptyString
  end.

(** posixpath: [i = p.rfind('/') + 1; return p[i:]] *)
Definition basename (p : string) : string :=
  let i := (rfind slash p + 1)%Z in
  slice_from (Z.to_nat i) p.

Definition startswith (c : ascii) (s : string) : bool :=
  match s with
  | String a _ => Ascii.eqb a c
  | EmptyString => false
  end.

Fixpoint endswith (c : ascii) (s : string) : bool :=
  match s with
  | EmptyString => false
  | String a EmptyString => Ascii.eqb a c
  | String _ s' => endswith c s'
  end.

Definition is_empty (s : string) : bool :=
  match s with EmptyString => true | _ => false end.

(** posixpath: [join(a, b)] with one component [b]. *)
Definition join (a b : string) : string :=
  if startswith slash b then b
  else if is_empty a || endswith slash a then a +:+ b
  else a +:+ String slash b.

(** [s.split(c)] *)
Fixpoint split (c : ascii) (s : string) : list string :=
  match s with
  | EmptyString => [EmptyString]
  | String a s' =>
      if Ascii.eqb a c then EmptyString :: split c s'
      else match split c s' with
           | h :: t => String a h :: t
           | [] => [String a EmptyString]
           end
  end.

(** pathlib keeps the components that are neither empty nor ["."]. *)
Definition is_part (x : string) : bool :=
  negb (is_empty x) && negb (String.eqb x ".").

Definition parts (p : string) : list string := filter (fun x => is_part x = true) (split slash p).

(** [Path(p).name]: the last component, [''] when there is none. *)
Definition name (p : string) : string := List.last (parts p) EmptyString.

(** [Path(p).stem]:
    [i = name.rfind('.'); name[:i] if 0 < i < len(name) - 1 else name] *)
Definition stem (p : string) : string :=
  let n := name p in
  let i := rfind dot n in
  if (0 <? i)%Z && (i <? Z.of_nat (String.length n) - 1)%Z
  then slice_to (Z.to_nat i) n
  else n.

(** ** Data frames: named columns of equal length *)

Section Frames.
Context {C : Type}.

Definition frame : Type := list (string * list C).

Definition column_names (df : frame) : list string := df.*1.

Definition nrows (df : frame) : nat :=
  match df with
  | [] => 0
  | (_, col) :: _ => length col
  end.

(** [df[c]] *)
Fixpoint get_column (c : string) (df : frame) : option (list C) :=
  match df with
  | [] => None
  | (c', col) :: df' => if String.eqb c' c then Some col else get_column c df'
  end.

(** The column update behind [df[c] = values]: a column of that name is
    replaced where it stands, a new name is appended as the last column. *)
Fixpoint put_column (c : string) (values : list C) (df : frame) : frame :=
  match df with
  | [] => [(c, values)]
  | (c', col) :: df' =>
      if String.eqb c' c then (c', values) :: df'
      else (c', col) :: put_column c values df'
  end.

(** [df[c] = values]: pandas raises [ValueError] when the length of
    [values] is not the length of the index. *)
Definition setitem (c : string) (values : list C) (df : frame) : option frame :=
  if decide (length values = nrows df) then Some (put_column c values df)
  else None.
End Frames.
Arguments frame C : clear implicits.

(** ** Scores: binary32 numbers, their max and arg-max *)

(** A binary32 datum: a signed zero, a signed infinity, NaN, or the finite
    number [(-1)^s * m * 2^e].  The comparisons [SFltb] and [SFleb] are
    those of IEEE 754: every comparison with NaN is false. *)
Definition float32 : Type := spec_float.

Module F32.

Definition zero : float32 := S754_zero false.
Definition one : float32 := S754_finite false 8388608 (-23).

Definition is_nan (x : float32) : bool :=
  match x with
  | S754_nan => true
  | _ => false
  end.

Definition is_finite (x : float32) : bool :=
  match x with
  | S754_zero _ | S754_finite _ _ _ => true
  | _ => false
  end.

(** [0 <= x <= 1] *)
Definition in_unit (x : float32) : bool := SFleb zero x && SFleb x one.

(** The largest entry and the first index where it stands, scanning left
    to right from a current best [(m, i)]; [k] is the index of the head.  A
    NaN entry, once met, stays: the maximum of a row with a NaN is NaN. *)
Fixpoint max_from (m : float32) (i k : nat) (l : list float32) : float32 * nat :=
  match l with
  | [] => (m, i)
  | x :: l' =>
      if SFltb m x || (is_nan x && negb (is_nan m))
      then max_from x k (S k) l'
      else max_from m i (S k) l'
  end.

(** [torch.max(row, axis=-1)]: (value, index); raises on an empty row. *)
Definition max_with_index (l : list float32) : option (float32 * nat) :=
  match l with
  | [] => None
  | x :: l' => Some (max_from x 0 1 l')
  end.

(** [tf.math.reduce_max] and [tf.math.argmax] on one row. *)
Definition reduce_max (l : list float32) : option float32 := fst <$> max_with_index l.
Definition argmax (l : list float32) : option nat := snd <$> max_with_index l.

End F32.

(** ** Max and arg-max over a row of real numbers

    The model loader below only compares the scores that its model returns;
    there they are taken as the real numbers they stand for. *)

Open Scope R_scope.

(** The largest entry and the first index where it stands, scanning
    left to right from a current best [(m, i)]; [k] is the index of the head. *)
Fixpoint max_from (m : R) (i k : nat) (l : list R) : R * nat :=
  match l with
  | [] => (m, i)
  | x :: l' => if Rlt_dec m x then max_from x k (S k) l' else max_from m i (S k) l'
  end.

Definition max_with_index (l : list R) : option (R * nat) :=
  match l with
  | [] => None
  | x :: l' => Some (max_from x 0%nat 1%nat l')
  end.

(** [tf.reduce_max(.., axis=-1)] and [tf.argmax(.., axis=-1)] on one row. *)
Definition reduce_max (l : list R) : option R := fst <$> max_with_index l.
Definition argmax (l : list R) : option nat := snd <$> max_with_index l.

Close Scope R_scope.

(** ** What every driver sees of its host *)

(** [os.environ] and [glob.glob]. *)
Record Host : Type := {
  environ : gmap string string;
  glob : string -> list string;
}.

Inductive device_t : Type := Cuda0 | Cpu.

(** One row of the table that the image drivers return
    ([pd.DataFrame(results)], one row per appended dictionary). *)
Record prediction : Type := {
  file : string;
  class : nat;
  probability : float32;
}.

(** [os.environ[k]] *)
Definition getenv {S} (host : Host) (k : string) : M S string :=
  lift (KeyError k) (environ host !! k).

(** [xs[-1]] *)
Definition last_item {S A} (xs : list A) : M S A :=
  lift IndexError (last xs).

(** ** The torch driver: [deployment-torch/code/batch_driver.py] *)

Module TorchDriver.

(** torch and torchvision as the script uses them.  The input of [forward]
    is a batch of one image, its output the one row of class scores; it
    raises when the input does not fit the model (shape, device).  [softmax]
    is [torch.nn.Softmax(dim=-1)] on that row.
    [MnistClassifier] comes from [mnist_classifier.py], which is not among
    the sources at hand: the freshly constructed network is a field here. *)
Record Lib : Type := {
  tensor : Type;
  state_dict : Type;
  module : Type;
  torch_load : string -> option state_dict;
  MnistClassifier : module;
  load_state_dict : module -> state_dict -> option module;
  eval : module -> module;
  cuda_is_available : bool;
  read_image : string -> option tensor;
  float : tensor -> tensor;
  expand : tensor -> tensor;                      (* [.expand(1, -1, -1, -1)] *)
  to : tensor -> device_t -> option tensor;
  forward : module -> tensor -> option (list float32);
  softmax : list float32 -> list float32;
}.

Section Driver.
Context (lib : Lib) (host : Host).

(** The module globals declared by [global model] and [global device]. *)
Record globals : Type := {
  model : option (module lib);
  device : option device_t;
}.

Definition unbound : globals := {| model := None; device := None |}.

Definition set_model (m : module lib) : M globals unit :=
  modify (fun g => {| model := Some m; device := device g |}).
Definition set_device (d : device_t) : M globals unit :=
  modify (fun g => {| model := model g; device := Some d |}).
Definition get_model : M globals (module lib) :=
  g <- get ;; lift (NameError "model") (model g).
Definition get_device : M globals device_t :=
  g <- get ;; lift (NameError "device") (device g).

Definition init : M globals unit :=
  model_path <- getenv host "AZUREML_MODEL_DIR" ;;
  model_file <- last_item (glob host (model_path +:+ "/*/*.pt")) ;;
  set_model (MnistClassifier lib) ;;;
  weights <- lift (LoadError model_file) (torch_load lib model_file) ;;
  m <- get_model ;;
  m <- lift ValueError (load_state_dict lib m weights) ;;
  set_model m ;;;
  set_model (eval lib m) ;;;
  set_device (if cuda_is_available lib then Cuda0 else Cpu).

(** The body of [for image_path in mini_batch]. *)
Definition score (image_path : string) : M globals prediction :=
  image_data <- lift (LoadError image_path) (float lib <$> read_image lib image_path) ;;
  let batch_data := expand lib image_data in
  dev <- get_device ;;
  input <- lift DeviceError (to lib batch_data dev) ;;
  m <- get_model ;;
  predict_logits <- lift InferenceError (forward lib m input) ;;
  let predictions := softmax lib predict_logits in
  predicted <- lift ValueError (F32.max_with_index predictions) ;;
  let predicted_prob := predicted.1 in
  let predicted_class := predicted.2 in
  ret {| file := basename image_path;
         class := predicted_class;
         probability := predicted_prob |}.

Definition run (mini_batch : list string) : M globals (list prediction) :=
  for_append mini_batch score [].

End Driver.
End TorchDriver.

(** ** The keras driver: [deployment-keras/code/batch_driver.py] *)

Module KerasDriver.

(** keras, PIL, numpy and tensorflow as the script uses them; [predict]
    takes a batch of one image and gives the one row of class scores,
    [softmax] is [tf.math.softmax(.., axis=-1)] on that row. *)
Record Lib : Type := {
  keras_model : Type;
  image : Type;
  ndarray : Type;
  load_model : string -> option keras_model;
  Image_open : string -> option image;
  np_array : image -> ndarray;
  expand_dims : ndarray -> ndarray;               (* [axis=0] *)
  predict : keras_model -> ndarray -> option (list float32);
  softmax : list float32 -> list float32;
}.

Section Driver.
Context (lib : Lib) (host : Host).

Record globals : Type := {
  model : option (keras_model lib);
}.

Definition unbound : globals := {| model := None |}.

Definition set_model (m : keras_model lib) : M globals unit :=
  modify (fun _ => {| model := Some m |}).
Definition get_model : M globals (keras_model lib) :=
  g <- get ;; lift (NameError "model") (model g).

Definition init : M globals unit :=
  dir <- getenv host "AZUREML_MODEL_DIR" ;;
  let model_path := join dir "model" in
  m <- lift (LoadError model_path) (load_model lib model_path) ;;
  set_model m.

(** The body of [for image_path in mini_batch].  A row without a score
    has no arg-max: the iteration raises. *)
Definition score (image_path : string) : M globals prediction :=
  data <- lift (LoadError image_path) (Image_open lib image_path) ;;
  let data := np_array lib data in
  let data_batch := expand_dims lib data in
  m <- get_model ;;
  pred <- lift InferenceError (predict lib m data_batch) ;;
  pred_prob <- lift ValueError (F32.reduce_max (softmax lib pred)) ;;
  pred_class <- lift ValueError (F32.argmax pred) ;;
  ret {| file := basename image_path;
         class := pred_class;
         probability := pred_prob |}.

Definition run (mini_batch : list string) : M globals (list prediction) :=
  for_append mini_batch score [].

End Driver.
End KerasDriver.

(** ** The text-summarisation driver: [code/batch_driver.py] *)

Module SummarizationDriver.

(** transformers, optimum, datasets, mlflow and the clock as the script uses
    them.  [load_dataset data_files] is
    [load_dataset("csv", data_files={"score": data_files})["score"]]: one call
    on the whole list of files, which gives one table or raises.  [generate]
    is called with [do_sample=False].  The clock is the sequence of its
    readings; [rows_per_second idx t0 t] stands for the float
    [idx / (t - t0 + 0.1)]. *)
Record Lib : Type := {
  tokenizer_t : Type;
  bart : Type;
  ids : Type;
  time : Type;
  metric : Type;
  cuda_is_available : bool;
  nvidia_smi : option string;
  AutoTokenizer_from_pretrained : string -> option tokenizer_t;
  from_pretrained_auto : string -> option bart;   (* [device_map="auto"] *)
  from_pretrained : string -> option bart;
  BetterTransformer_transform : bart -> option bart;
  type_name : bart -> string;
  load_dataset : list string -> option (frame string);
  batch_encode_plus : tokenizer_t -> string -> option ids;
  to : ids -> string -> option ids;
  generate : bart -> ids -> option ids;
  batch_decode : tokenizer_t -> ids -> list string;
  perf_counter : nat -> time;
  rows_per_second : nat -> time -> time -> metric;
}.

Section Driver.
Context (lib : Lib) (host : Host).

(** The module globals ([model], [tokenizer], [device]) and, outside the
    script, the mlflow run it logs to and the number of clock readings made. *)
Record process : Type := {
  model : option (bart lib);
  tokenizer : option (tokenizer_t lib);
  device : option string;
  mlflow_params : list (string * string);
  mlflow_metrics : list (string * metric lib);
  clock : nat;
}.

Definition unbound : process :=
  {| model := None; tokenizer := None; device := None;
     mlflow_params := []; mlflow_metrics := []; clock := 0 |}.

Definition set_model (m : bart lib) : M process unit :=
  modify (fun s => {| model := Some m; tokenizer := tokenizer s; device := device s;
                      mlflow_params := mlflow_params s;
                      mlflow_metrics := mlflow_metrics s; clock := clock s |}).
Definition set_tokenizer (t : tokenizer_t lib) : M process unit :=
  modify (fun s => {| model := model s; tokenizer := Some t; device := device s;
                      mlflow_params := mlflow_params s;
                      mlflow_metrics := mlflow_metrics s; clock := clock s |}).
Definition set_device (d : string) : M process unit :=
  modify (fun s => {| model := model s; tokenizer := tokenizer s; device := Some d;
                      mlflow_params := mlflow_params s;
                      mlflow_metrics := mlflow_metrics s; clock := clock s |}).
Definition get_model : M process (bart lib) :=
  s <- get ;; lift (NameError "model") (model s).
Definition get_tokenizer : M process (tokenizer_t lib) :=
  s <- get ;; lift (NameError "tokenizer") (tokenizer s).
Definition get_device : M process string :=
  s <- get ;; lift (NameError "device") (device s).

(** [mlflow.log_param(k, v)] and [mlflow.log_metric(k, v)] *)
Definition log_param (k v : string) : M process unit :=
  modify (fun s => {| model := model s; tokenizer := tokenizer s; device := device s;
                      mlflow_params := mlflow_params s ++ [(k, v)];
                      mlflow_metrics := mlflow_metrics s; clock := clock s |}).
Definition log_metric (k : string) (v : metric lib) : M process unit :=
  modify (fun s => {| model := model s; tokenizer := tokenizer s; device := device s;
                      mlflow_params := mlflow_params s;
                      mlflow_metrics := mlflow_metrics s ++ [(k, v)]; clock := clock s |}).

(** [time.perf_counter()] *)
Definition read_clock : M process (time lib) :=
  s <- get ;;
  modify (fun s => {| model := model s; tokenizer := tokenizer s; device := device s;
                      mlflow_params := mlflow_params s;
                      mlflow_metrics := mlflow_metrics s; clock := S (clock s) |}) ;;;
  ret (perf_counter lib (clock s)).

Definition init : M process unit :=
  let cuda_available := cuda_is_available lib in
  set_device (if cuda_available then "cuda" else "cpu") ;;;
  (if cuda_available
   then _ <- lift (OSError "nvidia-smi") (nvidia_smi lib) ;; ret tt
   else ret tt) ;;;
  dir <- getenv host "AZUREML_MODEL_DIR" ;;
  let model_path := join dir "model" in
  t <- lift (LoadError model_path) (AutoTokenizer_from_pretrained lib model_path) ;;
  set_tokenizer t ;;;
  try_except
    (m <- lift (LoadError model_path) (from_pretrained_auto lib model_path) ;;
     set_model m)
    (fun e =>
     m <- lift (LoadError model_path) (from_pretrained lib model_path) ;;
     set_model m ;;;
     set_device "cpu") ;;;
  d <- get_device ;;
  (if negb (String.eqb d "cpu")
   then try_except
          (m <- get_model ;;
           m <- lift InferenceError (BetterTransformer_transform lib m) ;;
           set_model m)
          (fun e => ret tt)
   else ret tt) ;;;
  d <- get_device ;;
  log_param "device" d ;;;
  m <- get_model ;;
  log_param "model" (type_name lib m).

(** One row: encode, generate, decode, [summaries[0]]. *)
Definition summarize (text : string) : M process string :=
  t <- get_tokenizer ;;
  inputs <- lift ValueError (batch_encode_plus lib t text) ;;
  d <- get_device ;;
  input_ids <- lift DeviceError (to lib inputs d) ;;
  m <- get_model ;;
  summary_ids <- lift InferenceError (generate lib m input_ids) ;;
  t <- get_tokenizer ;;
  let summaries := batch_decode lib t summary_ids in
  lift IndexError (head summaries).

(** [for idx, text in enumerate(..)]: the loop carries [resultList] and the
    local [rps], which is unbound until the body has run once. *)
Fixpoint loop (start_time : time lib) (idx : nat) (texts : list string)
    (resultList : list string) (rps : option (metric lib))
  : M process (list string * option (metric lib)) :=
  match texts with
  | [] => ret (resultList, rps)
  | text :: texts' =>
      summary <- summarize text ;;
      now <- read_clock ;;
      let rps := rows_per_second lib idx start_time now in
      loop start_time (S idx) texts' (resultList ++ [summary]) (Some rps)
  end.

Definition run (mini_batch : list string) : M process (list string) :=
  ds <- lift DatasetError (load_dataset lib mini_batch) ;;
  start_time <- read_clock ;;
  texts <- lift (KeyError "text") (get_column "text" ds) ;;
  out <- loop start_time 0 texts [] None ;;
  rps <- lift (UnboundLocalError "rps") out.2 ;;
  log_metric "rows_per_second" rps ;;;
  ret out.1.

End Driver.
End SummarizationDriver.

(** ** The custom-output driver: [custom-outputs-parquet], [code/batch_driver.py] *)

Module ParquetDriver.

(** What a path of the file system holds: the table a csv file parses to,
    or the table a parquet file stores. *)
Inductive file_data (C : Type) : Type :=
  | CsvFile (df : frame C)
  | ParquetFile (df : frame C).
Arguments CsvFile {C} df.
Arguments ParquetFile {C} df.

(** pickle and the unpickled model as the script uses them; [cell] is the
    type of a table entry, [writable] tells where a file can be created. *)
Record Lib : Type := {
  sk_model : Type;
  cell : Type;
  pickle_load : string -> option sk_model;
  predict : sk_model -> frame cell -> option (list cell);
  writable : string -> bool;
}.

Section Driver.
Context (lib : Lib) (host : Host).

(** The module globals ([model], [output_path]), the file system, and the
    sequence of [to_parquet] calls made so far. *)
Record process : Type := {
  model : option (sk_model lib);
  output_path : option string;
  fs : gmap string (file_data (cell lib));
  written : list (string * frame (cell lib));
}.

Definition unbound (files : gmap string (file_data (cell lib))) : process :=
  {| model := None; output_path := None; fs := files; written := [] |}.

Definition set_model (m : sk_model lib) : M process unit :=
  modify (fun s => {| model := Some m; output_path := output_path s;
                      fs := fs s; written := written s |}).
Definition set_output_path (p : string) : M process unit :=
  modify (fun s => {| model := model s; output_path := Some p;
                      fs := fs s; written := written s |}).
Definition get_model : M process (sk_model lib) :=
  s <- get ;; lift (NameError "model") (model s).
Definition get_output_path : M process string :=
  s <- get ;; lift (NameError "output_path") (output_path s).

Definition init : M process unit :=
  out <- getenv host "AZUREML_BI_OUTPUT_PATH" ;;
  set_output_path out ;;;
  model_path <- getenv host "AZUREML_MODEL_DIR" ;;
  model_file <- last_item (glob host (model_path +:+ "/*/*.pkl")) ;;
  m <- lift (LoadError model_file) (pickle_load lib model_file) ;;
  set_model m.

(** [pd.read_csv(path)] *)
Definition pd_read_csv (path : string) : M process (frame (cell lib)) :=
  s <- get ;;
  match fs s !! path with
  | Some (CsvFile df) => ret df
  | _ => raise (LoadError path)
  end.

(** [df.to_parquet(path)]: creates the file or replaces the one there. *)
Definition to_parquet (df : frame (cell lib)) (path : string) : M process unit :=
  if writable lib path
  then modify (fun s => {| model := model s; output_path := output_path s;
                           fs := <[path := ParquetFile df]> (fs s);
                           written := written s ++ [(path, df)] |})
  else raise (OSError path).

Definition output_file (output_path file_path : string) : string :=
  let output_file_name := stem file_path in
  join output_path (output_file_name +:+ ".parquet").

(** The body of [for file_path in mini_batch]. *)
Definition score (file_path : string) : M process unit :=
  data <- pd_read_csv file_path ;;
  m <- get_model ;;
  pred <- lift InferenceError (predict lib m data) ;;
  data <- lift ValueError (setitem "prediction" pred data) ;;
  out <- get_output_path ;;
  let output_file_path := output_file out file_path in
  to_parquet data output_file_path.

Definition run (mini_batch : list string) : M process (list string) :=
  for_each mini_batch score ;;;
  ret mini_batch.

End Driver.
End ParquetDriver.

(** ** The mlflow model loader: [code/score-with-mlflow/module_loader.py] *)

Module TfLoader.

(** One entry of the table that [predict] returns. *)
Inductive value : Type :=
  | VClass (c : nat)
  | VProbability (p : R)
  | VLabel (l : string).

(** keras and the file system as the module uses them: [read_lines path] is
    [open(path).read().splitlines()], [predict] gives one row of scores per
    image of the batch. *)
Record Lib : Type := {
  keras_model : Type;
  batch : Type;
  abspath : string -> string;
  load_model : string -> option keras_model;
  read_lines : string -> option (list string);
  predict : keras_model -> batch -> option (list (list R));
}.

Section Loader.
Context (lib : Lib).

(** The attributes that [__init__] sets. *)
Record TfClassifier : Type := {
  model : keras_model lib;
  imagenet_labels : list string;
}.

(** [TfClassifier(model_path, labels_path)] *)
Definition new {S} (model_path labels_path : string) : M S TfClassifier :=
  m <- lift (LoadError model_path) (load_model lib model_path) ;;
  labels <- lift (LoadError labels_path) (read_lines lib labels_path) ;;
  ret {| model := m; imagenet_labels := labels |}.

(** [self.predict(data)]: the reductions run over the last axis, row by
    row; indexing the labels past their end raises [IndexError]. *)
Definition predict_table {S} (self : TfClassifier) (data : batch lib) : M S (frame value) :=
  preds <- lift InferenceError (predict lib (model self) data) ;;
  pred_prob <- lift ValueError (mapM reduce_max preds) ;;
  pred_class <- lift ValueError (mapM argmax preds) ;;
  pred_label <- lift IndexError
                  (mapM (fun pred => imagenet_labels self !! pred) pred_class) ;;
  ret [("class", VClass <$> pred_class);
       ("probability", VProbability <$> pred_prob);
       ("label", VLabel <$> pred_label)].

Definition _load_pyfunc {S} (data_path : string) : M S TfClassifier :=
  let model_path := abspath lib data_path in
  let labels_path := join model_path "ImageNetLabels.txt" in
  new model_path labels_path.

End Loader.
End TfLoader.

(** ** The notebook cells around the deployments *)

Module Notebook.

Definition ascii_lowercase : string := "abcdefghijklmnopqrstuvwxyz".
Definition digits : string := "0123456789".
Definition allowed_chars : string := ascii_lowercase +:+ digits.

Section EndpointName.
(** [randbelow k n] is what the [k]-th call of the generator returns when
    asked for a number below [n]; the state counts the calls made. *)
Context (randbelow : nat -> nat -> nat).

(** [random.choice(seq)]: [seq[randbelow(len(seq))]] *)
Definition random_choice (seq : string) : M nat ascii :=
  k <- get ;;
  modify S ;;;
  lift IndexError (String.get (randbelow k (String.length seq)) seq).

(** ["".join(random.choice(allowed_chars) for x in range(5))] *)
Definition endpoint_suffix : M nat string :=
  chars <- for_append (seq 0 5) (fun _ => random_choice allowed_chars) [] ;;
  ret (string_of_list_ascii chars).

(** [endpoint_name = prefix + endpoint_suffix], the prefix being
    ["mnist-batch-"], ["text-summarization-"], ["heart-classifier-"] or
    ["imagenet-classifier-"]. *)
Definition endpoint_name (prefix : string) : M nat string :=
  suffix <- endpoint_suffix ;;
  ret (prefix +:+ suffix).
End EndpointName.

(** A collection of the workspace ([ml_client.models], [ml_client.compute],
    [ml_client.data]): the assets it lists and what creating one does. *)
Record Assets : Type := {
  store : Type;
  asset : Type;
  asset_name : asset -> string;
  list_assets : store -> list asset;
  create_or_update : asset -> store -> store;
}.

Section Cells.
Context (assets : Assets).

(** [any(filter(lambda m: m.name == name, collection.list()))] *)
Definition any_named (name : string) (st : store assets) : bool :=
  match filter (fun m => asset_name assets m = name) (list_assets assets st) with
  | [] => false
  | _ :: _ => true
  end.

(** [if not any(...): collection.create_or_update(asset)], the asset being
    built with the name that is looked for. *)
Definition create_if_absent (a : asset assets) (st : store assets) : store assets :=
  if negb (any_named (asset_name assets a) st) then create_or_update assets a st else st.
End Cells.

(** [while waiting(observe()): sleep(..)]: [observe k] is what the [k]-th
    poll sees; the result is the number of sleeps made when the loop ends,
    if it does within [fuel] polls. *)
Fixpoint wait_while {A} (waiting : A -> bool) (observe : nat -> A) (fuel k : nat)
  : option nat :=
  match fuel with
  | O => None
  | S fuel' =>
      if waiting (observe k) then wait_while waiting observe fuel' (S k)
      else Some k
  end.

(** [status not in ["Completed", "Failed"]] *)
Definition job_running (status : string) : bool :=
  negb (bool_decide (status ∈ ["Completed"; "Failed"])).

(** [while ml_client.jobs.get(name=job.name).status not in [..]: sleep(10)] *)
Definition wait_for_job (status : nat -> string) (fuel : nat) : option nat :=
  wait_while job_running status fuel 0.

(** [while ml_client.compute.get(..).provisioning_state == "Creating": sleep(1)] *)
Definition wait_for_compute (provisioning_state : nat -> string) (fuel : nat) : option nat :=
  wait_while (fun st => String.eqb st "Creating") provisioning_state fuel 0.

End Notebook.

(** ** Workers: a driver together with the state of its process *)

Inductive worker : Type :=
  | TorchWorker (lib : TorchDriver.Lib) (g : TorchDriver.globals lib)
  | KerasWorker (lib : KerasDriver.Lib) (g : KerasDriver.globals lib)
  | SummarizationWorker (lib : SummarizationDriver.Lib)
      (s : SummarizationDriver.process lib)
  | ParquetWorker (lib : ParquetDriver.Lib) (s : ParquetDriver.process lib).

(** What [run] hands back to the host, entry by entry: a row of the table
    that an image driver returns, or a string (a summary; an acknowledged
    path). *)
Inductive record : Type :=
  | Row (r : prediction)
  | Item (s : string).

Definition on_worker {S A B} (wrap : S -> worker) (f : A -> B)
    (out : result A * S) : result B * worker :=
  (match out.1 with Ok a => Ok (f a) | Raise e => Raise e end, wrap out.2).

(** The host calls [init()] once ... *)
Definition init (host : Host) (w : worker) : result unit * worker :=
  match w with
  | TorchWorker lib g =>
      on_worker (TorchWorker lib) (fun u => u) (TorchDriver.init lib host g)
  | KerasWorker lib g =>
      on_worker (KerasWorker lib) (fun u => u) (KerasDriver.init lib host g)
  | SummarizationWorker lib s =>
      on_worker (SummarizationWorker lib) (fun u => u) (SummarizationDriver.init lib host s)
  | ParquetWorker lib s =>
      on_worker (ParquetWorker lib) (fun u => u) (ParquetDriver.init lib host s)
  end.

(** ... and then [run(mini_batch)] once per mini-batch. *)
Definition run (w : worker) (mini_batch : list string) : result (list record) * worker :=
  match w with
  | TorchWorker lib g =>
      on_worker (TorchWorker lib) (fmap Row) (TorchDriver.run lib mini_batch g)
  | KerasWorker lib g =>
      on_worker (KerasWorker lib) (fmap Row) (KerasDriver.run lib mini_batch g)
  | SummarizationWorker lib s =>
      on_worker (SummarizationWorker lib) (fmap Item) (SummarizationDriver.run lib mini_batch s)
  | ParquetWorker lib s =>
      on_worker (ParquetWorker lib) (fmap Item) (ParquetDriver.run lib mini_batch s)
  end.

(** Sequential [run] calls on one worker, mini-batch after mini-batch, with
    the outcome of each call: a mini-batch on which [run] raises has failed,
    and the worker goes on to the next one. *)
Fixpoint run_all (w : worker) (mini_batches : list (list string))
  : list (result (list record)) * worker :=
  match mini_batches with
  | [] => ([], w)
  | mb :: rest =>
      let out := run w mb in
      let outs := run_all out.2 rest in
      (out.1 :: outs.1, outs.2)
  end.

(** ** Vocabulary of the statements *)

(** A computation that leaves the state as it found it, raising or not. *)
Definition read_only {S A} (m : M S A) : Prop := forall s, (m s).2 = s.

(** The first exception of a sequence of outcomes, or all their values. *)
Fixpoint collect {B} (rs : list (result B)) : result (list B) :=
  match rs with
  | [] => Ok []
  | Ok b :: rs' =>
      match collect rs' with
      | Ok bs => Ok (b :: bs)
      | Raise e => Raise e
      end
  | Raise e :: _ => Raise e
  end.

Definition raises {A} (r : result A) : Prop := exists e, r = Raise e.

Definition result_map {A B} (f : A -> B) (r : result A) : result B :=
  match r with
  | Ok a => Ok (f a)
  | Raise e => Raise e
  end.

(** [v] is the largest entry of the row [l] and [j] the first index where
    it stands. *)
Definition first_top (l : list float32) (v : float32) (j : nat) : Prop :=
  l !! j = Some v /\
  (forall x, x ∈ l -> SFleb x v = true) /\
  (forall i y, i < j -> l !! i = Some y -> SFltb y v = true).

(** What a soft-max owes a row of finite scores: a row of the same length,
    of numbers from 0 to 1.  (The libraries take the largest score off every
    score before they exponentiate: each exponential is then at most 1, one
    of them is 1, and each quotient by their sum lies between 0 and 1,
    rounded or not.) *)
Definition unit_row (softmax : list float32 -> list float32) (logits : list float32) : Prop :=
  length (softmax logits) = length logits /\
  Forall (fun x => F32.in_unit x = true) (softmax logits).

Definition sound_softmax (softmax : list float32 -> list float32) : Prop :=
  forall logits, Forall (fun x => F32.is_finite x = true) logits -> unit_row softmax logits.

(** The loaded torch model gives the row [logits] for the image at [p]. *)
Inductive torch_scores (lib : TorchDriver.Lib) (g : TorchDriver.globals lib)
    (p : string) (logits : list float32) : Prop :=
  | TorchScores m d img input :
      TorchDriver.model lib g = Some m ->
      TorchDriver.device lib g = Some d ->
      TorchDriver.read_image lib p = Some img ->
      TorchDriver.to lib (TorchDriver.expand lib (TorchDriver.float lib img)) d = Some input ->
      TorchDriver.forward lib m input = Some logits ->
      torch_scores lib g p logits.

(** The loaded keras model gives the row [logits] for the image at [p]. *)
Inductive keras_scores (lib : KerasDriver.Lib) (g : KerasDriver.globals lib)
    (p : string) (logits : list float32) : Prop :=
  | KerasScores m img :
      KerasDriver.model lib g = Some m ->
      KerasDriver.Image_open lib p = Some img ->
      KerasDriver.predict lib m
        (KerasDriver.expand_dims lib (KerasDriver.np_array lib img)) = Some logits ->
      keras_scores lib g p logits.

(** The loaded tokenizer and model turn the row [text] into [summary]. *)
Inductive summarizes (lib : SummarizationDriver.Lib)
    (s : SummarizationDriver.process lib) (text summary : string) : Prop :=
  | Summarizes t inputs d input_ids m summary_ids :
      SummarizationDriver.tokenizer lib s = Some t ->
      SummarizationDriver.batch_encode_plus lib t text = Some inputs ->
      SummarizationDriver.device lib s = Some d ->
      SummarizationDriver.to lib inputs d = Some input_ids ->
      SummarizationDriver.model lib s = Some m ->
      SummarizationDriver.generate lib m input_ids = Some summary_ids ->
      head (SummarizationDriver.batch_decode lib t summary_ids) = Some summary ->
      summarizes lib s text summary.

(** The rows of the [text] column of the data set that [load_dataset]
    builds from a list of files. *)
Definition texts_of (lib : SummarizationDriver.Lib) (data_files : list string)
  : option (list string) :=
  SummarizationDriver.load_dataset lib data_files ≫= get_column "text".

(** The summariser can load and process a mini-batch: [load_dataset] builds
    a data set from its files, the data set has a [text] column, and the
    loaded tokenizer and model summarise every row of it. *)
Definition summarizable (lib : SummarizationDriver.Lib)
    (s : SummarizationDriver.process lib) (mini_batch : list string) : Prop :=
  exists texts, texts_of lib mini_batch = Some texts /\
                Forall (fun text => exists summary, summarizes lib s text summary) texts.

(** The csv file at [p] holds the table [df], the loaded model predicts
    [pred] for it, one value per row, and the parquet file for [p] can be
    written under the output directory [out]. *)
Inductive parquet_scores (lib : ParquetDriver.Lib) (s : ParquetDriver.process lib)
    (p : string) (df : frame (ParquetDriver.cell lib))
    (pred : list (ParquetDriver.cell lib)) (out : string) : Prop :=
  | ParquetScores m :
      ParquetDriver.fs lib s !! p = Some (ParquetDriver.CsvFile df) ->
      ParquetDriver.model lib s = Some m ->
      ParquetDriver.predict lib m df = Some pred ->
      length pred = nrows df ->
      ParquetDriver.output_path lib s = Some out ->
      ParquetDriver.writable lib (ParquetDriver.output_file out p) = true ->
      parquet_scores lib s p df pred out.

(** A valid item: one that the worker can load and process.  The image
    and parquet drivers take the items one by one.  The summariser hands the
    whole mini-batch to [load_dataset], so that an item can be loaded and
    processed when a mini-batch that holds it can: an item that cannot makes
    every mini-batch fail that it is put in. *)
Definition processes (w : worker) (p : string) : Prop :=
  match w with
  | TorchWorker lib g =>
      exists logits, torch_scores lib g p logits /\ TorchDriver.softmax lib logits <> []
  | KerasWorker lib g =>
      exists logits, keras_scores lib g p logits /\
                     logits <> [] /\ KerasDriver.softmax lib logits <> []
  | SummarizationWorker lib s =>
      exists mini_batch, p ∈ mini_batch /\ summarizable lib s mini_batch
  | ParquetWorker lib s => exists df pred out, parquet_scores lib s p df pred out
  end.

(** No output of the mini-batch lands on one of its inputs. *)
Definition keeps_inputs (w : worker) (mini_batch : list string) : Prop :=
  match w with
  | ParquetWorker lib s =>
      forall out, ParquetDriver.output_path lib s = Some out ->
        Forall (fun q => ParquetDriver.output_file out q ∉ mini_batch) mini_batch
  | _ => True
  end.

(** A mini-batch of valid items.  For the summariser, whose items are
    loaded together, it is the mini-batch that is loaded and processed. *)
Definition valid_batch (w : worker) (mini_batch : list string) : Prop :=
  match w with
  | SummarizationWorker lib s => summarizable lib s mini_batch
  | _ => Forall (processes w) mini_batch /\ keeps_inputs w mini_batch
  end.

Definition image_driver (w : worker) : bool :=
  match w with
  | TorchWorker _ _ | KerasWorker _ _ => true
  | _ => false
  end.

Definition is_summarizer (w : worker) : bool :=
  match w with
  | SummarizationWorker _ _ => true
  | _ => false
  end.

Definition write_mode (w : worker) : bool :=
  match w with
  | ParquetWorker _ _ => true
  | _ => false
  end.

(** The row of class scores that an image worker computes for [p]. *)
Definition scores (w : worker) (p : string) (logits : list float32) : Prop :=
  match w with
  | TorchWorker lib g => torch_scores lib g p logits
  | KerasWorker lib g => keras_scores lib g p logits
  | _ => False
  end.

(** The soft-max of the library that an image worker calls. *)
Definition softmax_of (w : worker) : list float32 -> list float32 :=
  match w with
  | TorchWorker lib _ => TorchDriver.softmax lib
  | KerasWorker lib _ => KerasDriver.softmax lib
  | _ => fun logits => logits
  end.

(** How a row [r] stands to the scores [logits] of its image.  The torch
    driver takes value and index from one [torch.max] over the soft-max; the
    keras driver takes the value from the soft-max and the index from the
    scores themselves. *)
Definition top_of (w : worker) (logits : list float32) (r : prediction) : Prop :=
  match w with
  | TorchWorker lib _ =>
      first_top (TorchDriver.softmax lib logits) (probability r) (class r)
  | KerasWorker lib _ =>
      (exists k, first_top (KerasDriver.softmax lib logits) (probability r) k) /\
      (exists top, first_top logits top (class r))
  | _ => False
  end.

(** What the worker makes of the item [p] taken alone, in the state the
    worker is in: the entries that [p] contributes to the output of [run].
    For the summariser these are the summaries of the rows of the data set
    that [load_dataset] builds from [p] alone. *)
Definition item_records (w : worker) (p : string) : result (list record) :=
  match w with
  | TorchWorker lib g =>
      result_map (fun r => [Row r]) (TorchDriver.score lib p g).1
  | KerasWorker lib g =>
      result_map (fun r => [Row r]) (KerasDriver.score lib p g).1
  | SummarizationWorker lib s =>
      match SummarizationDriver.load_dataset lib [p] with
      | Some ds =>
          match get_column "text" ds with
          | Some texts =>
              result_map (fmap Item)
                (collect ((fun text => (SummarizationDriver.summarize lib text s).1) <$> texts))
          | None => Raise (KeyError "text")
          end
      | None => Raise DatasetError
      end
  | ParquetWorker lib s => Ok [Item p]
  end.

(** The data set of the mini-batch holds the rows of its files, file after
    file: each file contributes the rows that it has when loaded alone.
    This is a matter of [load_dataset]; the other drivers load item by item. *)
Definition item_wise (w : worker) (mini_batch : list string) : Prop :=
  match w with
  | SummarizationWorker lib s =>
      texts_of lib mini_batch =
        (fun rows => concat rows) <$> mapM (fun p => texts_of lib [p]) mini_batch
  | _ => True
  end.

(** How many entries [run] is to return for a mini-batch: one per row of
    text of the data set for the summariser, one per file for the other
    drivers. *)
Definition expected_count (w : worker) (mini_batch : list string) : nat :=
  match w with
  | SummarizationWorker lib s => length (default [] (texts_of lib mini_batch))
  | _ => length mini_batch
  end.

(** [out] is what [run] is to return for a mini-batch, entry by entry: the
    row of each item for the image drivers, the summary of each row of text of
    the data set for the summariser, the paths themselves for the parquet
    driver. *)
Definition answers (w : worker) (mini_batch : list string) (out : list record) : Prop :=
  match w with
  | SummarizationWorker lib s =>
      exists texts, texts_of lib mini_batch = Some texts /\
        Forall2 (fun text r => exists summary, summarizes lib s text summary /\ r = Item summary)
                texts out
  | ParquetWorker _ _ => out = Item <$> mini_batch
  | _ => Forall2 (fun p r => item_records w p = Ok [r]) mini_batch out
  end.

(** The [to_parquet] calls made so far, as the paths written. *)
Definition written_paths (w : worker) : list string :=
  match w with
  | ParquetWorker lib s => (ParquetDriver.written lib s).*1
  | _ => []
  end.

(** The paths that [run] is to write for a mini-batch, in order: one per
    item in write mode, none for the other drivers. *)
Definition due_paths (w : worker) (mini_batch : list string) : list string :=
  match w with
  | ParquetWorker lib s =>
      ParquetDriver.output_file (default "" (ParquetDriver.output_path lib s)) <$> mini_batch
  | _ => []
  end.

(** The part of a summariser process that [init] binds. *)
Definition summarizer_globals {lib : SummarizationDriver.Lib}
    (s : SummarizationDriver.process lib) :=
  (SummarizationDriver.model lib s,
   SummarizationDriver.tokenizer lib s,
   SummarizationDriver.device lib s).

(** The part of a parquet process that [init] binds. *)
Definition parquet_globals {lib : ParquetDriver.Lib}
    (s : ParquetDriver.process lib) :=
  (ParquetDriver.model lib s, ParquetDriver.output_path lib s).

(** The process after one [to_parquet] of [df] at [path]. *)
Definition wrote {lib : ParquetDriver.Lib} (s : ParquetDriver.process lib)
    (path : string) (df : frame (ParquetDriver.cell lib)) : ParquetDriver.process lib :=
  {| ParquetDriver.model := ParquetDriver.model lib s;
     ParquetDriver.output_path := ParquetDriver.output_path lib s;
     ParquetDriver.fs := <[path := ParquetDriver.ParquetFile df]> (ParquetDriver.fs lib s);
     ParquetDriver.written := ParquetDriver.written lib s ++ [(path, df)] |}.

(** The file system after a sequence of [to_parquet] calls. *)
Definition after_writes {C : Type} (files : gmap string (ParquetDriver.file_data C))
    (arts : list (string * frame C)) : gmap string (ParquetDriver.file_data C) :=
  foldl (fun m a => <[a.1 := ParquetDriver.ParquetFile a.2]> m) files arts.

(** [s'] is a later state of the process [s]: same globals, and every csv
    file of [s'] is the csv file that [s] has at that path. *)
Definition later {lib : ParquetDriver.Lib} (s s' : ParquetDriver.process lib) : Prop :=
  parquet_globals s' = parquet_globals s /\
  forall p df, ParquetDriver.fs lib s' !! p = Some (ParquetDriver.CsvFile df) ->
               ParquetDriver.fs lib s !! p = Some (ParquetDriver.CsvFile df).

(** The parquet table that the driver makes of the csv table [df]. *)
Definition scored {C : Type} (pred : list C) (df : frame C) : frame C :=
  put_column "prediction" pred df.

(** The process after a sequence of [to_parquet] calls. *)
Definition wrote_all {lib : ParquetDriver.Lib} (s : ParquetDriver.process lib)
    (arts : list (string * frame (ParquetDriver.cell lib))) : ParquetDriver.process lib :=
  foldl (fun s a => wrote s a.1 a.2) s arts.

(** [a] is the artifact of the item [p]: the path under the output
    directory and the csv table with the predictions: *)
Definition artifact_of {lib : ParquetDriver.Lib} (s : ParquetDriver.process lib)
    (out p : string) (a : string * frame (ParquetDriver.cell lib)) : Prop :=
  exists df pred, parquet_scores lib s p df pred out /\
                  a = (ParquetDriver.output_file out p, scored pred df).

(** The worker reduced to what [init] binds: the module globals, without
    the clock, the mlflow run, the file system and the log of writes. *)
Definition globals_of (w : worker) : worker :=
  match w with
  | TorchWorker lib g => TorchWorker lib g
  | KerasWorker lib g => KerasWorker lib g
  | SummarizationWorker lib s =>
      SummarizationWorker lib
        {| SummarizationDriver.model := SummarizationDriver.model lib s;
           SummarizationDriver.tokenizer := SummarizationDriver.tokenizer lib s;
           SummarizationDriver.device := SummarizationDriver.device lib s;
           SummarizationDriver.mlflow_params := [];
           SummarizationDriver.mlflow_metrics := [];
           SummarizationDriver.clock := 0 |}
  | ParquetWorker lib s =>
      ParquetWorker lib
        {| ParquetDriver.model := ParquetDriver.model lib s;
           ParquetDriver.output_path := ParquetDriver.output_path lib s;
           ParquetDriver.fs := ∅;
           ParquetDriver.written := [] |}
  end.

(** Everything that [init] needs is there and loads: the environment
    variables, the model file, the model.  For the summariser the model
    loads with [device_map="auto"] or, failing that, without it; the
    BetterTransformer conversion has no part in this. *)
Definition loads (host : Host) (w : worker) : Prop :=
  match w with
  | TorchWorker lib g =>
      exists model_path model_file weights m,
        environ host !! "AZUREML_MODEL_DIR" = Some model_path /\
        last (glob host (model_path +:+ "/*/*.pt")) = Some model_file /\
        TorchDriver.torch_load lib model_file = Some weights /\
        TorchDriver.load_state_dict lib (TorchDriver.MnistClassifier lib) weights = Some m
  | KerasWorker lib g =>
      exists dir m,
        environ host !! "AZUREML_MODEL_DIR" = Some dir /\
        KerasDriver.load_model lib (join dir "model") = Some m
  | SummarizationWorker lib s =>
      exists dir t m,
        (SummarizationDriver.cuda_is_available lib = true ->
         is_Some (SummarizationDriver.nvidia_smi lib)) /\
        environ host !! "AZUREML_MODEL_DIR" = Some dir /\
        SummarizationDriver.AutoTokenizer_from_pretrained lib (join dir "model") = Some t /\
        (SummarizationDriver.from_pretrained_auto lib (join dir "model") = Some m \/
         (SummarizationDriver.from_pretrained_auto lib (join dir "model") = None /\
          SummarizationDriver.from_pretrained lib (join dir "model") = Some m))
  | ParquetWorker lib s =>
      exists out model_path model_file m,
        environ host !! "AZUREML_BI_OUTPUT_PATH" = Some out /\
        environ host !! "AZUREML_MODEL_DIR" = Some model_path /\
        last (glob host (model_path +:+ "/*/*.pkl")) = Some model_file /\
        ParquetDriver.pickle_load lib model_file = Some m
  end.

(** A worker on which [init] has not run: none of its globals is bound. *)
Definition uninitialised (w : worker) : Prop :=
  match w with
  | TorchWorker lib g =>
      TorchDriver.model lib g = None /\ TorchDriver.device lib g = None
  | KerasWorker lib g => KerasDriver.model lib g = None
  | SummarizationWorker lib s =>
      SummarizationDriver.model lib s = None /\
      SummarizationDriver.tokenizer lib s = None /\
      SummarizationDriver.device lib s = None
  | ParquetWorker lib s =>
      ParquetDriver.model lib s = None /\ ParquetDriver.output_path lib s = None
  end.

(** The summariser process after [n] more readings of the clock. *)
Definition ticked {lib : SummarizationDriver.Lib}
    (s : SummarizationDriver.process lib) (n : nat) : SummarizationDriver.process lib :=
  SummarizationDriver.Build_process lib
    (SummarizationDriver.model lib s) (SummarizationDriver.tokenizer lib s)
    (SummarizationDriver.device lib s) (SummarizationDriver.mlflow_params lib s)
    (SummarizationDriver.mlflow_metrics lib s) (SummarizationDriver.clock lib s + n).

(** The summariser process after a [run] that summarised [n] rows: the
    clock read once before the loop and once per row, and the rate of the
    last row logged, computed from its index [n - 1]. *)
Definition after_run {lib : SummarizationDriver.Lib}
    (s : SummarizationDriver.process lib) (n : nat) : SummarizationDriver.process lib :=
  SummarizationDriver.Build_process lib
    (SummarizationDriver.model lib s) (SummarizationDriver.tokenizer lib s)
    (SummarizationDriver.device lib s) (SummarizationDriver.mlflow_params lib s)
    (SummarizationDriver.mlflow_metrics lib s ++
       [("rows_per_second",
         SummarizationDriver.rows_per_second lib (n - 1)
           (SummarizationDriver.perf_counter lib (SummarizationDriver.clock lib s))
           (SummarizationDriver.perf_counter lib (SummarizationDriver.clock lib s + n)))])
    (SummarizationDriver.clock lib s + n + 1).

(** ** Sample libraries and workers

    Small instances of the interfaces, on which the statements below are
    exercised. *)

Definition sample_host : Host :=
  {| environ := {[ "AZUREML_MODEL_DIR" := "/models/m";
                   "AZUREML_BI_OUTPUT_PATH" := "/out" ]};
     glob := fun pattern => ["/models/m/1/weights"] |}.

(** The binary32 numbers 200 and -200. *)
Definition two_hundred : float32 := S754_finite false 13107200 (-16).
Definition minus_two_hundred : float32 := S754_finite true 13107200 (-16).

(** The row with 1 at index [j] and 0 elsewhere. *)
Definition one_hot (n j : nat) : list float32 :=
  (fun i => if decide (i = j) then F32.one else F32.zero) <$> seq 0 n.

(** A score that spoils the soft-max of its row: NaN, or the [+inf] of a
    score that has overflowed (the soft-max subtracts the largest score from
    every score, and [inf - inf] is NaN). *)
Definition spoils (x : float32) : bool :=
  match x with
  | S754_nan | S754_infinity false => true
  | _ => false
  end.

Definition minus_infinity (x : float32) : bool :=
  match x with
  | S754_infinity true => true
  | _ => false
  end.

(** The soft-max in binary32 of a row whose largest score is far ahead of the
    others (by 104 or more, where [exp] underflows to 0): 1 at the largest
    score, 0 elsewhere.  A row with a spoiling score, or of [-inf] only, is
    taken to a row of NaN. *)
Definition saturated_softmax (l : list float32) : list float32 :=
  if existsb spoils l || forallb minus_infinity l
  then replicate (length l) S754_nan
  else match F32.argmax l with
       | Some j => one_hot (length l) j
       | None => []
       end.

(** Three classes; the scores put the images with a [7] in their path into
    class 1 and the others into class 0.  A path without an extension is not
    an image. *)
Definition sample_torch : TorchDriver.Lib :=
  {| TorchDriver.tensor := string;
     TorchDriver.state_dict := unit;
     TorchDriver.module := bool;
     TorchDriver.torch_load := fun _ => Some tt;
     TorchDriver.MnistClassifier := false;
     TorchDriver.load_state_dict := fun m _ => Some m;
     TorchDriver.eval := fun _ => true;
     TorchDriver.cuda_is_available := false;
     TorchDriver.read_image := fun p => if contains dot p then Some p else None;
     TorchDriver.float := fun t => t;
     TorchDriver.expand := fun t => t;
     TorchDriver.to := fun t _ => Some t;
     TorchDriver.forward := fun _ t =>
       Some (if contains "7"%char t
             then [F32.zero; two_hundred; minus_two_hundred]
             else [two_hundred; F32.zero; minus_two_hundred]);
     TorchDriver.softmax := saturated_softmax |}.

Definition sample_torch_worker : worker :=
  TorchWorker sample_torch
    (TorchDriver.Build_globals sample_torch (Some true) (Some Cpu)).

(** The same classifier with weights that make the first score overflow. *)
Definition overflowing_torch : TorchDriver.Lib :=
  {| TorchDriver.tensor := string;
     TorchDriver.state_dict := unit;
     TorchDriver.module := bool;
     TorchDriver.torch_load := fun _ => Some tt;
     TorchDriver.MnistClassifier := false;
     TorchDriver.load_state_dict := fun m _ => Some m;
     TorchDriver.eval := fun _ => true;
     TorchDriver.cuda_is_available := false;
     TorchDriver.read_image := fun p => if contains dot p then Some p else None;
     TorchDriver.float := fun t => t;
     TorchDriver.expand := fun t => t;
     TorchDriver.to := fun t _ => Some t;
     TorchDriver.forward := fun _ _ => Some [S754_infinity false; F32.zero; minus_two_hundred];
     TorchDriver.softmax := saturated_softmax |}.

Definition overflowing_torch_worker : worker :=
  TorchWorker overflowing_torch
    (TorchDriver.Build_globals overflowing_torch (Some true) (Some Cpu)).

(** The csv files of the sample summariser, as tables. *)
Definition sample_csv (p : string) : option (frame string) :=
  if String.eqb p "bills/part-0.csv"
  then Some [("text", ["An act to amend"; "A bill to provide"])]
  else if String.eqb p "bills/part-1.csv"
  then Some [("text", ["A resolution"])]
  else if String.eqb p "bills/titled.csv"
  then Some [("title", ["H.R. 1"]); ("text", ["To establish"])]
  else if String.eqb p "bills/empty.csv"
  then Some [("text", [])]
  else None.

(** A table fits the table of the first file when it has the same columns;
    the columns of a first file without rows have no type that a value could
    be cast to. *)
Definition fits (first df : frame string) : bool :=
  bool_decide (column_names df = column_names first) &&
  (negb (Nat.eqb (nrows first) 0) || Nat.eqb (nrows df) 0).

Definition stack (first : frame string) (tables : list (frame string)) : frame string :=
  (fun c => (c, concat ((fun df => default [] (get_column c df)) <$> tables)))
    <$> column_names first.

(** [load_dataset] on the sample files: no data set from no file, from a
    missing file, or from files that do not fit the first one. *)
Definition sample_load_dataset (data_files : list string) : option (frame string) :=
  match data_files with
  | [] => None
  | f :: _ =>
      first ← sample_csv f;
      tables ← mapM sample_csv data_files;
      if forallb (fits first) tables then Some (stack first tables) else None
  end.

(** A summariser that echoes its input; [auto] tells whether the model
    loads with [device_map="auto"]. *)
Definition sample_summarizer (auto : bool) : SummarizationDriver.Lib :=
  {| SummarizationDriver.tokenizer_t := unit;
     SummarizationDriver.bart := unit;
     SummarizationDriver.ids := string;
     SummarizationDriver.time := nat;
     SummarizationDriver.metric := nat;
     SummarizationDriver.cuda_is_available := false;
     SummarizationDriver.nvidia_smi := None;
     SummarizationDriver.AutoTokenizer_from_pretrained := fun _ => Some tt;
     SummarizationDriver.from_pretrained_auto := fun _ => if auto then Some tt else None;
     SummarizationDriver.from_pretrained := fun _ => Some tt;
     SummarizationDriver.BetterTransformer_transform := fun m => Some m;
     SummarizationDriver.type_name := fun _ => "BartForConditionalGeneration";
     SummarizationDriver.load_dataset := sample_load_dataset;
     SummarizationDriver.batch_encode_plus := fun _ text => Some text;
     SummarizationDriver.to := fun i _ => Some i;
     SummarizationDriver.generate := fun _ i => Some i;
     SummarizationDriver.batch_decode := fun _ i => [i];
     SummarizationDriver.perf_counter := fun n => n;
     SummarizationDriver.rows_per_second := fun idx _ _ => idx |}.

(** The initialised summariser after some calls of [run]: the metrics
    logged and the number of clock readings made so far. *)
Definition sample_summarizer_after (metrics : list (string * nat)) (ticks : nat) : worker :=
  SummarizationWorker (sample_summarizer true)
    (SummarizationDriver.Build_process (sample_summarizer true)
       (Some tt) (Some tt) (Some "cpu") [] metrics ticks).

Definition sample_summarizer_worker : worker := sample_summarizer_after [] 0.

(** A classifier that predicts [1] for every row. *)
Definition sample_parquet : ParquetDriver.Lib :=
  {| ParquetDriver.sk_model := unit;
     ParquetDriver.cell := nat;
     ParquetDriver.pickle_load := fun _ => Some tt;
     ParquetDriver.predict := fun _ df => Some (replicate (nrows df) 1);
     ParquetDriver.writable := fun _ => true |}.

Definition sample_files : gmap string (ParquetDriver.file_data nat) :=
  {[ "in/heart.csv" := ParquetDriver.CsvFile [("age", [63; 41]); ("chol", [233; 204])];
     "more/heart.csv" := ParquetDriver.CsvFile [("age", [57]); ("chol", [192])];
     "in/scored.csv" := ParquetDriver.CsvFile [("age", [50]); ("prediction", [0])] ]}.

Definition sample_parquet_process : ParquetDriver.process sample_parquet :=
  ParquetDriver.Build_process sample_parquet (Some tt) (Some "/out") sample_files [].

Definition sample_parquet_worker : worker :=
  ParquetWorker sample_parquet sample_parquet_process.

(** A loader whose model returns the batch as the scores, with two labels. *)
Definition sample_tf : TfLoader.Lib :=
  {| TfLoader.keras_model := unit;
     TfLoader.batch := list (list R);
     TfLoader.abspath := fun p => "/mnt/" +:+ p;
     TfLoader.load_model := fun _ => Some tt;
     TfLoader.read_lines := fun _ => Some ["tench"; "goldfish"];
     TfLoader.predict := fun _ data => Some data |}.

Definition sample_classifier : TfLoader.TfClassifier sample_tf :=
  TfLoader.Build_TfClassifier sample_tf tt ["tench"; "goldfish"].

(** A registry that lists the names created so far, newest first. *)
Definition sample_assets : Notebook.Assets :=
  {| Notebook.store := list string;
     Notebook.asset := string;
     Notebook.asset_name := fun a => a;
     Notebook.list_assets := fun st => st;
     Notebook.create_or_update := fun a st => a :: st |}.

(** * Properties *)

(** ** Paths *)

Example basename_nested : basename "data/mnist/7/img_0042.png" = "img_0042.png".
Proof. reflexivity. Qed.

Example basename_trailing_slash : basename "data/mnist/" = "".
Proof. reflexivity. Qed.

Example stem_last_suffix_only : stem "in/heart.2023.csv" = "heart.2023".
Proof. reflexivity. Qed.

Example stem_hidden_file : stem "in/.csv" = ".csv".
Proof. reflexivity. Qed.

Example stem_trailing_slash : stem "in/heart.csv/" = "heart".
Proof. reflexivity. Qed.

Example join_plain : join "/mnt/out" "heart.parquet" = "/mnt/out/heart.parquet".
Proof. reflexivity. Qed.

Example join_after_slash : join "/mnt/out/" "heart.parquet" = "/mnt/out/heart.parquet".
Proof. reflexivity. Qed.

Lemma rfind_lower (c : ascii) (s : string) : (-1 <= rfind c s)%Z.
Proof.
  induction s as [|a s IH]; simpl; [lia|].
  destruct (0 <=? rfind c s)%Z eqn:E; [apply Z.leb_le in E; lia|].
  destruct (Ascii.eqb a c); lia.
Qed.

Lemma rfind_absent (c : ascii) (s : string) :
  contains c s = false -> rfind c s = (-1)%Z.
Proof.
  induction s as [|a s IH]; simpl; [done|].
  intros [Ha Hs]%orb_false_iff. rewrite (IH Hs), Ha. done.
Qed.

Lemma rfind_last_separator (c : ascii) (d n : string) :
  contains c n = false ->
  rfind c (d +:+ String c n) = Z.of_nat (String.length d).
Proof.
  intros Hn. induction d as [|a d IH]; simpl.
  - rewrite (rfind_absent _ _ Hn). simpl. by rewrite Ascii.eqb_refl.
  - rewrite IH. destruct (0 <=? Z.of_nat (String.length d))%Z eqn:E.
    + lia.
    + apply Z.leb_gt in E. lia.
Qed.

Lemma slice_from_app (d s : string) :
  slice_from (String.length d) (d +:+ s) = s.
Proof. induction d as [|a d IH]; simpl; [by destruct s|done]. Qed.

Lemma basename_plain (n : string) : contains slash n = false -> basename n = n.
Proof. intros Hn. unfold basename. rewrite (rfind_absent _ _ Hn). done. Qed.

(** The directory part of a path never reaches the base name. *)
Lemma basename_in_directory (d n : string) :
  contains slash n = false -> basename (d +:+ String slash n) = n.
Proof.
  intros Hn. unfold basename. rewrite (rfind_last_separator _ _ _ Hn).
  replace (Z.to_nat (Z.of_nat (String.length d) + 1)) with (S (String.length d)) by lia.
  change (String slash n) with ("/" +:+ n).
  induction d as [|a d IH]; simpl; [by destruct n|]. apply IH.
Qed.

Lemma contains_app (c : ascii) (x y : string) :
  contains c (x +:+ y) = contains c x || contains c y.
Proof. induction x as [|a x IH]; simpl; [done|]. by rewrite IH, orb_assoc. Qed.

Lemma contains_slice_to (c : ascii) (k : nat) (s : string) :
  contains c s = false -> contains c (slice_to k s) = false.
Proof.
  revert s. induction k as [|k IH]; intros [|a s]; simpl; try done.
  intros [Ha Hs]%orb_false_iff. rewrite Ha. simpl. by apply IH.
Qed.

Lemma split_separator_free (c : ascii) (s : string) :
  Forall (fun x => contains c x = false) (split c s).
Proof.
  induction s as [|a s IH]; simpl.
  - by repeat constructor.
  - destruct (Ascii.eqb a c) eqn:E.
    + by constructor.
    + destruct (split c s) as [|h t]; inversion IH; subst; constructor; simpl;
        rewrite ?E; auto.
Qed.

Lemma name_slash_free (p : string) : contains slash (name p) = false.
Proof.
  unfold name, parts.
  assert (Forall (fun x => contains slash x = false)
            (filter (fun x => is_part x = true) (split slash p))) as H.
  { apply Forall_forall. intros x [_ Hx]%list_elem_of_filter.
    pose proof (split_separator_free slash p) as Hall.
    rewrite Forall_forall in Hall. by apply Hall. }
  induction H as [|x l Hx Hl IH]; simpl; [done|].
  destruct l; [done|apply IH].
Qed.

Lemma stem_slash_free (p : string) : contains slash (stem p) = false.
Proof.
  unfold stem. pose proof (name_slash_free p).
  case_match; [by apply contains_slice_to|done].
Qed.

Lemma endswith_inv (c : ascii) (a : string) :
  endswith c a = true -> exists a', a = a' +:+ String c EmptyString.
Proof.
  induction a as [|x a IH]; simpl; [done|].
  destruct a as [|y a].
  - intros ->%Ascii.eqb_eq. by exists EmptyString.
  - intros [a' Ha']%IH. exists (String x a'). simpl. by rewrite Ha'.
Qed.

Lemma app_assoc_str (x y z : string) : (x +:+ y) +:+ z = x +:+ (y +:+ z).
Proof.
  induction x as [|a x IH]; [done|].
  change (String a ((x +:+ y) +:+ z) = String a (x +:+ (y +:+ z))).
  by rewrite IH.
Qed.

(** A file name without a slash, joined to a directory, is the base name of
    the result: the file lands in that directory itself. *)
Lemma basename_join (a b : string) :
  contains slash b = false -> basename (join a b) = b.
Proof.
  intros Hb. unfold join.
  assert (startswith slash b = false) as ->.
  { destruct b as [|x b]; simpl in *; [done|]. by apply orb_false_iff in Hb as [? _]. }
  destruct (is_empty a) eqn:Ea; simpl.
  - destruct a; [|done]. simpl. by apply basename_plain.
  - destruct (endswith slash a) eqn:E.
    + apply endswith_inv in E as [a' Ha']. rewrite Ha', app_assoc_str.
      by apply basename_in_directory.
    + by apply basename_in_directory.
Qed.

(** ** Loops of read-only bodies *)

Lemma collect_Ok {B} (rs : list (result B)) (bs : list B) :
  collect rs = Ok bs <-> rs = Ok <$> bs.
Proof.
  revert bs. induction rs as [|[b|e] rs IH]; intros bs; simpl.
  - split; [intros [= <-]; done|]. by destruct bs.
  - destruct (collect rs) as [bs'|e'] eqn:E.
    + split.
      * intros [= <-]. simpl. f_equal. by apply IH.
      * destruct bs as [|b0 bs0]; [done|]. intros [= -> H]. f_equal. f_equal.
        apply IH in H. congruence.
    + split; [done|]. destruct bs as [|b0 bs0]; [done|]. intros [= -> H].
      apply IH in H. congruence.
  - split; [done|]. by destruct bs.
Qed.

Lemma collect_length {B} (rs : list (result B)) (bs : list B) :
  collect rs = Ok bs -> length bs = length rs.
Proof. intros ->%collect_Ok. by rewrite length_fmap. Qed.

Lemma collect_raises {B} (rs : list (result B)) :
  Exists raises rs -> raises (collect rs).
Proof.
  induction rs as [|[b|e] rs IH]; intros H; inversion H as [? ? [e' He']|]; subst; simpl.
  - done.
  - destruct (IH ltac:(done)) as [e' ->]. by exists e'.
  - by exists e.
  - by exists e.
Qed.

Lemma for_append_read_only {S A B} (f : A -> M S B) (xs : list A)
    (acc : list B) (s : S) :
  (forall x, read_only (f x)) ->
  for_append xs f acc s =
    (match collect ((fun x => (f x s).1) <$> xs) with
     | Ok bs => Ok (acc ++ bs)
     | Raise e => Raise e
     end, s).
Proof.
  intros Hro. revert acc. induction xs as [|x xs IH]; intros acc; simpl.
  - unfold ret. by rewrite app_nil_r.
  - unfold bind at 1. specialize (Hro x s).
    destruct (f x s) as [[b|e] s'] eqn:E; simpl in *; subst s'; [|done].
    rewrite IH. destruct (collect _); [|done]. by rewrite <- app_assoc.
Qed.

(** ** Binary32 comparisons and the max of a row *)

Section Float32.

Lemma SFltb_trans (x y z : float32) :
  SFltb x y = true -> SFltb y z = true -> SFltb x z = true.
Proof.
  unfold SFltb, SFcompare.
  destruct x as [sx|sx| |sx mx ex], y as [sy|sy| |sy my ey], z as [sz|sz| |sz mz ez];
    try done;
    repeat match goal with s : bool |- _ => destruct s end; try done.
  all: rewrite ?Pos.compare_cont_spec; simpl.
  all: destruct (Z.compare_spec ex ey), (Z.compare_spec ey ez), (Z.compare_spec ex ez);
    try done; try lia; subst.
  all: destruct (Pos.compare_spec mx my), (Pos.compare_spec my mz), (Pos.compare_spec mx mz);
    simpl; try done; try lia.
Qed.

Lemma SFleb_ltb_trans (x y z : float32) :
  SFleb x y = true -> SFltb y z = true -> SFltb x z = true.
Proof.
  unfold SFleb, SFltb, SFcompare.
  destruct x as [sx|sx| |sx mx ex], y as [sy|sy| |sy my ey], z as [sz|sz| |sz mz ez];
    try done;
    repeat match goal with s : bool |- _ => destruct s end; try done.
  all: rewrite ?Pos.compare_cont_spec; simpl.
  all: destruct (Z.compare_spec ex ey), (Z.compare_spec ey ez), (Z.compare_spec ex ez);
    try done; try lia; subst.
  all: destruct (Pos.compare_spec mx my), (Pos.compare_spec my mz), (Pos.compare_spec mx mz);
    simpl; try done; try lia.
Qed.

(** Two numbers that are not NaN compare one way or the other. *)
Lemma SFleb_total (x y : float32) :
  F32.is_nan x = false -> F32.is_nan y = false -> SFleb x y = negb (SFltb y x).
Proof.
  unfold SFleb, SFltb, SFcompare.
  destruct x as [sx|sx| |sx mx ex], y as [sy|sy| |sy my ey]; try done;
    repeat match goal with s : bool |- _ => destruct s end; try done.
  all: intros _ _; rewrite ?Pos.compare_cont_spec; simpl.
  all: destruct (Z.compare_spec ex ey), (Z.compare_spec ey ex); try done; try lia; subst.
  all: destruct (Pos.compare_spec mx my), (Pos.compare_spec my mx); simpl; try done; try lia.
Qed.

Lemma SFleb_refl (x : float32) : F32.is_nan x = false -> SFleb x x = true.
Proof.
  intros H. rewrite SFleb_total by done.
  unfold SFltb, SFcompare. destruct x as [[]|[]| |[] m e]; try done.
  all: by rewrite ?Z.compare_refl, ?Pos.compare_cont_spec, ?Pos.compare_refl.
Qed.

Lemma SFltb_leb (x y : float32) : SFltb x y = true -> SFleb x y = true.
Proof. unfold SFltb, SFleb. by destruct (SFcompare x y) as [[]|]. Qed.

Lemma SFleb_of_not_ltb (x y : float32) :
  F32.is_nan x = false -> F32.is_nan y = false -> SFltb x y = false -> SFleb y x = true.
Proof. intros Hx Hy H. rewrite SFleb_total by done. by rewrite H. Qed.

(** NaN compares with nothing. *)
Lemma SFleb_not_nan (x y : float32) :
  SFleb x y = true -> F32.is_nan x = false /\ F32.is_nan y = false.
Proof. unfold SFleb, SFcompare. destruct x, y; done. Qed.

Lemma in_unit_not_nan (x : float32) : F32.in_unit x = true -> F32.is_nan x = false.
Proof. unfold F32.in_unit. intros [H _]%andb_prop. by apply SFleb_not_nan in H as [_ H]. Qed.

Lemma finite_not_nan (x : float32) : F32.is_finite x = true -> F32.is_nan x = false.
Proof. by destruct x. Qed.

Lemma F32_max_with_index_nonempty (l : list float32) :
  l <> [] -> exists v j, F32.max_with_index l = Some (v, j).
Proof.
  destruct l as [|x l]; [done|]. intros _. simpl.
  destruct (F32.max_from x 0 1 l) as [v j]. by exists v, j.
Qed.

Lemma F32_max_with_index_Some (l : list float32) (v : float32) (j : nat) :
  F32.max_with_index l = Some (v, j) -> l <> [].
Proof. by destruct l. Qed.

Lemma max_from_top (l : list float32) :
  forall (m : float32) (i k : nat) (v : float32) (j : nat),
  F32.is_nan m = false ->
  Forall (fun x => F32.is_nan x = false) l ->
  F32.max_from m i k l = (v, j) ->
  (v = m /\ j = i /\ forall x, x ∈ l -> SFleb x m = true) \/
  (exists n, l !! n = Some v /\ j = k + n /\ SFltb m v = true /\
             (forall x, x ∈ l -> SFleb x v = true) /\
             (forall n' y, n' < n -> l !! n' = Some y -> SFltb y v = true)).
Proof.
  induction l as [|x l IH]; intros m i k v j Hm Hl; simpl.
  - intros [= <- <-]. left. split; [done|]. split; [done|].
    intros x Hx. by apply elem_of_nil in Hx.
  - apply Forall_cons in Hl as [Hx Hl]. rewrite Hx, andb_false_l, orb_false_r.
    destruct (SFltb m x) eqn:Hlt; intros Hmax.
    + right. apply IH in Hmax as [(-> & -> & Hall)|(n & Hn & -> & Hxv & Hall & Hfirst)];
        [| |done..].
      * exists 0. split; [done|]. split; [lia|]. split; [done|]. split.
        -- intros y [->|Hy]%elem_of_cons; [by apply SFleb_refl|by apply Hall].
        -- intros n' y Hn'. lia.
      * exists (S n). split; [done|]. split; [lia|].
        split; [by eapply SFltb_trans|]. split.
        -- intros y [->|Hy]%elem_of_cons; [by apply SFltb_leb|by apply Hall].
        -- intros [|n'] y Hlt' Hy; simpl in Hy.
           ++ by injection Hy as <-.
           ++ eapply Hfirst; [|done]. lia.
    + pose proof (SFleb_of_not_ltb m x Hm Hx Hlt) as Hxm.
      apply IH in Hmax as [(-> & -> & Hall)|(n & Hn & -> & Hmv & Hall & Hfirst)];
        [| |done..].
      * left. split; [done|]. split; [done|].
        intros y [->|Hy]%elem_of_cons; [done|by apply Hall].
      * right. exists (S n). split; [done|]. split; [lia|]. split; [done|].
        pose proof (SFleb_ltb_trans _ _ _ Hxm Hmv) as Hxv. split.
        -- intros y [->|Hy]%elem_of_cons; [by apply SFltb_leb|by apply Hall].
        -- intros [|n'] y Hlt' Hy; simpl in Hy.
           ++ by injection Hy as <-.
           ++ eapply Hfirst; [|done]. lia.
Qed.

(** On a row without NaN, [max] gives the largest entry and the first index
    where it stands. *)
Lemma max_with_index_top (l : list float32) (v : float32) (j : nat) :
  Forall (fun x => F32.is_nan x = false) l ->
  F32.max_with_index l = Some (v, j) -> first_top l v j.
Proof.
  destruct l as [|m l]; [done|]. intros [Hm Hl]%Forall_cons [= Hmax].
  apply max_from_top in Hmax as [(-> & -> & Hall)|(n & Hn & -> & Hmv & Hall & Hfirst)];
    [| |done..].
  - split; [done|]. split; [|intros; lia].
    intros y [->|Hy]%elem_of_cons; [by apply SFleb_refl|by apply Hall].
  - split; [done|]. split.
    + intros y [->|Hy]%elem_of_cons; [by apply SFltb_leb|by apply Hall].
    + intros [|i] y Hi Hy; simpl in *.
      * by injection Hy as <-.
      * eapply Hfirst; [|done]. lia.
Qed.

End Float32.

(** ** Max over a row of real numbers *)

Section Scores.
Local Open Scope R_scope.

Lemma max_from_spec (l : list R) (m : R) (i k : nat) (v : R) (j : nat) :
  max_from m i k l = (v, j) ->
  (v = m /\ j = i) \/ (exists n, l !! n = Some v /\ j = (k + n)%nat).
Proof.
  revert m i k. induction l as [|x l IH]; intros m i k; simpl.
  - intros [= <- <-]. by left.
  - destruct (Rlt_dec m x) as [Hlt|Hge]; intros [[-> ->]|(n & Hn & ->)]%IH.
    + right. exists 0%nat. split; [done|lia].
    + right. exists (S n). split; [done|lia].
    + by left.
    + right. exists (S n). split; [done|lia].
Qed.

Lemma max_from_upper (l : list R) (m : R) (i k : nat) (v : R) (j : nat) :
  max_from m i k l = (v, j) -> m <= v /\ forall x, x ∈ l -> x <= v.
Proof.
  revert m i k. induction l as [|x l IH]; intros m i k; simpl.
  - intros [= <- <-]. split; [lra|]. intros x Hx. by apply elem_of_nil in Hx.
  - destruct (Rlt_dec m x) as [Hlt|Hge]; intros [Hm Hall]%IH; split; try lra.
    + intros y [->|Hy]%elem_of_cons; [lra|by apply Hall].
    + intros y [->|Hy]%elem_of_cons; [lra|by apply Hall].
Qed.

(** [max] gives an entry of the row and the index where it stands. *)
Lemma max_with_index_lookup (l : list R) (v : R) (j : nat) :
  max_with_index l = Some (v, j) -> l !! j = Some v.
Proof.
  destruct l as [|x l]; simpl; [done|].
  intros [= [[-> ->]|(n & Hn & ->)]%max_from_spec]; done.
Qed.

Lemma max_with_index_upper (l : list R) (v : R) (j : nat) :
  max_with_index l = Some (v, j) -> forall x, x ∈ l -> x <= v.
Proof.
  destruct l as [|x l]; simpl; [done|].
  intros [= [Hx Hall]%max_from_upper] y [->|Hy]%elem_of_cons; [done|by apply Hall].
Qed.

Lemma max_with_index_nonempty (l : list R) :
  l <> [] -> exists v j, max_with_index l = Some (v, j).
Proof.
  destruct l as [|x l]; [done|]. intros _. simpl.
  destruct (max_from x 0 1 l) as [v j]. by exists v, j.
Qed.

End Scores.

(** ** The image drivers *)

Ltac monad :=
  unfold getenv, last_item, lift, try_except, bind, get, modify, ret, raise in *.

Section Torch.
Context (lib : TorchDriver.Lib).
Import TorchDriver.

Lemma torch_score_read_only (p : string) : read_only (score lib p).
Proof.
  intros g. unfold score, get_device, get_model. monad.
  destruct (read_image lib p); simpl; [|done].
  destruct (device lib g); simpl; [|done].
  destruct (to lib _ _); simpl; [|done].
  destruct (model lib g); simpl; [|done].
  destruct (forward lib _ _); simpl; [|done].
  by destruct (F32.max_with_index _).
Qed.

Lemma torch_score_ok (g : globals lib) (p : string) (logits : list float32)
    (v : float32) (j : nat) :
  torch_scores lib g p logits ->
  F32.max_with_index (softmax lib logits) = Some (v, j) ->
  score lib p g = (Ok {| file := basename p; class := j; probability := v |}, g).
Proof.
  intros [m d img input Hm Hd Himg Hto Hfw] Hmax.
  unfold score, get_device, get_model. monad.
  rewrite Himg. simpl. rewrite Hd. simpl. rewrite Hto. simpl.
  rewrite Hm. simpl. rewrite Hfw. simpl. by rewrite Hmax.
Qed.

Lemma torch_score_inv (g : globals lib) (p : string) (r : prediction) :
  (score lib p g).1 = Ok r ->
  exists logits, torch_scores lib g p logits /\
    F32.max_with_index (softmax lib logits) = Some (probability r, class r) /\
    file r = basename p.
Proof.
  unfold score, get_device, get_model. monad.
  destruct (read_image lib p) as [img|] eqn:Himg; simpl; [|done].
  destruct (device lib g) as [d|] eqn:Hd; simpl; [|done].
  destruct (to lib _ _) as [input|] eqn:Hto; simpl; [|done].
  destruct (model lib g) as [m|] eqn:Hm; simpl; [|done].
  destruct (forward lib _ _) as [logits|] eqn:Hfw; simpl; [|done].
  destruct (F32.max_with_index _) as [[v j]|] eqn:Hmax; simpl; [|done].
  intros [= <-]. exists logits. simpl. split; [|done]. by econstructor.
Qed.

(** The loaded model gives one row of scores for an image, if any. *)
Lemma torch_scores_unique (g : globals lib) (p : string) (logits logits' : list float32) :
  torch_scores lib g p logits -> torch_scores lib g p logits' -> logits = logits'.
Proof. intros [] []. congruence. Qed.

Lemma torch_run_collect (mb : list string) (g : globals lib) :
  run lib mb g = (collect ((fun p => (score lib p g).1) <$> mb), g).
Proof.
  unfold run. rewrite for_append_read_only by apply torch_score_read_only.
  by destruct (collect _).
Qed.

End Torch.

Section Keras.
Context (lib : KerasDriver.Lib).
Import KerasDriver.

Lemma keras_score_read_only (p : string) : read_only (score lib p).
Proof.
  intros g. unfold score, get_model. monad.
  destruct (Image_open lib p); simpl; [|done].
  destruct (model lib g); simpl; [|done].
  destruct (predict lib _ _); simpl; [|done].
  destruct (F32.reduce_max _); simpl; [|done].
  by destruct (F32.argmax _).
Qed.

Lemma keras_score_ok (g : globals lib) (p : string) (logits : list float32)
    (v : float32) (j : nat) :
  keras_scores lib g p logits ->
  F32.reduce_max (softmax lib logits) = Some v ->
  F32.argmax logits = Some j ->
  score lib p g = (Ok {| file := basename p; class := j; probability := v |}, g).
Proof.
  intros [m img Hm Himg Hpred] Hmax Harg.
  unfold score, get_model. monad.
  rewrite Himg. simpl. rewrite Hm. simpl. rewrite Hpred. simpl.
  rewrite Hmax. simpl. by rewrite Harg.
Qed.

Lemma keras_score_inv (g : globals lib) (p : string) (r : prediction) :
  (score lib p g).1 = Ok r ->
  exists logits, keras_scores lib g p logits /\
    F32.reduce_max (softmax lib logits) = Some (probability r) /\
    F32.argmax logits = Some (class r) /\
    file r = basename p.
Proof.
  unfold score, get_model. monad.
  destruct (Image_open lib p) as [img|] eqn:Himg; simpl; [|done].
  destruct (model lib g) as [m|] eqn:Hm; simpl; [|done].
  destruct (predict lib _ _) as [logits|] eqn:Hpred; simpl; [|done].
  destruct (F32.reduce_max _) as [v|] eqn:Hmax; simpl; [|done].
  destruct (F32.argmax _) as [j|] eqn:Harg; simpl; [|done].
  intros [= <-]. exists logits. simpl. split; [|done]. by econstructor.
Qed.

Lemma keras_scores_unique (g : globals lib) (p : string) (logits logits' : list float32) :
  keras_scores lib g p logits -> keras_scores lib g p logits' -> logits = logits'.
Proof. intros [] []. congruence. Qed.

Lemma keras_run_collect (mb : list string) (g : globals lib) :
  run lib mb g = (collect ((fun p => (score lib p g).1) <$> mb), g).
Proof.
  unfold run. rewrite for_append_read_only by apply keras_score_read_only.
  by destruct (collect _).
Qed.

End Keras.

(** ** The summariser *)

Lemma collect_concat {A B} (f : A -> result B) (xss : list (list A)) (ys : list B) :
  collect (f <$> concat xss) = Ok ys ->
  exists yss, ys = concat yss /\
              Forall2 (fun xs ys' => collect (f <$> xs) = Ok ys') xss yss.
Proof.
  revert ys. induction xss as [|xs xss IH]; intros ys; simpl.
  - intros [= <-]. by exists [].
  - rewrite fmap_app. intros H. apply collect_Ok in H.
    symmetry in H. apply fmap_app_inv in H as (ys1 & ys2 & H1 & H2 & ->).
    apply collect_Ok in H1, H2.
    destruct (IH _ H2) as (yss & -> & Hall).
    exists (ys1 :: yss). split; [done|]. by constructor.
Qed.

Lemma collect_Forall2 {A B} (f : A -> result B) (P : A -> B -> Prop) (xs : list A) :
  Forall (fun x => exists b, f x = Ok b /\ P x b) xs ->
  exists bs, collect (f <$> xs) = Ok bs /\ Forall2 P xs bs.
Proof.
  induction 1 as [|x xs (b & Hb & HP) _ (bs & Hbs & Hall)]; csimpl.
  - by exists [].
  - exists (b :: bs). rewrite Hb, Hbs. split; [done|]. by constructor.
Qed.

Lemma collect_inv_Forall2 {A B} (f : A -> result B) (xs : list A) (bs : list B) :
  collect (f <$> xs) = Ok bs -> Forall2 (fun x b => f x = Ok b) xs bs.
Proof.
  intros H%collect_Ok. revert bs H. induction xs as [|x xs IH]; intros [|b bs]; simpl;
    try done.
  intros [= Hx Hxs]. constructor; [done|by apply IH].
Qed.

Section Summarizer.
Context (lib : SummarizationDriver.Lib).
Import SummarizationDriver.

Lemma summarize_read_only (text : string) : read_only (summarize lib text).
Proof.
  intros s. unfold summarize, get_tokenizer, get_device, get_model. monad.
  destruct (tokenizer lib s) as [t|] eqn:Ht; simpl; [|done].
  destruct (batch_encode_plus lib _ _); simpl; [|done].
  destruct (device lib s); simpl; [|done].
  destruct (to lib _ _); simpl; [|done].
  destruct (model lib s); simpl; [|done].
  destruct (generate lib _ _); simpl; [|done].
  rewrite Ht. simpl. by case_match.
Qed.

Lemma summarize_ok (s : process lib) (text summary : string) :
  summarizes lib s text summary -> summarize lib text s = (Ok summary, s).
Proof.
  intros [t inputs d input_ids m summary_ids Ht Henc Hd Hto Hm Hgen Hhead].
  unfold summarize, get_tokenizer, get_device, get_model. monad.
  repeat (rewrite ?Ht, ?Henc, ?Hd, ?Hto, ?Hm, ?Hgen, ?Hhead; simpl). done.
Qed.

Lemma summarize_inv (s : process lib) (text summary : string) :
  (summarize lib text s).1 = Ok summary -> summarizes lib s text summary.
Proof.
  unfold summarize, get_tokenizer, get_device, get_model. monad.
  destruct (tokenizer lib s) as [t|] eqn:Ht; simpl; [|done].
  destruct (batch_encode_plus lib _ _) as [inputs|] eqn:Henc; simpl; [|done].
  destruct (device lib s) as [d|] eqn:Hd; simpl; [|done].
  destruct (to lib _ _) as [input_ids|] eqn:Hto; simpl; [|done].
  destruct (model lib s) as [m|] eqn:Hm; simpl; [|done].
  destruct (generate lib _ _) as [summary_ids|] eqn:Hgen; simpl; [|done].
  rewrite Ht. simpl.
  destruct (head (batch_decode lib t summary_ids)) as [y|] eqn:Hhead; simpl; [|done].
  intros [= <-]. by econstructor.
Qed.

(** A row has one summary. *)
Lemma summarizes_unique (s : process lib) (text y y' : string) :
  summarizes lib s text y -> summarizes lib s text y' -> y = y'.
Proof.
  intros H H'. apply summarize_ok in H, H'. congruence.
Qed.

(** A row is summarised from the globals alone: neither the clock nor the
    mlflow run of the process has a part in it. *)
Lemma summarize_globals (s s' : process lib) (text : string) :
  summarizer_globals s = summarizer_globals s' ->
  (summarize lib text s).1 = (summarize lib text s').1.
Proof.
  destruct s as [m t d ps ms c], s' as [m' t' d' ps' ms' c'].
  unfold summarizer_globals. simpl. intros [= <- <- <-].
  unfold summarize, get_tokenizer, get_device, get_model. monad. simpl.
  destruct t as [t|]; simpl; [|done].
  destruct (batch_encode_plus lib _ _); simpl; [|done].
  destruct d as [d|]; simpl; [|done].
  destruct (to lib _ _); simpl; [|done].
  destruct m as [m|]; simpl; [|done].
  destruct (generate lib _ _); simpl; [|done].
  by case_match.
Qed.

Lemma summarizes_globals (s s' : process lib) (text y : string) :
  summarizer_globals s = summarizer_globals s' ->
  summarizes lib s text y -> summarizes lib s' text y.
Proof.
  intros Hg H. apply summarize_inv. rewrite <- (summarize_globals s s' text Hg).
  by rewrite (summarize_ok s text y H).
Qed.

(** The summaries of the rows, row by row. *)
Lemma summaries_collect (s : process lib) (texts : list string) :
  Forall (fun text => exists y, summarizes lib s text y) texts ->
  exists ys, collect ((fun text => (summarize lib text s).1) <$> texts) = Ok ys /\
             Forall2 (summarizes lib s) texts ys.
Proof.
  intros H. apply collect_Forall2. eapply Forall_impl; [exact H|].
  intros text (y & Hy). exists y. by rewrite (summarize_ok s text y Hy).
Qed.

Lemma summaries_inv (s : process lib) (texts ys : list string) :
  collect ((fun text => (summarize lib text s).1) <$> texts) = Ok ys ->
  Forall2 (summarizes lib s) texts ys.
Proof.
  intros H%collect_inv_Forall2. eapply Forall2_impl; [exact H|].
  intros text y Hy. by apply summarize_inv.
Qed.

Lemma summaries_Forall2 (s : process lib) (texts ys : list string) :
  Forall2 (summarizes lib s) texts ys ->
  collect ((fun text => (summarize lib text s).1) <$> texts) = Ok ys.
Proof.
  induction 1 as [|text y texts ys Hy _ IH]; csimpl; [done|].
  by rewrite (summarize_ok s text y Hy), IH.
Qed.

End Summarizer.

Section SummarizerRun.
Context (lib : SummarizationDriver.Lib).
Import SummarizationDriver.

Lemma read_clock_globals (s : process lib) :
  exists t s', read_clock lib s = (Ok t, s') /\
               summarizer_globals s' = summarizer_globals s.
Proof. unfold read_clock. monad. simpl. by eexists _, _. Qed.

Lemma loop_spec (start : time lib) (texts : list string) :
  forall (idx : nat) (acc : list string) (rps : option (metric lib)) (s : process lib),
  summarizer_globals (loop lib start idx texts acc rps s).2 = summarizer_globals s /\
  match collect ((fun text => (summarize lib text s).1) <$> texts) with
  | Ok ys =>
      exists rps', (loop lib start idx texts acc rps s).1 = Ok (acc ++ ys, rps') /\
                   (texts = [] -> rps' = rps) /\ (texts <> [] -> is_Some rps')
  | Raise e => (loop lib start idx texts acc rps s).1 = Raise e
  end.
Proof.
  induction texts as [|text texts IH]; intros idx acc rps s; simpl.
  - split; [done|]. exists rps. by rewrite app_nil_r.
  - unfold bind.
    pose proof (summarize_read_only lib text s) as Hro.
    destruct (summarize lib text s) as [[y|e] s0] eqn:Hy; simpl in Hro; subst s0;
      cbv beta iota; [|done].
    destruct (read_clock_globals s) as (now & s1 & -> & Hg).
    specialize (IH (S idx) (acc ++ [y])
                  (Some (rows_per_second lib idx start now)) s1).
    destruct IH as [IHg IH]. split; [congruence|].
    rewrite (list_fmap_ext _ (fun text => (summarize lib text s).1) texts) in IH
      by (intros; by apply summarize_globals).
    destruct (collect _) as [ys|e]; [|done].
    destruct IH as (rps' & -> & Hnil & Hsome). exists rps'.
    rewrite <- app_assoc. split; [done|]. split; [done|].
    intros _. destruct texts; [|by apply Hsome].
    rewrite Hnil by done. by eexists.
Qed.

End SummarizerRun.

Section SummarizerBatch.
Context (lib : SummarizationDriver.Lib).
Import SummarizationDriver.

(** One call of [run], step by step: the data set is built from the whole
    mini-batch, its rows of text are summarised one after the other, and the
    rate is logged; the local [rps] is bound only if there was a row. *)
Lemma summarizer_run_spec (mb : list string) (s : process lib) :
  summarizer_globals (run lib mb s).2 = summarizer_globals s /\
  (run lib mb s).1 =
    match load_dataset lib mb with
    | None => Raise DatasetError
    | Some ds =>
        match get_column "text" ds with
        | None => Raise (KeyError "text")
        | Some texts =>
            match collect ((fun text => (summarize lib text s).1) <$> texts) with
            | Raise e => Raise e
            | Ok ys =>
                match texts with
                | [] => Raise (UnboundLocalError "rps")
                | _ :: _ => Ok ys
                end
            end
        end
    end.
Proof.
  unfold run, bind, lift, ret, raise.
  destruct (load_dataset lib mb) as [ds|]; [|done]. cbv beta iota.
  destruct (read_clock_globals lib s) as (start & s1 & -> & Hg). cbv beta iota.
  destruct (get_column "text" ds) as [texts|]; [|done]. cbv beta iota.
  destruct (loop_spec lib start texts 0 [] None s1) as [Hlg Hl].
  rewrite (list_fmap_ext _ (fun text => (summarize lib text s).1) texts) in Hl
    by (intros; by apply summarize_globals).
  destruct (loop lib start 0 texts [] None s1) as [out s3]. simpl in Hlg, Hl.
  destruct (collect _) as [ys|e]; [|subst; simpl; split; [congruence|done]].
  destruct Hl as (rps' & -> & Hnil & Hsome). simpl.
  destruct texts as [|text texts].
  - rewrite Hnil by done. simpl. split; [congruence|done].
  - destruct Hsome as [rps ->]; [done|]. simpl. unfold log_metric. monad. simpl.
    split; [|done]. unfold summarizer_globals in *. simpl. congruence.
Qed.

Lemma summarizer_run_ok (mb : list string) (s : process lib) (texts ys : list string) :
  texts_of lib mb = Some texts ->
  collect ((fun text => (summarize lib text s).1) <$> texts) = Ok ys ->
  texts <> [] ->
  (run lib mb s).1 = Ok ys.
Proof.
  intros Ht Hys Hne. destruct (summarizer_run_spec mb s) as [_ ->].
  unfold texts_of in Ht. destruct (load_dataset lib mb) as [ds|]; [|done].
  simpl in Ht. rewrite Ht, Hys. by destruct texts.
Qed.

Lemma summarizer_run_inv (mb : list string) (s : process lib) (ys : list string) :
  (run lib mb s).1 = Ok ys ->
  exists texts, texts_of lib mb = Some texts /\
    collect ((fun text => (summarize lib text s).1) <$> texts) = Ok ys /\
    texts <> [].
Proof.
  destruct (summarizer_run_spec mb s) as [_ ->]. unfold texts_of.
  destruct (load_dataset lib mb) as [ds|]; [|done]. simpl.
  destruct (get_column "text" ds) as [texts|]; [|done].
  destruct (collect _) as [ys'|e] eqn:Hc; [|done].
  destruct texts as [|text texts]; [done|]. intros [= <-]. by exists (text :: texts).
Qed.

(** A mini-batch without a row of text never ends well. *)
Lemma summarizer_run_no_rows (mb : list string) (s : process lib) :
  texts_of lib mb = Some [] ->
  (run lib mb s).1 = Raise (UnboundLocalError "rps").
Proof.
  intros Ht. destruct (summarizer_run_spec mb s) as [_ ->].
  unfold texts_of in Ht. destruct (load_dataset lib mb) as [ds|]; [|done].
  simpl in Ht. by rewrite Ht.
Qed.

End SummarizerBatch.

(** ** Data frames *)

Section FrameFacts.
Context {C : Type}.
Implicit Types (df : frame C) (c : string) (values : list C).

Lemma get_put_column c values df : get_column c (put_column c values df) = Some values.
Proof.
  induction df as [|[c' col] df IH]; simpl.
  - by rewrite String.eqb_refl.
  - destruct (String.eqb c' c) eqn:E; simpl; by rewrite E.
Qed.

Lemma get_put_column_ne c c0 values df :
  c0 <> c -> get_column c0 (put_column c values df) = get_column c0 df.
Proof.
  intros Hne. induction df as [|[c' col] df IH]; simpl.
  - apply String.eqb_neq in Hne. by rewrite String.eqb_sym, Hne.
  - destruct (String.eqb c' c) eqn:E; simpl.
    + apply String.eqb_eq in E as ->.
      assert (String.eqb c c0 = false) as -> by (apply String.eqb_neq; congruence).
      done.
    + by rewrite IH.
Qed.

(** A new name adds one column at the end ... *)
Lemma column_names_put_new c values df :
  c ∉ column_names df ->
  column_names (put_column c values df) = column_names df ++ [c].
Proof.
  unfold column_names. induction df as [|[c' col] df IH]; simpl; [done|].
  intros [Hne Hnin]%not_elem_of_cons.
  assert (String.eqb c' c = false) as -> by (apply String.eqb_neq; congruence).
  simpl. f_equal. by apply IH.
Qed.

(** ... a name already there adds none. *)
Lemma column_names_put_old c values df :
  c ∈ column_names df ->
  column_names (put_column c values df) = column_names df.
Proof.
  unfold column_names. induction df as [|[c' col] df IH]; simpl.
  - by intros ?%elem_of_nil.
  - destruct (String.eqb c' c) eqn:E; simpl; [done|].
    intros [->|Hin]%elem_of_cons.
    + by rewrite String.eqb_refl in E.
    + f_equal. by apply IH.
Qed.

Lemma nrows_put_column c values df :
  length values = nrows df -> nrows (put_column c values df) = nrows df.
Proof.
  destruct df as [|[c' col] df]; simpl; [done|].
  by destruct (String.eqb c' c).
Qed.

Lemma setitem_Some c values df :
  length values = nrows df -> setitem c values df = Some (put_column c values df).
Proof. intros H. unfold setitem. by rewrite decide_True. Qed.

End FrameFacts.

(** ** The parquet driver *)

Section Parquet.
Context (lib : ParquetDriver.Lib).
Import ParquetDriver.

Lemma parquet_score_ok (s : process lib) (p : string) (df : frame (cell lib))
    (pred : list (cell lib)) (out : string) :
  parquet_scores lib s p df pred out ->
  score lib p s = (Ok tt, wrote s (output_file out p) (scored pred df)).
Proof.
  intros [m Hfs Hm Hpred Hlen Hout Hw].
  unfold score, pd_read_csv, get_model, get_output_path, to_parquet. monad.
  rewrite Hfs. simpl. rewrite Hm. simpl. rewrite Hpred. simpl.
  rewrite (setitem_Some _ _ _ Hlen). simpl. rewrite Hout. simpl. by rewrite Hw.
Qed.

Lemma parquet_score_cases (s : process lib) (p : string) :
  (exists df pred out, parquet_scores lib s p df pred out) \/
  (exists e, score lib p s = (Raise e, s) /\
             ~ exists df pred out, parquet_scores lib s p df pred out).
Proof.
  unfold score, pd_read_csv, get_model, get_output_path, to_parquet. monad.
  destruct (fs lib s !! p) as [[df|df]|] eqn:Hfs; simpl;
    [|right; eexists; split; [done|]; intros (?&?&?&[]); congruence..].
  destruct (model lib s) as [m|] eqn:Hm; simpl;
    [|right; eexists; split; [done|]; intros (?&?&?&[]); congruence].
  destruct (predict lib m df) as [pred|] eqn:Hpred; simpl;
    [|right; eexists; split; [done|]; intros (?&?&?&[]); congruence].
  unfold setitem. destruct (decide (length pred = nrows df)) as [Hlen|Hlen]; simpl;
    [|right; eexists; split; [done|]; intros (?&?&?&[]); congruence].
  destruct (output_path lib s) as [out|] eqn:Hout; simpl;
    [|right; eexists; split; [done|]; intros (?&?&?&[]); congruence].
  destruct (writable lib (output_file out p)) eqn:Hw; simpl;
    [|right; eexists; split; [done|]; intros (?&?&?&[]); congruence].
  left. exists df, pred, out. by econstructor.
Qed.

Lemma later_refl (s : process lib) : later s s.
Proof. by split. Qed.

Lemma later_trans (s1 s2 s3 : process lib) : later s1 s2 -> later s2 s3 -> later s1 s3.
Proof. intros [Hg1 H1] [Hg2 H2]. split; [congruence|eauto]. Qed.

Lemma later_wrote (s : process lib) (path : string) (df : frame (cell lib)) :
  later s (wrote s path df).
Proof.
  split; [done|]. intros p df'. simpl.
  destruct (decide (path = p)) as [->|Hne].
  - by rewrite lookup_insert_eq.
  - by rewrite lookup_insert_ne.
Qed.

Lemma later_score (s : process lib) (p : string) : later s (score lib p s).2.
Proof.
  destruct (parquet_score_cases s p) as [(df & pred & out & H)|(e & -> & _)].
  - rewrite (parquet_score_ok _ _ _ _ _ H). apply later_wrote.
  - apply later_refl.
Qed.

Lemma parquet_scores_later (s s' : process lib) (p : string) (df : frame (cell lib))
    (pred : list (cell lib)) (out : string) :
  later s s' -> parquet_scores lib s' p df pred out -> parquet_scores lib s p df pred out.
Proof.
  intros [[= Hm Ho] Hfs] [m H1 H2 H3 H4 H5 H6].
  econstructor; eauto; congruence.
Qed.

Lemma parquet_scores_wrote (s : process lib) (path p : string)
    (df' df : frame (cell lib)) (pred : list (cell lib)) (out : string) :
  path <> p ->
  parquet_scores lib s p df pred out ->
  parquet_scores lib (wrote s path df') p df pred out.
Proof.
  intros Hne [m H1 H2 H3 H4 H5 H6]. econstructor; eauto.
  simpl. by rewrite lookup_insert_ne.
Qed.

End Parquet.

Section ParquetBatch.
Context (lib : ParquetDriver.Lib).
Import ParquetDriver.

Lemma wrote_all_globals (arts : list (string * frame (cell lib))) (s : process lib) :
  parquet_globals (wrote_all s arts) = parquet_globals s.
Proof.
  revert s. induction arts as [|a arts IH]; intros s; simpl; [done|].
  unfold wrote_all in *. simpl. by rewrite IH.
Qed.

Lemma wrote_all_written (arts : list (string * frame (cell lib))) (s : process lib) :
  written lib (wrote_all s arts) = written lib s ++ arts.
Proof.
  revert s. induction arts as [|[path df] arts IH]; intros s; simpl.
  - by rewrite app_nil_r.
  - unfold wrote_all in *. simpl. rewrite IH. simpl. by rewrite <- app_assoc.
Qed.

Lemma wrote_all_fs (arts : list (string * frame (cell lib))) (s : process lib) :
  fs lib (wrote_all s arts) = after_writes (fs lib s) arts.
Proof.
  revert s. induction arts as [|[path df] arts IH]; intros s; simpl; [done|].
  unfold wrote_all, after_writes in *. simpl. by rewrite IH.
Qed.

Lemma wrote_all_app (arts1 arts2 : list (string * frame (cell lib))) (s : process lib) :
  wrote_all s (arts1 ++ arts2) = wrote_all (wrote_all s arts1) arts2.
Proof. unfold wrote_all. by rewrite foldl_app. Qed.

(** A mini-batch of valid items that no output overwrites is processed to
    its end, one [to_parquet] call per item, in the order of the items. *)
Lemma parquet_batch_ok (out : string) (mb : list string) :
  forall s : process lib,
  Forall (fun p => exists df pred, parquet_scores lib s p df pred out) mb ->
  Forall (fun q => output_file out q ∉ mb) mb ->
  exists arts, for_each mb (score lib) s = (Ok tt, wrote_all s arts) /\
               Forall2 (artifact_of s out) mb arts.
Proof.
  induction mb as [|p mb IH]; intros s Hvalid Hkeep.
  - exists []. by split.
  - inversion Hvalid as [|? ? (df & pred & Hp) Hrest]; subst.
    inversion Hkeep as [|? ? Hp_out Hkeep']; subst.
    set (s1 := wrote s (output_file out p) (scored pred df)).
    destruct (IH s1) as (arts & Hrun & Harts).
    { apply Forall_forall. intros q Hq. rewrite Forall_forall in Hrest.
      destruct (Hrest q Hq) as (dfq & predq & Hscores).
      exists dfq, predq. apply parquet_scores_wrote; [|done].
      intros Heq. apply Hp_out. rewrite Heq. by right. }
    { eapply Forall_impl; [exact Hkeep'|]. intros q Hq Hin. apply Hq. by right. }
    exists ((output_file out p, scored pred df) :: arts). split.
    + simpl. unfold bind. rewrite (parquet_score_ok _ _ _ _ _ _ Hp). exact Hrun.
    + constructor; [by exists df, pred|].
      eapply Forall2_impl; [exact Harts|]. intros q a (dfq & predq & Hq & ->).
      exists dfq, predq. split; [|done].
      eapply parquet_scores_later; [|exact Hq]. apply later_wrote.
Qed.

(** An item that cannot be loaded or processed ends the mini-batch with
    its exception, whatever was written before it. *)
Lemma parquet_batch_raises (mb : list string) :
  forall s0 s : process lib,
  later s0 s ->
  Exists (fun p => ~ exists df pred out, parquet_scores lib s0 p df pred out) mb ->
  raises (for_each mb (score lib) s).1.
Proof.
  induction mb as [|p mb IH]; intros s0 s Hlater Hex; [by inversion Hex|].
  simpl. unfold bind.
  destruct (parquet_score_cases lib s p) as [(df & pred & out & H)|(e & -> & _)];
    [|by exists e].
  rewrite (parquet_score_ok _ _ _ _ _ _ H).
  inversion Hex as [? ? Hbad|? ? Hrest]; subst.
  - destruct Hbad. exists df, pred, out. by eapply parquet_scores_later.
  - eapply (IH s0); [|done]. eapply later_trans; [done|]. apply later_wrote.
Qed.

Lemma for_each_score_later (mb : list string) (s : process lib) :
  later s (for_each mb (score lib) s).2.
Proof.
  revert s. induction mb as [|p mb IH]; intros s; simpl; [apply later_refl|].
  unfold bind. pose proof (later_score lib s p) as Hl.
  destruct (score lib p s) as [[[]|e] s1]; simpl in *; [|done].
  eapply later_trans; [done|apply IH].
Qed.

Lemma parquet_run_acknowledges (mb acks : list string) (s : process lib) :
  (run lib mb s).1 = Ok acks -> acks = mb.
Proof.
  unfold run, bind, ret.
  destruct (for_each mb (score lib) s) as [[[]|e] s1]; simpl; [|done]. by intros [= <-].
Qed.

End ParquetBatch.

(** ** All four drivers *)

(** What an image worker makes of one valid item. *)
Lemma image_item (w : worker) (p : string) :
  image_driver w = true ->
  processes w p ->
  exists r, item_records w p = Ok [Row r] /\ file r = basename p.
Proof.
  destruct w as [lib g|lib g|lib s|lib s]; try done; intros _; simpl.
  - intros (logits & Hs & Hne).
    destruct (F32_max_with_index_nonempty _ Hne) as (v & j & Hmax).
    rewrite (torch_score_ok lib g p logits v j Hs Hmax). simpl. by eexists.
  - intros (logits & Hs & Hne & Hsm).
    destruct (F32_max_with_index_nonempty _ Hsm) as (v & k & Hmax).
    destruct (F32_max_with_index_nonempty _ Hne) as (top & j & Harg).
    rewrite (keras_score_ok lib g p logits v j Hs); simpl.
    + by eexists.
    + unfold F32.reduce_max. by rewrite Hmax.
    + unfold F32.argmax. by rewrite Harg.
Qed.

(** An item that an image worker gets a row for is a valid one. *)
Lemma image_item_processes (w : worker) (p : string) (b : list record) :
  image_driver w = true -> item_records w p = Ok b -> processes w p.
Proof.
  destruct w as [lib g|lib g|lib s|lib s]; try done; intros _; simpl.
  - destruct (TorchDriver.score lib p g).1 as [r|e] eqn:Hr; [|done]. intros _.
    apply torch_score_inv in Hr as (logits & Hs & Hmax & _).
    exists logits. split; [done|]. by eapply F32_max_with_index_Some.
  - destruct (KerasDriver.score lib p g).1 as [r|e] eqn:Hr; [|done]. intros _.
    apply keras_score_inv in Hr as (logits & Hs & Hmax & Harg & _).
    exists logits. split; [done|]. split.
    + intros ->. done.
    + intros Hnil. rewrite Hnil in Hmax. done.
Qed.

(** The row of an item whose scores are finite: value and index are the
    largest entry and its first index (of the soft-max; for the index taken
    by keras, of the scores), the value is a number from 0 to 1 and the
    index one of a class. *)
Lemma image_item_top (w : worker) (p : string) (logits : list float32) (r : prediction) :
  sound_softmax (softmax_of w) ->
  scores w p logits ->
  Forall (fun x => F32.is_finite x = true) logits ->
  item_records w p = Ok [Row r] ->
  top_of w logits r /\ F32.in_unit (probability r) = true /\ class r < length logits.
Proof.
  destruct w as [lib g|lib g|lib s|lib s]; try done; simpl; intros Hsound Hs Hfin.
  - destruct (Hsound logits Hfin) as [Hlen Hunit].
    destruct (TorchDriver.score lib p g).1 as [r'|e] eqn:Hr; [|done]. intros [= ->].
    apply torch_score_inv in Hr as (logits' & Hs' & Hmax & _).
    rewrite <- (torch_scores_unique lib g p _ _ Hs Hs') in Hmax.
    assert (first_top (TorchDriver.softmax lib logits) (probability r) (class r))
      as Htop.
    { apply max_with_index_top; [|done].
      eapply Forall_impl; [exact Hunit|]. intros x. apply in_unit_not_nan. }
    split; [done|]. destruct Htop as (Hj & _ & _). split.
    + rewrite Forall_forall in Hunit. apply Hunit. by eapply list_elem_of_lookup_2.
    + rewrite <- Hlen. by eapply lookup_lt_Some.
  - destruct (Hsound logits Hfin) as [Hlen Hunit].
    destruct (KerasDriver.score lib p g).1 as [r'|e] eqn:Hr; [|done]. intros [= ->].
    apply keras_score_inv in Hr as (logits' & Hs' & Hmax & Harg & _).
    rewrite <- (keras_scores_unique lib g p _ _ Hs Hs') in Hmax, Harg.
    unfold F32.reduce_max in Hmax. unfold F32.argmax in Harg.
    destruct (F32.max_with_index (KerasDriver.softmax lib logits)) as [[v k]|] eqn:Hsm;
      [|done].
    destruct (F32.max_with_index logits) as [[top j]|] eqn:Hl; [|done].
    simpl in Hmax, Harg. injection Hmax as ->. injection Harg as ->.
    assert (first_top (KerasDriver.softmax lib logits) (probability r) k) as Htop.
    { apply max_with_index_top; [|done].
      eapply Forall_impl; [exact Hunit|]. intros x. apply in_unit_not_nan. }
    assert (first_top logits top (class r)) as Htop'.
    { apply max_with_index_top; [|done].
      eapply Forall_impl; [exact Hfin|]. intros x. apply finite_not_nan. }
    split; [split; by eexists|]. split.
    + destruct Htop as (Hk & _ & _). rewrite Forall_forall in Hunit. apply Hunit.
      by eapply list_elem_of_lookup_2.
    + destruct Htop' as (Hj & _ & _). by eapply lookup_lt_Some.
Qed.

(** An image whose scores are finite is a valid item, with a sound soft-max. *)
Lemma finite_scores_processes (w : worker) (p : string) (logits : list float32) :
  sound_softmax (softmax_of w) ->
  scores w p logits -> logits <> [] ->
  Forall (fun x => F32.is_finite x = true) logits ->
  processes w p.
Proof.
  destruct w as [lib g|lib g|lib s|lib s]; try done; simpl; intros Hsound Hs Hne Hfin;
    destruct (Hsound logits Hfin) as [Hlen _]; exists logits.
  - split; [done|]. intros Hnil. rewrite Hnil in Hlen. by destruct logits.
  - split; [done|]. split; [done|]. intros Hnil. rewrite Hnil in Hlen. by destruct logits.
Qed.

Lemma collect_singletons {A B C} (f : A -> result B) (g : B -> C) (xs : list A) :
  result_map (fun blocks => concat blocks)
    (collect ((fun x => result_map (fun b => [g b]) (f x)) <$> xs)) =
  result_map (fmap g) (collect (f <$> xs)).
Proof.
  induction xs as [|x xs IH]; csimpl; [done|].
  destruct (f x) as [b|e]; simpl; [|done].
  destruct (collect ((fun x => result_map (fun b => [g b]) (f x)) <$> xs)) as [bl|e],
           (collect (f <$> xs)) as [bs|e']; simpl in *;
    try congruence.
  injection IH as ->. done.
Qed.

(** An image worker processes a mini-batch item by item, leaves its
    globals as they are, and returns the rows in the order of the items. *)
Lemma image_run (w : worker) (mb : list string) :
  image_driver w = true ->
  run w mb = (result_map (fun blocks => concat blocks) (collect (item_records w <$> mb)), w).
Proof.
  destruct w as [lib g|lib g|lib s|lib s]; try done; intros _; simpl.
  - rewrite torch_run_collect. unfold on_worker. simpl. f_equal.
    symmetry. apply (collect_singletons (fun p => (TorchDriver.score lib p g).1) Row).
  - rewrite keras_run_collect. unfold on_worker. simpl. f_equal.
    symmetry. apply (collect_singletons (fun p => (KerasDriver.score lib p g).1) Row).
Qed.

Lemma image_run_records (w : worker) (mb : list string) :
  image_driver w = true ->
  Forall (processes w) mb ->
  exists rows, run w mb = (Ok (Row <$> rows), w) /\
    Forall2 (fun p r => item_records w p = Ok [Row r] /\ file r = basename p) mb rows.
Proof.
  intros Himg Hall. rewrite (image_run w mb Himg).
  induction Hall as [|p mb Hp _ (rows & Hrun & Hrows)]; csimpl.
  - by exists [].
  - destruct (image_item w p Himg Hp) as (r & Hitem & Hr). rewrite Hitem.
    injection Hrun as Hrun.
    destruct (collect (item_records w <$> mb)) as [bs|e]; simpl in *; [|done].
    injection Hrun as Hrun.
    exists (r :: rows). split; [|by constructor]. simpl. by rewrite Hrun.
Qed.

Section SummarizerWorker.
Context (lib : SummarizationDriver.Lib) (s : SummarizationDriver.process lib).
Import SummarizationDriver.

(** A mini-batch that the summariser can load and process, with a row of
    text in it, is processed to its end: the summaries of the rows. *)
Lemma summarizer_run_valid (mb : list string) (texts : list string) :
  texts_of lib mb = Some texts ->
  Forall (fun text => exists y, summarizes lib s text y) texts ->
  texts <> [] ->
  exists ys, (run lib mb s).1 = Ok ys /\ Forall2 (summarizes lib s) texts ys.
Proof.
  intros Ht Hall Hne. destruct (summaries_collect lib s texts Hall) as (ys & Hys & Hsum).
  exists ys. split; [|done]. by eapply summarizer_run_ok.
Qed.

Lemma summarizer_run_summarizable (mb : list string) (ys : list string) :
  (run lib mb s).1 = Ok ys -> summarizable lib s mb.
Proof.
  intros (texts & Ht & Hys & _)%summarizer_run_inv. exists texts. split; [done|].
  apply summaries_inv in Hys. clear Ht. induction Hys; constructor; [by eexists|done].
Qed.

Lemma summarizer_item_records (s' : process lib) (p : string) :
  summarizer_globals s' = summarizer_globals s ->
  item_records (SummarizationWorker lib s') p = item_records (SummarizationWorker lib s) p.
Proof.
  intros Hg. simpl. destruct (load_dataset lib [p]) as [ds|]; [|done].
  destruct (get_column "text" ds) as [ts|]; [|done].
  f_equal. f_equal. apply list_fmap_ext. intros _ text _. by apply summarize_globals.
Qed.

Lemma texts_of_item (p : string) (ts : list string) :
  texts_of lib [p] = Some ts ->
  item_records (SummarizationWorker lib s) p =
    result_map (fmap Item) (collect ((fun text => (summarize lib text s).1) <$> ts)).
Proof.
  unfold texts_of. simpl. destruct (load_dataset lib [p]) as [ds|]; [|done]. simpl.
  by intros ->.
Qed.

(** Where the data set holds the rows of the files, file after file, the
    summaries are those of the items, item after item. *)
Lemma summarizer_blocks (mb : list string) (texts ys : list string) :
  item_wise (SummarizationWorker lib s) mb ->
  texts_of lib mb = Some texts ->
  collect ((fun text => (summarize lib text s).1) <$> texts) = Ok ys ->
  exists blocks,
    Forall2 (fun p b => item_records (SummarizationWorker lib s) p = Ok b) mb blocks /\
    Item <$> ys = concat blocks.
Proof.
  unfold item_wise. intros Hwise Ht. rewrite Ht in Hwise. clear Ht.
  destruct (mapM (fun p => texts_of lib [p]) mb) as [tss|] eqn:Hm; [|done].
  simpl in Hwise. injection Hwise as ->.
  apply mapM_Some in Hm. intros (yss & -> & Hyss)%collect_concat.
  exists (((fun ys : list string => fmap (M:=list) Item ys) <$> yss) : list (list record)).
  split.
  - revert yss Hyss. induction Hm as [|p ts mb tss Hp _ IH]; intros yss Hyss.
    + inversion Hyss. constructor.
    + inversion Hyss as [|? ys' ? yss' Hts Hrest]; subst. rewrite fmap_cons.
      constructor; [|by apply IH]. rewrite (texts_of_item p ts Hp), Hts. done.
  - clear. induction yss as [|ys yss IH]; csimpl; [done|]. by rewrite fmap_app, IH.
Qed.

End SummarizerWorker.

(** A call of [run] that returns has loaded and processed every item. *)
Lemma run_ok_processes (w : worker) (mb : list string) (out : list record) (w' : worker) :
  run w mb = (Ok out, w') -> Forall (processes w) mb.
Proof.
  destruct w as [lib g|lib g|lib s|lib s].
  - rewrite image_run by done. intros [= H _].
    destruct (collect _) as [blocks|e] eqn:Hc; [|done].
    apply collect_inv_Forall2 in Hc. apply Forall_forall. intros p Hp.
    apply list_elem_of_lookup in Hp as [i Hi].
    destruct (Forall2_lookup_l _ _ _ _ _ Hc Hi) as (b & _ & Hb).
    by eapply image_item_processes.
  - rewrite image_run by done. intros [= H _].
    destruct (collect _) as [blocks|e] eqn:Hc; [|done].
    apply collect_inv_Forall2 in Hc. apply Forall_forall. intros p Hp.
    apply list_elem_of_lookup in Hp as [i Hi].
    destruct (Forall2_lookup_l _ _ _ _ _ Hc Hi) as (b & _ & Hb).
    by eapply image_item_processes.
  - simpl. unfold on_worker. intros [= H _].
    destruct (SummarizationDriver.run lib mb s).1 as [ys|e] eqn:Hrun; [|done].
    apply summarizer_run_summarizable in Hrun.
    apply Forall_forall. intros p Hp. by exists mb.
  - simpl. unfold on_worker. intros [= H _].
    apply Forall_forall. intros p Hp.
    destruct (parquet_score_cases lib s p) as [Hok|(e & _ & Hbad)]; [done|].
    exfalso. unfold ParquetDriver.run, bind in H.
    destruct (parquet_batch_raises lib mb s s (later_refl lib s)) as [e' He'].
    { apply Exists_exists. by exists p. }
    destruct (for_each mb (ParquetDriver.score lib) s) as [[[]|e''] s1]; simpl in *;
      congruence.
Qed.

(** [run], returning or raising, leaves what [init] bound as it found it ... *)
Lemma run_globals (w : worker) (mb : list string) :
  globals_of (run w mb).2 = globals_of w.
Proof.
  destruct w as [lib g|lib g|lib s|lib s].
  - by rewrite image_run.
  - by rewrite image_run.
  - simpl. destruct (summarizer_run_spec lib mb s) as [Hg _].
    unfold summarizer_globals in Hg. injection Hg as -> -> ->. done.
  - simpl.
    assert (later s (ParquetDriver.run lib mb s).2) as [Hg _].
    { unfold ParquetDriver.run, bind, ret.
      pose proof (for_each_score_later lib mb s) as Hl.
      by destruct (for_each mb (ParquetDriver.score lib) s) as [[[]|e] s1]. }
    unfold parquet_globals in Hg. injection Hg as -> ->. done.
Qed.

(** ... and with it what the worker makes of an item taken alone. *)
Lemma run_item_records (w : worker) (mb : list string) (p : string) :
  item_records (run w mb).2 p = item_records w p.
Proof.
  destruct w as [lib g|lib g|lib s|lib s].
  - by rewrite image_run.
  - by rewrite image_run.
  - simpl. destruct (summarizer_run_spec lib mb s) as [Hg _].
    by apply (summarizer_item_records lib s).
  - done.
Qed.

(** What [run] returns is what it is to return, entry by entry. *)
Lemma run_answers (w : worker) (mb : list string) (out : list record) (w' : worker) :
  run w mb = (Ok out, w') -> answers w mb out.
Proof.
  destruct w as [lib g|lib g|lib s|lib s].
  - intros Hrun. pose proof (run_ok_processes _ _ _ _ Hrun) as Hall.
    destruct (image_run_records (TorchWorker lib g) mb eq_refl Hall)
      as (rows & Hrun' & Hrows).
    rewrite Hrun' in Hrun. injection Hrun as <- _. simpl.
    apply Forall2_fmap_r. eapply Forall2_impl; [exact Hrows|]. by intros p r [? _].
  - intros Hrun. pose proof (run_ok_processes _ _ _ _ Hrun) as Hall.
    destruct (image_run_records (KerasWorker lib g) mb eq_refl Hall)
      as (rows & Hrun' & Hrows).
    rewrite Hrun' in Hrun. injection Hrun as <- _. simpl.
    apply Forall2_fmap_r. eapply Forall2_impl; [exact Hrows|]. by intros p r [? _].
  - simpl. unfold on_worker. intros [= H _].
    destruct (SummarizationDriver.run lib mb s).1 as [ys|e] eqn:Hrun; [|done].
    injection H as <-.
    apply summarizer_run_inv in Hrun as (texts & Ht & Hys & _).
    exists texts. split; [done|]. apply Forall2_fmap_r.
    apply summaries_inv in Hys. eapply Forall2_impl; [exact Hys|].
    intros text y Hy. by exists y.
  - simpl. unfold on_worker. intros [= H _].
    destruct (ParquetDriver.run lib mb s).1 as [acks|e] eqn:Hrun; [|done].
    injection H as <-. by rewrite (parquet_run_acknowledges lib mb acks s Hrun).
Qed.

(** The output of [run] is made of the items' own records, in the order of
    the items. *)
Lemma run_blocks (w : worker) (mb : list string) (out : list record) (w' : worker) :
  run w mb = (Ok out, w') ->
  item_wise w mb ->
  exists blocks, Forall2 (fun p b => item_records w p = Ok b) mb blocks /\
                 out = concat blocks.
Proof.
  destruct w as [lib g|lib g|lib s|lib s].
  - rewrite image_run by done. intros [= H <-] _.
    destruct (collect _) as [blocks|e] eqn:Hc; [|done]. injection H as <-.
    exists blocks. split; [|done]. by apply collect_inv_Forall2.
  - rewrite image_run by done. intros [= H <-] _.
    destruct (collect _) as [blocks|e] eqn:Hc; [|done]. injection H as <-.
    exists blocks. split; [|done]. by apply collect_inv_Forall2.
  - intros Hrun Hwise. simpl in Hrun. unfold on_worker in Hrun. injection Hrun as H _.
    destruct (SummarizationDriver.run lib mb s).1 as [ys|e] eqn:Hrun; [|done].
    injection H as <-.
    apply summarizer_run_inv in Hrun as (texts & Ht & Hys & _).
    by eapply summarizer_blocks.
  - simpl. unfold on_worker. intros [= H _] _.
    destruct (ParquetDriver.run lib mb s).1 as [acks|e] eqn:Hrun; [|done].
    injection H as <-. rewrite (parquet_run_acknowledges lib mb acks s Hrun).
    exists ((fun p => [Item p]) <$> mb). split.
    + clear. induction mb; csimpl; by constructor.
    + clear. induction mb as [|p mb IH]; csimpl; [done|]. by rewrite IH.
Qed.

Lemma artifact_paths {lib : ParquetDriver.Lib} (s : ParquetDriver.process lib)
    (out : string) (mb : list string)
    (arts : list (string * frame (ParquetDriver.cell lib))) :
  Forall2 (artifact_of s out) mb arts ->
  arts.*1 = ParquetDriver.output_file out <$> mb.
Proof.
  induction 1 as [|p a mb arts (df & pred & _ & ->) _ IH]; csimpl; [done|]. by rewrite IH.
Qed.

(** A mini-batch of valid items is processed to its end: the entries that
    [run] is to return, one per file (one per row of text for the summariser,
    which needs a row to end well), and in write mode one [to_parquet] call
    per file, in order. *)
Lemma run_valid (w : worker) (mb : list string) :
  valid_batch w mb ->
  (is_summarizer w = true -> 0 < expected_count w mb) ->
  exists out w', run w mb = (Ok out, w') /\
    length out = expected_count w mb /\
    answers w mb out /\
    written_paths w' = written_paths w ++ due_paths w mb.
Proof.
  intros Hvalid Hrows.
  assert (forall out w', run w mb = (Ok out, w') ->
            length out = expected_count w mb ->
            written_paths w' = written_paths w ++ due_paths w mb ->
            exists out w', run w mb = (Ok out, w') /\
              length out = expected_count w mb /\
              answers w mb out /\
              written_paths w' = written_paths w ++ due_paths w mb) as Hend.
  { intros out w' Hrun Hlen Hw. exists out, w'. split; [done|]. split; [done|].
    split; [by eapply run_answers|done]. }
  destruct w as [lib g|lib g|lib s|lib s].
  - destruct Hvalid as [Hall _].
    destruct (image_run_records (TorchWorker lib g) mb eq_refl Hall) as (rows & Hrun & Hr).
    eapply Hend; [exact Hrun| |done]. rewrite length_fmap. simpl.
    symmetry. by eapply Forall2_length.
  - destruct Hvalid as [Hall _].
    destruct (image_run_records (KerasWorker lib g) mb eq_refl Hall) as (rows & Hrun & Hr).
    eapply Hend; [exact Hrun| |done]. rewrite length_fmap. simpl.
    symmetry. by eapply Forall2_length.
  - destruct Hvalid as (texts & Ht & Hall). specialize (Hrows eq_refl).
    simpl in Hrows. rewrite Ht in Hrows. simpl in Hrows.
    destruct (summarizer_run_valid lib s mb texts Ht Hall) as (ys & Hrun & Hys).
    { intros ->. simpl in Hrows. lia. }
    eapply (Hend (Item <$> ys) (run (SummarizationWorker lib s) mb).2).
    + simpl. unfold on_worker. by rewrite Hrun.
    + rewrite length_fmap. simpl. rewrite Ht. simpl. symmetry. by eapply Forall2_length.
    + done.
  - destruct Hvalid as [Hall Hkeep]. simpl in *.
    destruct (ParquetDriver.output_path lib s) as [out|] eqn:Hout.
    + destruct (parquet_batch_ok lib out mb s) as (arts & Hrun & Harts).
      { eapply Forall_impl; [exact Hall|]. intros p (df & pred & out' & Hs).
        exists df, pred. destruct Hs as [m ? ? ? ? Hout' ?].
        assert (out' = out) as <- by congruence. by econstructor. }
      { by apply Hkeep. }
      eapply (Hend (Item <$> mb) (ParquetWorker lib (wrote_all s arts))).
      * simpl. unfold on_worker, ParquetDriver.run, bind, ret. by rewrite Hrun.
      * by rewrite length_fmap.
      * simpl.
        by rewrite wrote_all_written, fmap_app, (artifact_paths s out mb arts Harts).
    + destruct mb as [|p mb].
      * eapply (Hend [] (ParquetWorker lib s)); [done|done|].
        simpl. by rewrite app_nil_r.
      * inversion Hall as [|? ? (df & pred & out & [m ? ? ? ? Hout' ?]) _]; congruence.
Qed.

(** ** The sample libraries *)

Lemma one_hot_unit (n j : nat) : Forall (fun x => F32.in_unit x = true) (one_hot n j).
Proof.
  unfold one_hot. apply Forall_fmap, Forall_forall. intros i _. simpl. by case_decide.
Qed.

(** The saturated soft-max gives what a soft-max owes a row of finite
    scores. *)
Lemma saturated_softmax_sound : sound_softmax saturated_softmax.
Proof.
  intros l Hfin. unfold unit_row, saturated_softmax.
  destruct l as [|x l]; [by split|].
  assert (existsb spoils (x :: l) = false) as ->.
  { clear -Hfin. induction Hfin as [|y l' Hy _ IH]; [done|].
    simpl. rewrite IH. by destruct y as [|[]| |]. }
  assert (forallb minus_infinity (x :: l) = false) as ->.
  { apply Forall_cons in Hfin as [Hx _]. simpl. by destruct x as [| []| |]. }
  destruct (F32_max_with_index_nonempty (x :: l)) as (v & j & Hmax); [done|].
  unfold F32.argmax. rewrite Hmax. cbn [orb fmap option_fmap option_map snd]. split.
  - unfold one_hot. by rewrite length_fmap, length_seq.
  - apply (one_hot_unit (S (length l)) j).
Qed.

Lemma sample_torch_scores (p : string) :
  contains dot p = true ->
  exists logits, scores sample_torch_worker p logits /\ logits <> [] /\
                 Forall (fun x => F32.is_finite x = true) logits.
Proof.
  intros Hp.
  exists (if contains "7"%char p
          then [F32.zero; two_hundred; minus_two_hundred]
          else [two_hundred; F32.zero; minus_two_hundred]).
  split; [|destruct (contains "7"%char p); split; try done; by repeat constructor].
  econstructor; try reflexivity. simpl. by rewrite Hp.
Qed.

Lemma sample_torch_processes (p : string) :
  contains dot p = true -> processes sample_torch_worker p.
Proof.
  intros (logits & Hs & Hne & Hfin)%sample_torch_scores.
  eapply finite_scores_processes; [apply saturated_softmax_sound|done..].
Qed.

(** * The claims *)

(** C3, as stated, fails on a model one of whose scores has overflowed: the
    soft-max of the row is NaN throughout, and so is the probability that the
    driver returns, which is no number from 0 to 1. *)
Lemma C3_counterexample :
  ~ forall (w : worker) (mini_batch : list string),
      image_driver w = true ->
      Forall (processes w) mini_batch ->
      exists rows,
        run w mini_batch = (Ok (Row <$> rows), w) /\
        Forall2 (fun p r =>
                   file r = basename p /\
                   F32.in_unit (probability r) = true /\
                   exists logits, scores w p logits /\ class r < length logits)
                mini_batch rows.
Proof.
  intros H.
  destruct (H overflowing_torch_worker ["a.png"]) as (rows & Hrun & Hrows); [done| |].
  - repeat constructor. exists [S754_infinity false; F32.zero; minus_two_hundred].
    split; [by econstructor|done].
  - assert (run overflowing_torch_worker ["a.png"] =
              (Ok [Row {| file := "a.png"; class := 0; probability := S754_nan |}],
               overflowing_torch_worker)) as Heval by (vm_compute; reflexivity).
    rewrite Heval in Hrun. injection Hrun as Hrun.
    inversion Hrows as [|? r ? rows' (_ & Hunit & _) Hnil]; subst.
    inversion Hnil; subst. simpl in Hrun. injection Hrun as <-. done.
Qed.

(** C3, amended. For a worker initialised with an image classifier and a
    mini-batch of image paths that it can load (such as ["a.png"], ["b.png"])
    and for which the model gives finite scores, [run] returns one row per
    image, in order: [file] is the base name of the path; [probability] is
    the largest entry of the soft-max of the scores and lies between 0 and 1;
    [class] is an index into the row of scores: the first index of that
    largest entry for torch, the first index of the largest score for keras.
    The soft-max is the library's, taken to give a row of the same length of
    numbers from 0 to 1 when the scores are finite. *)
Theorem C3_image_record_bounds (w : worker) (mini_batch : list string) :
  image_driver w = true ->
  sound_softmax (softmax_of w) ->
  Forall (fun p => exists logits, scores w p logits /\ logits <> [] /\
                     Forall (fun x => F32.is_finite x = true) logits) mini_batch ->
  exists rows,
    run w mini_batch = (Ok (Row <$> rows), w) /\
    Forall2 (fun p r =>
               file r = basename p /\
               exists logits,
                 scores w p logits /\
                 top_of w logits r /\
                 F32.in_unit (probability r) = true /\
                 class r < length logits)
            mini_batch rows.
Proof.
  intros Himg Hsound Hall.
  destruct (image_run_records w mini_batch Himg) as (rows & Hrun & Hrows).
  { eapply Forall_impl; [exact Hall|]. intros p (logits & Hs & Hne & Hfin).
    by eapply finite_scores_processes. }
  exists rows. split; [done|].
  apply Forall2_same_length_lookup. split; [by eapply Forall2_length|].
  intros i p r Hp Hr.
  destruct (Forall2_lookup_lr _ _ _ _ _ _ Hrows Hp Hr) as [Hitem Hfile].
  split; [done|].
  rewrite Forall_forall in Hall.
  destruct (Hall p (list_elem_of_lookup_2 _ _ _ Hp)) as (logits & Hs & _ & Hfin).
  exists logits. split; [done|]. by eapply image_item_top.
Qed.

Lemma C3_witness :
  exists rows,
    run sample_torch_worker ["a.png"; "b.png"] = (Ok (Row <$> rows), sample_torch_worker) /\
    Forall2 (fun p r =>
               file r = basename p /\
               exists logits,
                 scores sample_torch_worker p logits /\
                 top_of sample_torch_worker logits r /\
                 F32.in_unit (probability r) = true /\
                 class r < length logits)
            ["a.png"; "b.png"] rows.
Proof.
  apply (C3_image_record_bounds sample_torch_worker ["a.png"; "b.png"]).
  - reflexivity.
  - apply saturated_softmax_sound.
  - repeat constructor; by apply sample_torch_scores.
Defined.

(** C9. In the rows that the image drivers return, [file] is the base name of
    the input path and nothing of its directory: two items of a mini-batch
    whose paths differ only in the directory get rows with the same [file],
    the common file name. *)
Theorem C9_file_is_basename (w : worker) (mini_batch : list string)
    (i j : nat) (d1 d2 n : string) :
  image_driver w = true ->
  Forall (processes w) mini_batch ->
  contains slash n = false ->
  mini_batch !! i = Some (d1 +:+ String slash n) ->
  mini_batch !! j = Some (d2 +:+ String slash n) ->
  exists rows r1 r2,
    run w mini_batch = (Ok (Row <$> rows), w) /\
    file <$> rows = basename <$> mini_batch /\
    rows !! i = Some r1 /\ rows !! j = Some r2 /\
    file r1 = n /\ file r2 = n.
Proof.
  intros Himg Hall Hn Hi Hj.
  destruct (image_run_records w mini_batch Himg Hall) as (rows & Hrun & Hrows).
  destruct (Forall2_lookup_l _ _ _ _ _ Hrows Hi) as (r1 & Hr1 & _ & Hf1).
  destruct (Forall2_lookup_l _ _ _ _ _ Hrows Hj) as (r2 & Hr2 & _ & Hf2).
  exists rows, r1, r2. split; [done|]. split.
  - clear -Hrows. induction Hrows as [|p r mb rows (_ & Hf) _ IH]; csimpl; [done|].
    by rewrite Hf, IH.
  - rewrite Hf1, Hf2, !basename_in_directory by done. done.
Qed.

Lemma C9_witness :
  exists rows r1 r2,
    run sample_torch_worker ["run-1/img_7.png"; "run-2/img_7.png"] =
      (Ok (Row <$> rows), sample_torch_worker) /\
    file <$> rows = basename <$> ["run-1/img_7.png"; "run-2/img_7.png"] /\
    rows !! 0 = Some r1 /\ rows !! 1 = Some r2 /\
    file r1 = "img_7.png" /\ file r2 = "img_7.png".
Proof.
  apply (C9_file_is_basename sample_torch_worker
           ["run-1/img_7.png"; "run-2/img_7.png"] 0 1 "run-1" "run-2" "img_7.png").
  - reflexivity.
  - repeat constructor; by apply sample_torch_processes.
  - reflexivity.
  - reflexivity.
  - reflexivity.
Defined.

(** [run] of the three drivers that loop over the items, on no item. *)
Lemma run_nil (w : worker) : is_summarizer w = false -> run w [] = (Ok [], w).
Proof. by destruct w. Qed.

(** C4. [run] on the empty mini-batch: the torch, keras and parquet drivers
    return the empty sequence and leave the worker as it was.  The text
    summariser hands the empty list of files to [load_dataset]: when that
    raises, as the datasets library does for want of a data file, [run]
    raises with it, before anything else is done; and were a data set built
    from no file, [run] would raise later (its local [rps] being bound in the
    loop body only) or return the summaries of rows from nowhere, never the
    empty sequence. *)
Theorem C4_empty_mini_batch (w : worker) :
  match w with
  | SummarizationWorker lib s =>
      match SummarizationDriver.load_dataset lib [] with
      | None => run w [] = (Raise DatasetError, w)
      | Some ds => raises (run w []).1 \/ exists r rs, (run w []).1 = Ok (r :: rs)
      end
  | _ => run w [] = (Ok [], w)
  end.
Proof.
  destruct w as [lib g|lib g|lib s|lib s]; [done|done| |done].
  destruct (SummarizationDriver.load_dataset lib []) as [ds|] eqn:Hl.
  - unfold run, on_worker. cbn [fst snd].
    destruct (SummarizationDriver.run lib [] s).1 as [ys|e] eqn:Hrun; [|left; by exists e].
    right. apply summarizer_run_inv in Hrun as (texts & _ & Hys & Hne).
    apply collect_length in Hys. rewrite length_fmap in Hys.
    destruct ys as [|y ys]; [by destruct texts|]. by exists (Item y), (Item <$> ys).
  - unfold run, on_worker, SummarizationDriver.run, bind, lift. by rewrite Hl.
Qed.

Lemma C4_witness :
  run sample_summarizer_worker [] = (Raise DatasetError, sample_summarizer_worker).
Proof. apply (C4_empty_mini_batch sample_summarizer_worker). Defined.

(** A csv file with a header and no row: the data set is built, the loop
    body never runs, and [rps] is read unbound. *)
Example header_only_file :
  (run sample_summarizer_worker ["bills/empty.csv"]).1 = Raise (UnboundLocalError "rps").
Proof.
  unfold sample_summarizer_worker, sample_summarizer_after, run, on_worker. cbn [fst].
  by rewrite summarizer_run_no_rows.
Qed.

(** C5. A mini-batch with an item that the worker cannot load or process
    fails as a whole: [run] raises and returns no records, for each of the
    four drivers.  So does a mini-batch of the summariser that cannot be
    loaded or processed as a whole, whatever its items are taken alone. *)
Theorem C5_failure_fails_batch (w : worker) (mini_batch : list string) :
  Exists (fun p => ~ processes w p) mini_batch \/
  (is_summarizer w = true /\ ~ valid_batch w mini_batch) ->
  raises (run w mini_batch).1.
Proof.
  intros Hbad. destruct (run w mini_batch) as [[out|e] w'] eqn:Hrun; [|by exists e].
  exfalso. destruct Hbad as [Hex|[Hw Hbad]].
  - apply run_ok_processes in Hrun.
    apply Exists_exists in Hex as (p & Hin & Hbad). apply Hbad.
    rewrite Forall_forall in Hrun. by apply Hrun.
  - destruct w as [lib g|lib g|lib s|lib s]; try done. apply Hbad.
    simpl in Hrun. unfold on_worker in Hrun.
    destruct (SummarizationDriver.run lib mini_batch s).1 as [ys|e] eqn:Hys; [|done].
    by eapply summarizer_run_summarizable.
Qed.

(** A file that is not there makes [load_dataset] raise on every list of
    files that holds it. *)
Lemma sample_lost_file (mb : list string) :
  "bills/lost.csv" ∈ mb -> sample_load_dataset mb = None.
Proof.
  intros Hin. unfold sample_load_dataset. destruct mb as [|f mb']; [done|].
  destruct (mapM sample_csv (f :: mb')) as [tables|] eqn:Hm;
    [|by destruct (sample_csv f)].
  exfalso. apply mapM_Some in Hm. apply list_elem_of_lookup in Hin as [i Hi].
  destruct (Forall2_lookup_l _ _ _ _ _ Hm Hi) as (df & _ & Hdf). discriminate Hdf.
Qed.

Lemma C5_witness :
  raises (run sample_torch_worker ["a.png"; "README"; "b.png"]).1 /\
  raises (run sample_summarizer_worker ["bills/part-0.csv"; "bills/lost.csv"]).1 /\
  raises (run sample_summarizer_worker ["bills/part-0.csv"; "bills/titled.csv"]).1.
Proof.
  split; [|split].
  - apply (C5_failure_fails_batch sample_torch_worker ["a.png"; "README"; "b.png"]).
    left. apply Exists_cons_tl, Exists_cons_hd.
    intros (logits & [m d img input _ _ Himg _ _] & _). simpl in Himg. discriminate.
  - apply (C5_failure_fails_batch sample_summarizer_worker
             ["bills/part-0.csv"; "bills/lost.csv"]).
    left. apply Exists_cons_tl, Exists_cons_hd.
    intros (mb & Hin & texts & Ht & _). unfold texts_of in Ht. simpl in Ht.
    by rewrite (sample_lost_file mb Hin) in Ht.
  - apply (C5_failure_fails_batch sample_summarizer_worker
             ["bills/part-0.csv"; "bills/titled.csv"]).
    right. split; [reflexivity|]. intros (texts & Ht & _). vm_compute in Ht. discriminate.
Defined.

Lemma sample_summarizes (text : string) :
  summarizes (sample_summarizer true)
    (SummarizationDriver.Build_process (sample_summarizer true)
       (Some tt) (Some tt) (Some "cpu") [] [] 0) text text.
Proof. by econstructor. Qed.

Lemma sample_summarizable (mb : list string) (texts : list string) :
  texts_of (sample_summarizer true) mb = Some texts ->
  valid_batch sample_summarizer_worker mb.
Proof.
  intros Ht. exists texts. split; [done|]. apply Forall_forall. intros text _.
  exists text. apply sample_summarizes.
Qed.

(** C1, as stated, fails on the text summariser: one valid csv file of two
    rows gives two records, not one. *)
Lemma C1_counterexample :
  ~ forall (w : worker) (mini_batch : list string),
      valid_batch w mini_batch ->
      exists out w', run w mini_batch = (Ok out, w') /\ length out = length mini_batch.
Proof.
  intros H.
  destruct (H sample_summarizer_worker ["bills/part-0.csv"]) as (out & w' & Hrun & Hlen).
  - by apply (sample_summarizable _ ["An act to amend"; "A bill to provide"]).
  - vm_compute in Hrun. injection Hrun as <- _. simpl in Hlen. discriminate.
Qed.

(** C1, amended. For a mini-batch of [N] valid files (in write mode: whose
    outputs overwrite none of its inputs), [run] of the torch and keras
    drivers returns [N] rows, the row of each item in the order of the items;
    [run] of the write-mode driver makes [N] [to_parquet] calls, one per item
    in order, at the item's output path, and returns the [N] paths;
    [run] of the text summariser returns one record per row of text of the
    data set that [load_dataset] builds from the [N] files, the summary of
    each row in order, given that there is a row. *)
Theorem C1_records_per_valid_batch (w : worker) (mini_batch : list string) :
  valid_batch w mini_batch ->
  (is_summarizer w = true -> 0 < expected_count w mini_batch) ->
  exists out w',
    run w mini_batch = (Ok out, w') /\
    length out = expected_count w mini_batch /\
    answers w mini_batch out /\
    written_paths w' = written_paths w ++ due_paths w mini_batch.
Proof. apply run_valid. Qed.

Lemma C1_witness :
  exists out w',
    run sample_summarizer_worker ["bills/part-0.csv"; "bills/part-1.csv"] = (Ok out, w') /\
    length out =
      expected_count sample_summarizer_worker ["bills/part-0.csv"; "bills/part-1.csv"] /\
    answers sample_summarizer_worker ["bills/part-0.csv"; "bills/part-1.csv"] out /\
    written_paths w' =
      written_paths sample_summarizer_worker ++
      due_paths sample_summarizer_worker ["bills/part-0.csv"; "bills/part-1.csv"].
Proof.
  apply (C1_records_per_valid_batch sample_summarizer_worker
           ["bills/part-0.csv"; "bills/part-1.csv"]).
  - by apply (sample_summarizable _ ["An act to amend"; "A bill to provide"; "A resolution"]).
  - intros _. vm_compute. lia.
Defined.

(** ** Sequences of calls *)

Lemma item_blocks_unique (w : worker) (items : list string) (bs bs' : list (list record)) :
  Forall2 (fun p b => item_records w p = Ok b) items bs ->
  Forall2 (fun p b => item_records w p = Ok b) items bs' ->
  bs = bs'.
Proof.
  intros H. revert bs'. induction H as [|p b items bs Hb _ IH]; intros bs' H'.
  - by inversion H'.
  - inversion H' as [|? b' ? bs'' Hb' Hrest]; subst. f_equal; [congruence|by apply IH].
Qed.

Lemma collect_app_cases {B} (rs1 rs2 : list (result B)) :
  collect (rs1 ++ rs2) =
    match collect rs1 with
    | Ok bs1 =>
        match collect rs2 with
        | Ok bs2 => Ok (bs1 ++ bs2)
        | Raise e => Raise e
        end
    | Raise e => Raise e
    end.
Proof.
  induction rs1 as [|[b|e] rs1 IH]; simpl; [by destruct (collect rs2)| |done].
  rewrite IH. destruct (collect rs1); [|done]. by destruct (collect rs2).
Qed.

Lemma for_each_app {S A} (f : A -> M S unit) (xs ys : list A) (s : S) :
  for_each (xs ++ ys) f s =
    match for_each xs f s with
    | (Ok _, s') => for_each ys f s'
    | (Raise e, s') => (Raise e, s')
    end.
Proof.
  revert s. induction xs as [|x xs IH]; intros s; simpl; [done|].
  unfold bind. destruct (f x s) as [[[]|e] s1]; [apply IH|done].
Qed.

Lemma run_is_summarizer (w : worker) (mb : list string) :
  is_summarizer (run w mb).2 = is_summarizer w.
Proof. by destruct w. Qed.

Lemma run_item_wise (w : worker) (mb mb' : list string) :
  item_wise (run w mb).2 mb' <-> item_wise w mb'.
Proof. by destruct w. Qed.

(** The three drivers that loop over the items take a mini-batch as they
    take its two halves, one after the other. *)
Lemma run_app (w : worker) (mb1 mb2 : list string) :
  is_summarizer w = false ->
  run w (mb1 ++ mb2) =
    match run w mb1 with
    | (Ok r1, w1) =>
        match run w1 mb2 with
        | (Ok r2, w2) => (Ok (r1 ++ r2), w2)
        | (Raise e, w2) => (Raise e, w2)
        end
    | (Raise e, w1) => (Raise e, w1)
    end.
Proof.
  destruct w as [lib g|lib g|lib s|lib s]; try done; intros _.
  - rewrite !image_run by done. rewrite fmap_app, collect_app_cases.
    destruct (collect (item_records _ <$> mb1)) as [b1|e]; cbn [result_map]; [|done].
    destruct (collect (item_records _ <$> mb2)) as [b2|e]; cbn [result_map]; [|done].
    by rewrite concat_app.
  - rewrite !image_run by done. rewrite fmap_app, collect_app_cases.
    destruct (collect (item_records _ <$> mb1)) as [b1|e]; cbn [result_map]; [|done].
    destruct (collect (item_records _ <$> mb2)) as [b2|e]; cbn [result_map]; [|done].
    by rewrite concat_app.
  - simpl. unfold on_worker, ParquetDriver.run, bind, ret. rewrite for_each_app.
    destruct (for_each mb1 (ParquetDriver.score lib) s) as [[[]|e] s1]; simpl; [|done].
    destruct (for_each mb2 (ParquetDriver.score lib) s1) as [[[]|e] s2]; simpl; [|done].
    by rewrite fmap_app.
Qed.

Lemma run_app_inv (w : worker) (mb1 mb2 : list string) (out : list record) (w' : worker) :
  is_summarizer w = false ->
  run w (mb1 ++ mb2) = (Ok out, w') ->
  exists r1 r2, (run w mb1).1 = Ok r1 /\ run (run w mb1).2 mb2 = (Ok r2, w') /\ out = r1 ++ r2.
Proof.
  intros Hw. rewrite run_app by done.
  destruct (run w mb1) as [[r1|e] w1]; [|done]. simpl.
  destruct (run w1 mb2) as [[r2|e] w2]; [|done]. intros [= <- <-]. by exists r1, r2.
Qed.

(** For them a sequence of calls that all return is one call on all the
    items ... *)
Lemma run_all_flat (mbs : list (list string)) :
  forall (w : worker) (outs : list (list record)),
  is_summarizer w = false ->
  (run_all w mbs).1 = Ok <$> outs ->
  run w (concat mbs) = (Ok (concat outs), (run_all w mbs).2).
Proof.
  induction mbs as [|mb mbs IH]; intros w outs Hw; simpl.
  - destruct outs; [|done]. intros _. by apply run_nil.
  - destruct outs as [|out outs]; [done|]. intros [= Hout Houts].
    rewrite run_app by done.
    pose proof (run_is_summarizer w mb) as Hw1.
    destruct (run w mb) as [r1 w1]. simpl in *. subst r1.
    rewrite (IH w1 outs) by (done || congruence). done.
Qed.

(** ... and one call on all the items that returns is a sequence of calls
    that all return, however the items are cut into mini-batches. *)
Lemma run_all_of_flat (mbs : list (list string)) :
  forall (w : worker) (out : list record) (w' : worker),
  is_summarizer w = false ->
  run w (concat mbs) = (Ok out, w') ->
  exists outs, (run_all w mbs).1 = Ok <$> outs /\ concat outs = out /\
               (run_all w mbs).2 = w'.
Proof.
  induction mbs as [|mb mbs IH]; intros w out w' Hw; simpl.
  - rewrite run_nil by done. intros [= <- <-]. by exists [].
  - intros (r1 & r2 & Hr1 & Hr2 & ->)%run_app_inv; [|done].
    pose proof (run_is_summarizer w mb) as Hw1.
    destruct (IH (run w mb).2 r2 w') as (outs & Houts & <- & Hstate);
      [congruence|done|].
    exists (r1 :: outs). simpl. by rewrite Hr1, Houts.
Qed.

Lemma run_all_globals (mbs : list (list string)) :
  forall w : worker,
  globals_of (run_all w mbs).2 = globals_of w /\
  forall p, item_records (run_all w mbs).2 p = item_records w p.
Proof.
  induction mbs as [|mb mbs IH]; intros w; simpl; [done|].
  destruct (IH (run w mb).2) as [Hg Hi]. split.
  - by rewrite Hg, run_globals.
  - intros p. by rewrite Hi, run_item_records.
Qed.

(** What [run] returns, or raises, is a matter of the mini-batch and of what
    [init] bound: for the image drivers and the summariser a call does after
    other calls what it does as the first. *)
Lemma run_after_run (w : worker) (mb mb' : list string) :
  write_mode w = false -> (run (run w mb).2 mb').1 = (run w mb').1.
Proof.
  destruct w as [lib g|lib g|lib s|lib s]; try done; intros _.
  - by rewrite (image_run _ mb).
  - by rewrite (image_run _ mb).
  - simpl. f_equal.
    destruct (summarizer_run_spec lib mb s) as [Hg _].
    destruct (summarizer_run_spec lib mb' s) as [_ ->].
    destruct (summarizer_run_spec lib mb' (SummarizationDriver.run lib mb s).2) as [_ ->].
    destruct (SummarizationDriver.load_dataset lib mb') as [ds|]; [|done].
    destruct (get_column "text" ds) as [texts|]; [|done].
    by rewrite (list_fmap_ext _ (fun text => (SummarizationDriver.summarize lib text s).1) texts)
      by (intros; by apply summarize_globals).
Qed.

Lemma run_write_mode (w : worker) (mb : list string) :
  write_mode (run w mb).2 = write_mode w.
Proof. by destruct w. Qed.

Lemma run_all_alone (mbs : list (list string)) :
  forall w : worker,
  write_mode w = false ->
  (run_all w mbs).1 = (fun mb => (run w mb).1) <$> mbs.
Proof.
  induction mbs as [|mb mbs IH]; intros w Hw; simpl; [done|]. f_equal.
  rewrite IH by (by rewrite run_write_mode).
  apply list_fmap_ext. intros _ mb' _. by apply run_after_run.
Qed.

Lemma run_all_blocks (mbs : list (list string)) :
  forall (w : worker) (outs : list (list record)),
  (run_all w mbs).1 = Ok <$> outs ->
  Forall (item_wise w) mbs ->
  exists blocks, Forall2 (fun p b => item_records w p = Ok b) (concat mbs) blocks /\
                 concat outs = concat blocks.
Proof.
  induction mbs as [|mb mbs IH]; intros w outs; simpl.
  - destruct outs; [|done]. intros _ _. by exists [].
  - destruct outs as [|out outs]; [done|].
    intros [= Hout Houts] [Hwise Hwises]%Forall_cons.
    destruct (run_blocks w mb out (run w mb).2) as (blocks1 & Hb1 & ->); [|done|].
    { by rewrite <- Hout, <- surjective_pairing. }
    destruct (IH _ _ Houts) as (blocks2 & Hb2 & Hc2).
    { eapply Forall_impl; [exact Hwises|]. intros mb'. apply run_item_wise. }
    exists (blocks1 ++ blocks2). split.
    + apply Forall2_app; [done|].
      eapply Forall2_impl; [exact Hb2|]. intros p b Hpb. simpl in *.
      by rewrite <- (run_item_records w mb).
    + simpl. by rewrite Hc2, concat_app.
Qed.

(** C7, as stated, fails on the text summariser, which hands each
    mini-batch as a whole to [load_dataset]: two files that are summarised
    when they come in a mini-batch each are not when they come in one, as the
    second has a column that the first has not. *)
Lemma C7_counterexample :
  ~ forall (w : worker) (mini_batches1 mini_batches2 : list (list string))
      (outs1 : list (list record)),
      concat mini_batches1 = concat mini_batches2 ->
      (run_all w mini_batches1).1 = Ok <$> outs1 ->
      exists outs2,
        (run_all w mini_batches2).1 = Ok <$> outs2 /\ concat outs2 = concat outs1.
Proof.
  intros H.
  destruct (H sample_summarizer_worker
              [["bills/part-0.csv"]; ["bills/titled.csv"]]
              [["bills/part-0.csv"; "bills/titled.csv"]]
              [[Item "An act to amend"; Item "A bill to provide"]; [Item "To establish"]])
    as (outs2 & Hrun & _).
  - reflexivity.
  - vm_compute. reflexivity.
  - destruct outs2 as [|out2 [|]]; vm_compute in Hrun; discriminate.
Qed.

(** C7, amended. After [init], sequential [run] calls, returning or raising,
    leave what [init] bound as it was, and with it what the worker makes of
    an item taken alone; for the image drivers and the summariser every call
    does what it would do as the first call after [init].  For the torch,
    keras and parquet drivers processing is invariant under re-partitioning:
    when the calls return for one way of cutting a sequence of items into
    mini-batches, they return for every way, with the same records in the
    same order and the worker in the same state.  For the text summariser,
    whose [load_dataset] takes each mini-batch as a whole, this holds of the
    calls that return, on mini-batches whose data set holds the rows of its
    files, file after file: what they return is made of the records of the
    items, each determined by the worker and the item alone, the same for
    both ways of cutting. *)
Theorem C7_repartition_invariance (w : worker) (mini_batches : list (list string)) :
  globals_of (run_all w mini_batches).2 = globals_of w /\
  (forall p, item_records (run_all w mini_batches).2 p = item_records w p) /\
  (write_mode w = false ->
   (run_all w mini_batches).1 = (fun mb => (run w mb).1) <$> mini_batches) /\
  (is_summarizer w = false ->
   forall outs mini_batches2,
     (run_all w mini_batches).1 = Ok <$> outs ->
     concat mini_batches2 = concat mini_batches ->
     exists outs2,
       (run_all w mini_batches2).1 = Ok <$> outs2 /\
       concat outs2 = concat outs /\
       (run_all w mini_batches2).2 = (run_all w mini_batches).2) /\
  (forall outs,
     (run_all w mini_batches).1 = Ok <$> outs ->
     Forall (item_wise w) mini_batches ->
     (exists blocks,
         Forall2 (fun p b => item_records w p = Ok b) (concat mini_batches) blocks /\
         concat outs = concat blocks) /\
     (forall mini_batches2 outs2,
         concat mini_batches2 = concat mini_batches ->
         Forall (item_wise w) mini_batches2 ->
         (run_all w mini_batches2).1 = Ok <$> outs2 ->
         concat outs2 = concat outs)).
Proof.
  destruct (run_all_globals mini_batches w) as [Hg Hi].
  split; [done|]. split; [done|]. split; [by apply run_all_alone|]. split.
  - intros Hw outs mbs2 Hrun Hsame.
    pose proof (run_all_flat mini_batches w outs Hw Hrun) as Hflat.
    rewrite <- Hsame in Hflat.
    destruct (run_all_of_flat mbs2 w _ _ Hw Hflat) as (outs2 & Hrun2 & Hc & Hs).
    by exists outs2.
  - intros outs Hrun Hwise.
    destruct (run_all_blocks _ _ _ Hrun Hwise) as (blocks & Hb & Hc).
    split; [by exists blocks|].
    intros mbs2 outs2 Hsame Hwise2 Hrun2.
    destruct (run_all_blocks _ _ _ Hrun2 Hwise2) as (blocks2 & Hb2 & Hc2).
    rewrite Hsame in Hb2. rewrite Hc, Hc2. f_equal. by eapply item_blocks_unique.
Qed.

Lemma C7_witness :
  (exists blocks,
      Forall2 (fun p b => item_records sample_summarizer_worker p = Ok b)
        (concat [["bills/part-0.csv"]; ["bills/part-1.csv"]]) blocks /\
      concat [[Item "An act to amend"; Item "A bill to provide"]; [Item "A resolution"]] =
        concat blocks) /\
  (forall mini_batches2 outs2,
      concat mini_batches2 = concat [["bills/part-0.csv"]; ["bills/part-1.csv"]] ->
      Forall (item_wise sample_summarizer_worker) mini_batches2 ->
      (run_all sample_summarizer_worker mini_batches2).1 = Ok <$> outs2 ->
      concat outs2 =
        concat [[Item "An act to amend"; Item "A bill to provide"]; [Item "A resolution"]]).
Proof.
  apply (C7_repartition_invariance sample_summarizer_worker
           [["bills/part-0.csv"]; ["bills/part-1.csv"]]).
  - vm_compute. reflexivity.
  - repeat constructor.
Defined.

Example one_mini_batch_or_two :
  (run_all sample_summarizer_worker [["bills/part-0.csv"; "bills/part-1.csv"]]).1 =
    [Ok [Item "An act to amend"; Item "A bill to provide"; Item "A resolution"]] /\
  (run_all sample_summarizer_worker [["bills/part-0.csv"]; ["bills/part-1.csv"]]).1 =
    [Ok [Item "An act to amend"; Item "A bill to provide"]; Ok [Item "A resolution"]] /\
  (run_all sample_summarizer_worker [["bills/part-0.csv"; "bills/titled.csv"]]).1 =
    [Raise DatasetError] /\
  (run_all sample_summarizer_worker [["bills/part-0.csv"]; ["bills/titled.csv"]]).1 =
    [Ok [Item "An act to amend"; Item "A bill to provide"]; Ok [Item "To establish"]].
Proof. repeat split; vm_compute; reflexivity. Qed.

Lemma image_lookup (w : worker) (mb : list string) (out : list record) (w' : worker)
    (i : nat) (p : string) :
  image_driver w = true ->
  run w mb = (Ok out, w') ->
  mb !! i = Some p ->
  w' = w /\ exists r, item_records w p = Ok [Row r] /\ out !! i = Some (Row r).
Proof.
  intros Himg Hrun Hi. pose proof (run_ok_processes _ _ _ _ Hrun) as Hall.
  destruct (image_run_records w mb Himg Hall) as (rows & Hrun' & Hrows).
  rewrite Hrun' in Hrun. injection Hrun as <- <-. split; [done|].
  destruct (Forall2_lookup_l _ _ _ _ _ Hrows Hi) as (r & Hr & Hitem & _).
  exists r. split; [done|]. by rewrite list_lookup_fmap, Hr.
Qed.

Lemma summaries_lookup {lib : SummarizationDriver.Lib} (s : SummarizationDriver.process lib)
    (texts : list string) (out : list record) (i : nat) (text : string) :
  Forall2 (fun text r => exists y, summarizes lib s text y /\ r = Item y) texts out ->
  texts !! i = Some text ->
  exists y, summarizes lib s text y /\ out !! i = Some (Item y).
Proof.
  intros Hall Hi. destruct (Forall2_lookup_l _ _ _ _ _ Hall Hi) as (r & Hr & y & Hy & ->).
  by exists y.
Qed.

(** C8. With the model and device that [init] bound, an item fed to [run]
    twice, in one mini-batch or in two successive ones, gets the same
    records both times; for the image drivers, the same row.  The records
    of an item of the summariser are the summaries of the rows of its file,
    in a data set that holds the rows of its files, file after file; whatever
    the data set, a row of text fed twice gets the same summary both times. *)
Theorem C8_same_item_same_record (w : worker) (mb1 mb2 : list string)
    (out1 out2 : list record) (w1 w2 : worker) :
  run w mb1 = (Ok out1, w1) ->
  run w1 mb2 = (Ok out2, w2) ->
  (item_wise w mb1 -> item_wise w mb2 ->
   exists blocks1 blocks2,
     out1 = concat blocks1 /\ out2 = concat blocks2 /\
     Forall2 (fun p b => item_records w p = Ok b) mb1 blocks1 /\
     Forall2 (fun p b => item_records w p = Ok b) mb2 blocks2 /\
     forall p i j, mb1 !! i = Some p ->
       (mb1 !! j = Some p -> blocks1 !! j = blocks1 !! i) /\
       (mb2 !! j = Some p -> blocks2 !! j = blocks1 !! i)) /\
  (image_driver w = true ->
   forall p i j, mb1 !! i = Some p ->
     (mb1 !! j = Some p -> out1 !! j = out1 !! i) /\
     (mb2 !! j = Some p -> out2 !! j = out1 !! i)) /\
  match w with
  | SummarizationWorker lib s =>
      exists texts1 texts2,
        texts_of lib mb1 = Some texts1 /\ texts_of lib mb2 = Some texts2 /\
        length out1 = length texts1 /\ length out2 = length texts2 /\
        forall text i j, texts1 !! i = Some text ->
          (texts1 !! j = Some text -> out1 !! j = out1 !! i) /\
          (texts2 !! j = Some text -> out2 !! j = out1 !! i)
  | _ => True
  end.
Proof.
  intros Hrun1 Hrun2. split; [|split].
  - intros Hwise1 Hwise2.
    pose proof (run_item_records w mb1) as Hitems. rewrite Hrun1 in Hitems. simpl in Hitems.
    pose proof (run_item_wise w mb1 mb2) as Hw. rewrite Hrun1 in Hw. simpl in Hw.
    destruct (run_blocks _ _ _ _ Hrun1 Hwise1) as (blocks1 & Hb1 & ->).
    destruct (run_blocks _ _ _ _ Hrun2) as (blocks2 & Hb2 & ->); [by apply Hw|].
    assert (Forall2 (fun p b => item_records w p = Ok b) mb2 blocks2) as Hb2'.
    { eapply Forall2_impl; [exact Hb2|]. intros p b Hpb. simpl in *. by rewrite <- Hitems. }
    exists blocks1, blocks2. do 4 (split; [done|]).
    intros p i j Hi. destruct (Forall2_lookup_l _ _ _ _ _ Hb1 Hi) as (b & Hbi & Hb).
    split; intros Hj.
    + destruct (Forall2_lookup_l _ _ _ _ _ Hb1 Hj) as (b' & Hbj & Hb'). congruence.
    + destruct (Forall2_lookup_l _ _ _ _ _ Hb2' Hj) as (b' & Hbj & Hb'). congruence.
  - intros Himg p i j Hi.
    destruct (image_lookup _ _ _ _ _ _ Himg Hrun1 Hi) as (-> & r & Hr & Hout).
    split; intros Hj.
    + destruct (image_lookup _ _ _ _ _ _ Himg Hrun1 Hj) as (_ & r' & Hr' & Hout').
      congruence.
    + destruct (image_lookup _ _ _ _ _ _ Himg Hrun2 Hj) as (_ & r' & Hr' & Hout').
      congruence.
  - destruct w as [lib g|lib g|lib s|lib s]; try done.
    pose proof (run_answers _ _ _ _ Hrun1) as (texts1 & Ht1 & Hall1).
    assert (w1 = SummarizationWorker lib (SummarizationDriver.run lib mb1 s).2) as ->.
    { simpl in Hrun1. unfold on_worker in Hrun1. by injection Hrun1 as _ <-. }
    pose proof (run_answers _ _ _ _ Hrun2) as (texts2 & Ht2 & Hall2).
    destruct (summarizer_run_spec lib mb1 s) as [Hg _].
    assert (Forall2 (fun text r => exists y, summarizes lib s text y /\ r = Item y)
              texts2 out2) as Hall2'.
    { eapply Forall2_impl; [exact Hall2|]. intros text r (y & Hy & ->).
      exists y. split; [|done]. by eapply summarizes_globals. }
    exists texts1, texts2. split; [done|]. split; [done|].
    split; [symmetry; by eapply Forall2_length|].
    split; [symmetry; by eapply Forall2_length|].
    intros text i j Hi. destruct (summaries_lookup s _ _ _ _ Hall1 Hi) as (y & Hy & Hout).
    split; intros Hj.
    + destruct (summaries_lookup s _ _ _ _ Hall1 Hj) as (y' & Hy' & Hout').
      rewrite Hout, Hout'. do 2 f_equal. by eapply summarizes_unique.
    + destruct (summaries_lookup s _ _ _ _ Hall2' Hj) as (y' & Hy' & Hout').
      rewrite Hout, Hout'. do 2 f_equal. by eapply summarizes_unique.
Qed.

Lemma C8_witness :
  (forall p i j, ["a.png"; "a.png"] !! i = Some p ->
     (["a.png"; "a.png"] !! j = Some p ->
      [Row {| file := "a.png"; class := 0; probability := F32.one |};
       Row {| file := "a.png"; class := 0; probability := F32.one |}] !! j =
      [Row {| file := "a.png"; class := 0; probability := F32.one |};
       Row {| file := "a.png"; class := 0; probability := F32.one |}] !! i) /\
     (["img_7.png"; "a.png"] !! j = Some p ->
      [Row {| file := "img_7.png"; class := 1; probability := F32.one |};
       Row {| file := "a.png"; class := 0; probability := F32.one |}] !! j =
      [Row {| file := "a.png"; class := 0; probability := F32.one |};
       Row {| file := "a.png"; class := 0; probability := F32.one |}] !! i)) /\
  (exists blocks1 blocks2,
      [Item "An act to amend"; Item "A bill to provide"; Item "A resolution"] =
        concat blocks1 /\
      [Item "A resolution"; Item "An act to amend"; Item "A bill to provide"] =
        concat blocks2 /\
      Forall2 (fun p b => item_records sample_summarizer_worker p = Ok b)
        ["bills/part-0.csv"; "bills/part-1.csv"] blocks1 /\
      Forall2 (fun p b => item_records sample_summarizer_worker p = Ok b)
        ["bills/part-1.csv"; "bills/part-0.csv"] blocks2 /\
      forall p i j, ["bills/part-0.csv"; "bills/part-1.csv"] !! i = Some p ->
        (["bills/part-0.csv"; "bills/part-1.csv"] !! j = Some p ->
         blocks1 !! j = blocks1 !! i) /\
        (["bills/part-1.csv"; "bills/part-0.csv"] !! j = Some p ->
         blocks2 !! j = blocks1 !! i)) /\
  (exists texts1 texts2,
      texts_of (sample_summarizer true) ["bills/part-0.csv"; "bills/part-1.csv"] =
        Some texts1 /\
      texts_of (sample_summarizer true) ["bills/part-1.csv"; "bills/part-0.csv"] =
        Some texts2 /\
      length [Item "An act to amend"; Item "A bill to provide"; Item "A resolution"] =
        length texts1 /\
      length [Item "A resolution"; Item "An act to amend"; Item "A bill to provide"] =
        length texts2 /\
      forall text i j, texts1 !! i = Some text ->
        (texts1 !! j = Some text ->
         [Item "An act to amend"; Item "A bill to provide"; Item "A resolution"] !! j =
         [Item "An act to amend"; Item "A bill to provide"; Item "A resolution"] !! i) /\
        (texts2 !! j = Some text ->
         [Item "A resolution"; Item "An act to amend"; Item "A bill to provide"] !! j =
         [Item "An act to amend"; Item "A bill to provide"; Item "A resolution"] !! i)).
Proof.
  split.
  - destruct (C8_same_item_same_record sample_torch_worker
                ["a.png"; "a.png"] ["img_7.png"; "a.png"]
                [Row {| file := "a.png"; class := 0; probability := F32.one |};
                 Row {| file := "a.png"; class := 0; probability := F32.one |}]
                [Row {| file := "img_7.png"; class := 1; probability := F32.one |};
                 Row {| file := "a.png"; class := 0; probability := F32.one |}]
                sample_torch_worker sample_torch_worker)
      as (_ & Hrows & _).
    + vm_compute. reflexivity.
    + vm_compute. reflexivity.
    + apply Hrows. reflexivity.
  - destruct (C8_same_item_same_record sample_summarizer_worker
                ["bills/part-0.csv"; "bills/part-1.csv"]
                ["bills/part-1.csv"; "bills/part-0.csv"]
                [Item "An act to amend"; Item "A bill to provide"; Item "A resolution"]
                [Item "A resolution"; Item "An act to amend"; Item "A bill to provide"]
                (sample_summarizer_after [("rows_per_second", 2)] 4)
                (sample_summarizer_after
                   [("rows_per_second", 2); ("rows_per_second", 2)] 8))
      as (Hitems & _ & Hrows).
    + vm_compute. reflexivity.
    + vm_compute. reflexivity.
    + split; [|exact Hrows]. apply Hitems; reflexivity.
Defined.

(** ** Initialisation *)

Ltac cannot_load :=
  split; [done|];
  let H := fresh in
  intros H;
  repeat match goal with
         | H : exists _, _ |- _ => destruct H
         | H : _ /\ _ |- _ => destruct H
         | H : _ \/ _ |- _ => destruct H
         end;
  congruence.

Lemma torch_init_loads (lib : TorchDriver.Lib) (host : Host) (g : TorchDriver.globals lib) :
  (TorchDriver.init lib host g).1 = Ok tt <-> loads host (TorchWorker lib g).
Proof.
  unfold TorchDriver.init, TorchDriver.set_model, TorchDriver.get_model,
    TorchDriver.set_device. monad. simpl.
  destruct (environ host !! "AZUREML_MODEL_DIR") as [model_path|]; simpl;
    [|cannot_load].
  destruct (last (glob host _)) as [model_file|] eqn:Hglob; simpl;
    [|cannot_load].
  destruct (TorchDriver.torch_load lib model_file) as [weights|] eqn:Hload; simpl;
    [|cannot_load].
  destruct (TorchDriver.load_state_dict lib _ weights) as [m|] eqn:Hsd; simpl;
    [|cannot_load].
  split; [|done]. intros _. by exists model_path, model_file, weights, m.
Qed.

Lemma keras_init_loads (lib : KerasDriver.Lib) (host : Host) (g : KerasDriver.globals lib) :
  (KerasDriver.init lib host g).1 = Ok tt <-> loads host (KerasWorker lib g).
Proof.
  unfold KerasDriver.init, KerasDriver.set_model. monad. simpl.
  destruct (environ host !! "AZUREML_MODEL_DIR") as [dir|]; simpl;
    [|cannot_load].
  destruct (KerasDriver.load_model lib _) as [m|] eqn:Hload; simpl;
    [|cannot_load].
  split; [|done]. intros _. by exists dir, m.
Qed.

Lemma parquet_init_loads (lib : ParquetDriver.Lib) (host : Host)
    (s : ParquetDriver.process lib) :
  (ParquetDriver.init lib host s).1 = Ok tt <-> loads host (ParquetWorker lib s).
Proof.
  unfold ParquetDriver.init, ParquetDriver.set_model, ParquetDriver.set_output_path.
  monad. simpl.
  destruct (environ host !! "AZUREML_BI_OUTPUT_PATH") as [out|]; simpl;
    [|cannot_load].
  destruct (environ host !! "AZUREML_MODEL_DIR") as [model_path|]; simpl;
    [|cannot_load].
  destruct (last (glob host _)) as [model_file|] eqn:Hglob; simpl;
    [|cannot_load].
  destruct (ParquetDriver.pickle_load lib model_file) as [m|] eqn:Hload; simpl;
    [|cannot_load].
  split; [|done]. intros _. by exists out, model_path, model_file, m.
Qed.

Lemma summarizer_init_loads (lib : SummarizationDriver.Lib) (host : Host)
    (s : SummarizationDriver.process lib) :
  (SummarizationDriver.init lib host s).1 = Ok tt <-> loads host (SummarizationWorker lib s).
Proof.
  unfold SummarizationDriver.init, SummarizationDriver.set_model,
    SummarizationDriver.set_tokenizer, SummarizationDriver.set_device,
    SummarizationDriver.get_model, SummarizationDriver.get_device,
    SummarizationDriver.log_param. monad. simpl.
  destruct (SummarizationDriver.cuda_is_available lib) eqn:Hc; simpl.
  - destruct (SummarizationDriver.nvidia_smi lib) as [smi|] eqn:Hsmi; simpl;
      [|split; [done|]; intros (? & ? & ? & H & _); by destruct H].
    destruct (environ host !! "AZUREML_MODEL_DIR") as [dir|]; simpl;
      [|cannot_load].
    destruct (SummarizationDriver.AutoTokenizer_from_pretrained lib _) as [t|] eqn:Ht;
      simpl; [|cannot_load].
    destruct (SummarizationDriver.from_pretrained_auto lib _) as [m|] eqn:Hauto; simpl.
    + destruct (SummarizationDriver.BetterTransformer_transform lib m); simpl;
        (split; [|done]); intros _; exists dir, t, m;
        (split; [intros _; by eexists|]); eauto.
    + destruct (SummarizationDriver.from_pretrained lib _) as [m|] eqn:Hcpu; simpl;
        [|cannot_load].
      split; [|done]. intros _. exists dir, t, m.
      split; [intros _; by eexists|]. eauto.
  - destruct (environ host !! "AZUREML_MODEL_DIR") as [dir|]; simpl;
      [|cannot_load].
    destruct (SummarizationDriver.AutoTokenizer_from_pretrained lib _) as [t|] eqn:Ht;
      simpl; [|cannot_load].
    destruct (SummarizationDriver.from_pretrained_auto lib _) as [m|] eqn:Hauto; simpl.
    + split; [|done]. intros _. exists dir, t, m. split; [done|]. eauto.
    + destruct (SummarizationDriver.from_pretrained lib _) as [m|] eqn:Hcpu; simpl;
        [|cannot_load].
      split; [|done]. intros _. exists dir, t, m. split; [done|]. eauto.
Qed.

Lemma init_loads (host : Host) (w : worker) : (init host w).1 = Ok tt <-> loads host w.
Proof.
  destruct w as [lib g|lib g|lib s|lib s]; unfold init, on_worker; cbn [fst snd].
  - rewrite <- torch_init_loads.
    destruct (TorchDriver.init lib host g).1 as [[]|e]; by split.
  - rewrite <- keras_init_loads.
    destruct (KerasDriver.init lib host g).1 as [[]|e]; by split.
  - rewrite <- summarizer_init_loads.
    destruct (SummarizationDriver.init lib host s).1 as [[]|e]; by split.
  - rewrite <- parquet_init_loads.
    destruct (ParquetDriver.init lib host s).1 as [[]|e]; by split.
Qed.

(** C6, as stated, fails on the text summariser: when the model does not
    load with [device_map="auto"], [init] catches the exception, loads the
    model without it, and returns. *)
Lemma C6_counterexample :
  ~ forall (host : Host) (lib : SummarizationDriver.Lib)
      (s : SummarizationDriver.process lib) (dir : string),
      environ host !! "AZUREML_MODEL_DIR" = Some dir ->
      SummarizationDriver.from_pretrained_auto lib (join dir "model") = None ->
      raises (init host (SummarizationWorker lib s)).1.
Proof.
  intros H.
  destruct (H sample_host (sample_summarizer false)
              (SummarizationDriver.unbound (sample_summarizer false)) "/models/m")
    as [e He].
  - reflexivity.
  - reflexivity.
  - vm_compute in He. discriminate.
Qed.

Example summarizer_falls_back_to_cpu :
  init sample_host
    (SummarizationWorker (sample_summarizer false)
       (SummarizationDriver.unbound (sample_summarizer false))) =
  (Ok tt,
   SummarizationWorker (sample_summarizer false)
     (SummarizationDriver.Build_process (sample_summarizer false)
        (Some tt) (Some tt) (Some "cpu")
        [("device", "cpu"); ("model", "BartForConditionalGeneration")] [] 0)).
Proof. vm_compute. reflexivity. Qed.

(** C6, amended. [init] of the torch, keras and parquet drivers returns only
    if every step of it succeeds (environment variable, model file, model
    load) and raises otherwise: they catch nothing.  [init] of the text
    summariser returns if and only if the environment variable is set,
    [nvidia-smi] runs when CUDA is available, the tokenizer loads, and the
    model loads with [device_map="auto"] or, that load having raised, without
    it: the first load's exception is caught and the load retried once; only
    the retry's exception propagates, and a failed BetterTransformer
    conversion is caught as well. *)
Theorem C6_init_failure_propagation (host : Host) (w : worker) :
  ((init host w).1 = Ok tt <-> loads host w) /\
  (~ loads host w -> raises (init host w).1).
Proof.
  split; [apply init_loads|].
  intros Hno. destruct (init host w).1 as [[]|e] eqn:Hinit; [|by exists e].
  destruct Hno. by apply init_loads.
Qed.

(** ** Write mode *)

Section ParquetOutputs.
Context (lib : ParquetDriver.Lib).
Import ParquetDriver.

Lemma parquet_init_state (host : Host) (s0 s : process lib) :
  init lib host s0 = (Ok tt, s) ->
  output_path lib s = environ host !! "AZUREML_BI_OUTPUT_PATH" /\
  fs lib s = fs lib s0 /\ written lib s = written lib s0.
Proof.
  unfold init, set_model, set_output_path. monad. simpl.
  destruct (environ host !! "AZUREML_BI_OUTPUT_PATH") as [out|]; simpl; [|done].
  destruct (environ host !! "AZUREML_MODEL_DIR") as [model_path|]; simpl; [|done].
  destruct (last (glob host _)) as [model_file|]; simpl; [|done].
  destruct (pickle_load lib model_file) as [m|]; simpl; [|done].
  by intros [= <-].
Qed.

Lemma parquet_valid_batch (s : process lib) (out : string) (mb : list string) :
  output_path lib s = Some out ->
  valid_batch (ParquetWorker lib s) mb ->
  exists arts, run lib mb s = (Ok mb, wrote_all s arts) /\
               Forall2 (artifact_of s out) mb arts.
Proof.
  intros Hout [Hall Hkeep].
  destruct (parquet_batch_ok lib out mb s) as (arts & Hrun & Harts).
  - eapply Forall_impl; [exact Hall|]. intros p (df & pred & out' & Hs).
    exists df, pred. destruct Hs as [m ? ? ? ? Hout' ?].
    assert (out' = out) as <- by congruence. by econstructor.
  - by apply Hkeep.
  - exists arts. split; [|done]. unfold run, bind, ret. by rewrite Hrun.
Qed.

(** The parquet table of an item: the columns of the csv table, the
    [prediction] column set to the model's output. *)
Lemma scored_columns (df : frame (cell lib)) (pred : list (cell lib)) :
  length pred = nrows df ->
  get_column "prediction" (scored pred df) = Some pred /\
  (forall c, c <> "prediction" -> get_column c (scored pred df) = get_column c df) /\
  nrows (scored pred df) = nrows df /\
  column_names (scored pred df) =
    if decide ("prediction" ∈ column_names df) then column_names df
    else column_names df ++ ["prediction"].
Proof.
  intros Hlen. unfold scored. split; [apply get_put_column|].
  split; [intros c Hc; by apply get_put_column_ne|].
  split; [by apply nrows_put_column|].
  destruct (decide _); [by apply column_names_put_old|by apply column_names_put_new].
Qed.

End ParquetOutputs.

Lemma sample_parquet_processes (p : string) (df : frame nat) :
  sample_files !! p = Some (ParquetDriver.CsvFile df) ->
  processes sample_parquet_worker p.
Proof.
  intros Hp. exists df, (replicate (nrows df) 1), "/out".
  econstructor; try done. simpl. by rewrite length_replicate.
Qed.

(** C2. In write mode the driver sets the column [prediction] of the table
    that it has read from the csv file.  The claim, that the file written
    holds the rows of the input plus one added column, fails on a csv file
    that already has a column of that name: the parquet file written for it
    has the columns of the input and no more, and in its [prediction] column
    the values of the model, those of the input being lost. *)
Theorem C2_prediction_column_replaced (lib : ParquetDriver.Lib)
    (s : ParquetDriver.process lib) (p out : string)
    (df : frame (ParquetDriver.cell lib)) (pred : list (ParquetDriver.cell lib)) :
  parquet_scores lib s p df pred out ->
  "prediction" ∈ column_names df ->
  exists s' df',
    ParquetDriver.run lib [p] s = (Ok [p], s') /\
    ParquetDriver.fs lib s' !! ParquetDriver.output_file out p =
      Some (ParquetDriver.ParquetFile df') /\
    column_names df' = column_names df /\
    nrows df' = nrows df /\
    get_column "prediction" df' = Some pred /\
    (forall c, c <> "prediction" -> get_column c df' = get_column c df).
Proof.
  intros Hs Hcol.
  exists (wrote s (ParquetDriver.output_file out p) (scored pred df)), (scored pred df).
  split.
  - unfold ParquetDriver.run, for_each, bind, ret.
    by rewrite (parquet_score_ok lib s p df pred out Hs).
  - split; [apply lookup_insert_eq|].
    destruct (scored_columns lib df pred) as (Hpred & Hother & Hrows & Hnames);
      [by destruct Hs|].
    rewrite decide_True in Hnames by done. done.
Qed.

Lemma C2_witness :
  exists s' df',
    ParquetDriver.run sample_parquet ["in/scored.csv"] sample_parquet_process =
      (Ok ["in/scored.csv"], s') /\
    ParquetDriver.fs sample_parquet s' !! ParquetDriver.output_file "/out" "in/scored.csv" =
      Some (ParquetDriver.ParquetFile df') /\
    column_names df' = column_names [("age", [50]); ("prediction", [0])] /\
    nrows df' = nrows [("age", [50]); ("prediction", [0])] /\
    get_column "prediction" df' = Some [1] /\
    (forall c, c <> "prediction" ->
       get_column c df' = get_column c [("age", [50]); ("prediction", [0])]).
Proof.
  apply (C2_prediction_column_replaced sample_parquet sample_parquet_process
           "in/scored.csv" "/out" [("age", [50]); ("prediction", [0])] [1]).
  - by econstructor.
  - apply elem_of_cons. right. by left.
Defined.

(** C10. In write mode the output path of an item is the stem of its file
    name, with [.parquet], joined to the output directory.  Two valid items
    with the same stem are therefore written to the same path, in one
    mini-batch or in two successive ones, and after both writes the file
    there is the table of the later item. *)
Theorem C10_same_stem_same_output (lib : ParquetDriver.Lib)
    (s : ParquetDriver.process lib) (out p1 p2 : string) :
  ParquetDriver.output_path lib s = Some out ->
  stem p1 = stem p2 ->
  valid_batch (ParquetWorker lib s) [p1; p2] ->
  ParquetDriver.output_file out p1 = join out (stem p1 +:+ ".parquet") /\
  ParquetDriver.output_file out p1 = ParquetDriver.output_file out p2 /\
  exists df2 pred2,
    parquet_scores lib s p2 df2 pred2 out /\
    (exists s',
        ParquetDriver.run lib [p1; p2] s = (Ok [p1; p2], s') /\
        (ParquetDriver.written lib s').*1 =
          (ParquetDriver.written lib s).*1 ++
          [ParquetDriver.output_file out p1; ParquetDriver.output_file out p1] /\
        ParquetDriver.fs lib s' !! ParquetDriver.output_file out p1 =
          Some (ParquetDriver.ParquetFile (scored pred2 df2))) /\
    (exists s1 s2,
        ParquetDriver.run lib [p1] s = (Ok [p1], s1) /\
        ParquetDriver.run lib [p2] s1 = (Ok [p2], s2) /\
        ParquetDriver.fs lib s2 !! ParquetDriver.output_file out p1 =
          Some (ParquetDriver.ParquetFile (scored pred2 df2))).
Proof.
  intros Hout Hstem Hvalid. split; [done|].
  assert (ParquetDriver.output_file out p1 = ParquetDriver.output_file out p2) as Hpath.
  { unfold ParquetDriver.output_file. by rewrite Hstem. }
  split; [done|].
  destruct (parquet_valid_batch lib s out [p1; p2] Hout Hvalid) as (arts & Hrun & Harts).
  inversion Harts as [|? a1 ? arts1 (df1 & pred1 & Hs1 & ->) Harts1]; subst.
  inversion Harts1 as [|? a2 ? arts2 (df2 & pred2 & Hs2 & ->) Harts2]; subst.
  inversion Harts2; subst.
  exists df2, pred2. split; [done|]. split.
  - eexists. split; [exact Hrun|]. rewrite wrote_all_written, wrote_all_fs. split.
    + rewrite fmap_app. simpl. by rewrite Hpath.
    + simpl. rewrite Hpath. apply lookup_insert_eq.
  - pose proof (parquet_score_ok lib s p1 df1 pred1 out Hs1) as Hrun1.
    assert (parquet_scores lib (wrote s (ParquetDriver.output_file out p1) (scored pred1 df1))
              p2 df2 pred2 out) as Hs2'.
    { apply parquet_scores_wrote; [|done]. destruct Hvalid as [_ Hkeep].
      specialize (Hkeep out Hout). inversion Hkeep as [|? ? Hp1 _]; subst.
      intros Heq. apply Hp1. rewrite Heq. apply elem_of_cons. right. by left. }
    pose proof (parquet_score_ok lib _ p2 df2 pred2 out Hs2') as Hrun2.
    eexists _, _. unfold ParquetDriver.run, for_each, bind, ret.
    rewrite Hrun1. split; [done|]. rewrite Hrun2. split; [done|].
    simpl. rewrite Hpath. apply lookup_insert_eq.
Qed.

Lemma C10_witness :
  ParquetDriver.output_file "/out" "in/heart.csv" =
    join "/out" (stem "in/heart.csv" +:+ ".parquet") /\
  ParquetDriver.output_file "/out" "in/heart.csv" =
    ParquetDriver.output_file "/out" "more/heart.csv" /\
  exists df2 pred2,
    parquet_scores sample_parquet sample_parquet_process "more/heart.csv" df2 pred2 "/out" /\
    (exists s',
        ParquetDriver.run sample_parquet ["in/heart.csv"; "more/heart.csv"]
          sample_parquet_process = (Ok ["in/heart.csv"; "more/heart.csv"], s') /\
        (ParquetDriver.written sample_parquet s').*1 =
          (ParquetDriver.written sample_parquet sample_parquet_process).*1 ++
          [ParquetDriver.output_file "/out" "in/heart.csv";
           ParquetDriver.output_file "/out" "in/heart.csv"] /\
        ParquetDriver.fs sample_parquet s' !! ParquetDriver.output_file "/out" "in/heart.csv" =
          Some (ParquetDriver.ParquetFile (scored pred2 df2))) /\
    (exists s1 s2,
        ParquetDriver.run sample_parquet ["in/heart.csv"] sample_parquet_process =
          (Ok ["in/heart.csv"], s1) /\
        ParquetDriver.run sample_parquet ["more/heart.csv"] s1 =
          (Ok ["more/heart.csv"], s2) /\
        ParquetDriver.fs sample_parquet s2 !! ParquetDriver.output_file "/out" "in/heart.csv" =
          Some (ParquetDriver.ParquetFile (scored pred2 df2))).
Proof.
  apply (C10_same_stem_same_output sample_parquet sample_parquet_process
           "/out" "in/heart.csv" "more/heart.csv").
  - reflexivity.
  - reflexivity.
  - split.
    + repeat constructor; by eapply sample_parquet_processes.
    + intros out [= <-]. repeat constructor; intros Hin;
        repeat (apply elem_of_cons in Hin as [Hin|Hin]; [vm_compute in Hin; discriminate|]);
        by apply elem_of_nil in Hin.
Defined.

Example same_stem_overwrites :
  (ParquetDriver.run sample_parquet ["in/heart.csv"; "more/heart.csv"]
     sample_parquet_process).2 =
  wrote_all sample_parquet_process
    [("/out/heart.parquet", [("age", [63; 41]); ("chol", [233; 204]); ("prediction", [1; 1])]);
     ("/out/heart.parquet", [("age", [57]); ("chol", [192]); ("prediction", [1])])].
Proof. vm_compute. reflexivity. Qed.

(** * Further properties of the drivers *)

(** ** What the parquet driver writes *)

(** X19. In write mode, for a mini-batch of valid csv files that no output
    overwrites, [run] makes one [to_parquet] call per item, in order, at
    [<stem>.parquet] directly under the directory named by
    [AZUREML_BI_OUTPUT_PATH]; the table written has the rows and columns of
    the input with the [prediction] column set to the model's output, a new
    last column when the input has none of that name; [run] returns the
    input paths. *)
Theorem X19_parquet_outputs (lib : ParquetDriver.Lib) (host : Host)
    (s0 s : ParquetDriver.process lib) (out : string) (mini_batch : list string) :
  ParquetDriver.init lib host s0 = (Ok tt, s) ->
  environ host !! "AZUREML_BI_OUTPUT_PATH" = Some out ->
  valid_batch (ParquetWorker lib s) mini_batch ->
  exists s' arts,
    ParquetDriver.run lib mini_batch s = (Ok mini_batch, s') /\
    ParquetDriver.written lib s' = ParquetDriver.written lib s ++ arts /\
    ParquetDriver.fs lib s' = after_writes (ParquetDriver.fs lib s) arts /\
    Forall2
      (fun p a =>
         a.1 = join out (stem p +:+ ".parquet") /\
         basename a.1 = stem p +:+ ".parquet" /\
         exists df pred,
           parquet_scores lib s p df pred out /\
           get_column "prediction" a.2 = Some pred /\
           (forall c, c <> "prediction" -> get_column c a.2 = get_column c df) /\
           nrows a.2 = nrows df /\
           column_names a.2 =
             if decide ("prediction" ∈ column_names df) then column_names df
             else column_names df ++ ["prediction"])
      mini_batch arts.
Proof.
  intros Hinit Henv Hvalid.
  destruct (parquet_init_state lib host s0 s Hinit) as (Hout & _ & _).
  rewrite Henv in Hout.
  destruct (parquet_valid_batch lib s out mini_batch Hout Hvalid) as (arts & Hrun & Harts).
  exists (wrote_all s arts), arts. split; [done|].
  split; [apply wrote_all_written|]. split; [apply wrote_all_fs|].
  eapply Forall2_impl; [exact Harts|]. intros p a (df & pred & Hs & ->). simpl.
  split; [done|]. split.
  - apply basename_join. rewrite contains_app, stem_slash_free. done.
  - exists df, pred. split; [done|]. apply scored_columns. by destruct Hs.
Qed.

Lemma X19_witness :
  exists s' arts,
    ParquetDriver.run sample_parquet ["in/heart.csv"; "in/scored.csv"]
      sample_parquet_process =
      (Ok ["in/heart.csv"; "in/scored.csv"], s') /\
    ParquetDriver.written sample_parquet s' =
      ParquetDriver.written sample_parquet sample_parquet_process ++ arts /\
    ParquetDriver.fs sample_parquet s' =
      after_writes (ParquetDriver.fs sample_parquet sample_parquet_process) arts /\
    Forall2
      (fun p a =>
         a.1 = join "/out" (stem p +:+ ".parquet") /\
         basename a.1 = stem p +:+ ".parquet" /\
         exists df pred,
           parquet_scores sample_parquet sample_parquet_process p df pred "/out" /\
           get_column "prediction" a.2 = Some pred /\
           (forall c, c <> "prediction" -> get_column c a.2 = get_column c df) /\
           nrows a.2 = nrows df /\
           column_names a.2 =
             if decide ("prediction" ∈ column_names df) then column_names df
             else column_names df ++ ["prediction"])
      ["in/heart.csv"; "in/scored.csv"] arts.
Proof.
  apply (X19_parquet_outputs sample_parquet sample_host
           (ParquetDriver.unbound sample_parquet sample_files)).
  - vm_compute. reflexivity.
  - reflexivity.
  - split.
    + repeat constructor; by eapply sample_parquet_processes.
    + intros out [= <-]. repeat constructor; intros Hin;
        repeat (apply elem_of_cons in Hin as [Hin|Hin]; [vm_compute in Hin; discriminate|]);
        by apply elem_of_nil in Hin.
Defined.

(** ** Before [init] *)

(** X3. [run] before [init]: on a worker whose globals are unbound, [run]
    raises on every non-empty mini-batch, for each of the four drivers, and
    the parquet driver writes nothing. *)
Theorem X3_run_before_init_raises (w : worker) (mini_batch : list string) :
  uninitialised w ->
  mini_batch <> [] ->
  raises (run w mini_batch).1 /\
  written_paths (run w mini_batch).2 = written_paths w.
Proof.
  intros Hun Hne. split.
  - destruct (run w mini_batch) as [[out|e] w'] eqn:Hrun; [|by exists e]. exfalso.
    pose proof (run_ok_processes _ _ _ _ Hrun) as Hall.
    destruct mini_batch as [|p mb]; [done|]. apply Forall_cons in Hall as [Hp _].
    destruct w as [lib g|lib g|lib s|lib s]; simpl in *.
    + destruct Hun as [Hm _]. destruct Hp as (logits & [m ? ? ? Hm' _ _ _ _] & _). congruence.
    + destruct Hp as (logits & [m ? Hm' _ _] & _). congruence.
    + unfold on_worker in Hrun. injection Hrun as Hrun _.
      destruct (SummarizationDriver.run lib (p :: mb) s).1 as [ys|e] eqn:Hys; [|done].
      apply summarizer_run_inv in Hys as (texts0 & _ & Hc & Htexts).
      destruct texts0 as [|text texts]; [done|]. csimpl in Hc.
      destruct (SummarizationDriver.summarize lib text s).1 as [y|e] eqn:Hy; [|done].
      apply summarize_inv in Hy as [t ? ? ? ? ? Ht _ _ _ _ _ _].
      destruct Hun as (_ & Ht' & _). congruence.
    + destruct Hun as [Hm _]. destruct Hp as (df & pred & o & [m ? Hm' _ _ _ _]). congruence.
  - destruct w as [lib g|lib g|lib s|lib s]; try done. simpl.
    destruct mini_batch as [|p mb]; [done|].
    unfold on_worker, ParquetDriver.run, for_each, bind. simpl.
    destruct (parquet_score_cases lib s p) as [(df & pred & out & [m ? Hm' _ _ _ _])|(e & -> & _)].
    + destruct Hun as [Hm _]. congruence.
    + done.
Qed.

Lemma X3_witness :
  raises (run (ParquetWorker sample_parquet
                 (ParquetDriver.unbound sample_parquet sample_files))
            ["in/heart.csv"]).1 /\
  written_paths (run (ParquetWorker sample_parquet
                        (ParquetDriver.unbound sample_parquet sample_files))
                   ["in/heart.csv"]).2 =
  written_paths (ParquetWorker sample_parquet
                   (ParquetDriver.unbound sample_parquet sample_files)).
Proof.
  apply (X3_run_before_init_raises
           (ParquetWorker sample_parquet (ParquetDriver.unbound sample_parquet sample_files))
           ["in/heart.csv"]).
  - split; reflexivity.
  - discriminate.
Defined.

(** ** What [init] binds *)

(** X4. [init] of the torch, keras and parquet drivers returns exactly when
    every step succeeds, and then the globals are those of the load alone,
    whatever was bound before: the torch driver takes the last file that the
    glob pattern matches, loads its weights into a fresh network, puts it in
    evaluation mode and picks [cuda:0] exactly when CUDA is available; the
    parquet driver binds the output directory and the unpickled model and
    leaves the file system alone. *)
Theorem X4_init_binds_globals :
  (forall (lib : TorchDriver.Lib) (host : Host) (g g' : TorchDriver.globals lib),
      TorchDriver.init lib host g = (Ok tt, g') <->
      exists model_path model_file weights m,
        environ host !! "AZUREML_MODEL_DIR" = Some model_path /\
        last (glob host (model_path +:+ "/*/*.pt")) = Some model_file /\
        TorchDriver.torch_load lib model_file = Some weights /\
        TorchDriver.load_state_dict lib (TorchDriver.MnistClassifier lib) weights = Some m /\
        g' = TorchDriver.Build_globals lib (Some (TorchDriver.eval lib m))
               (Some (if TorchDriver.cuda_is_available lib then Cuda0 else Cpu))) /\
  (forall (lib : KerasDriver.Lib) (host : Host) (g g' : KerasDriver.globals lib),
      KerasDriver.init lib host g = (Ok tt, g') <->
      exists dir m,
        environ host !! "AZUREML_MODEL_DIR" = Some dir /\
        KerasDriver.load_model lib (join dir "model") = Some m /\
        g' = KerasDriver.Build_globals lib (Some m)) /\
  (forall (lib : ParquetDriver.Lib) (host : Host) (s s' : ParquetDriver.process lib),
      ParquetDriver.init lib host s = (Ok tt, s') <->
      exists out model_path model_file m,
        environ host !! "AZUREML_BI_OUTPUT_PATH" = Some out /\
        environ host !! "AZUREML_MODEL_DIR" = Some model_path /\
        last (glob host (model_path +:+ "/*/*.pkl")) = Some model_file /\
        ParquetDriver.pickle_load lib model_file = Some m /\
        s' = ParquetDriver.Build_process lib (Some m) (Some out)
               (ParquetDriver.fs lib s) (ParquetDriver.written lib s)).
Proof.
  split; [|split].
  - intros lib host g g'.
    unfold TorchDriver.init, TorchDriver.set_model, TorchDriver.get_model,
      TorchDriver.set_device. monad. simpl.
    destruct (environ host !! "AZUREML_MODEL_DIR") as [model_path|]; simpl; [|cannot_load].
    destruct (last (glob host _)) as [model_file|] eqn:Hglob; simpl; [|cannot_load].
    destruct (TorchDriver.torch_load lib model_file) as [weights|] eqn:Hload; simpl;
      [|cannot_load].
    destruct (TorchDriver.load_state_dict lib _ weights) as [m|] eqn:Hsd; simpl;
      [|cannot_load].
    split.
    + intros [= <-]. by exists model_path, model_file, weights, m.
    + intros (? & ? & ? & ? & [= <-] & Hg & Hl & Hs & ->).
      rewrite Hglob in Hg. injection Hg as <-. rewrite Hload in Hl. injection Hl as <-.
      rewrite Hsd in Hs. by injection Hs as <-.
  - intros lib host g g'. unfold KerasDriver.init, KerasDriver.set_model. monad. simpl.
    destruct (environ host !! "AZUREML_MODEL_DIR") as [dir|]; simpl; [|cannot_load].
    destruct (KerasDriver.load_model lib _) as [m|] eqn:Hload; simpl; [|cannot_load].
    split.
    + intros [= <-]. by exists dir, m.
    + intros (? & ? & [= <-] & Hl & ->). rewrite Hload in Hl. by injection Hl as <-.
  - intros lib host s s'.
    unfold ParquetDriver.init, ParquetDriver.set_model, ParquetDriver.set_output_path.
    monad. simpl.
    destruct (environ host !! "AZUREML_BI_OUTPUT_PATH") as [out|]; simpl; [|cannot_load].
    destruct (environ host !! "AZUREML_MODEL_DIR") as [model_path|]; simpl; [|cannot_load].
    destruct (last (glob host _)) as [model_file|] eqn:Hglob; simpl; [|cannot_load].
    destruct (ParquetDriver.pickle_load lib model_file) as [m|] eqn:Hload; simpl;
      [|cannot_load].
    split.
    + intros [= <-]. by exists out, model_path, model_file, m.
    + intros (? & ? & ? & ? & [= <-] & [= <-] & Hg & Hl & ->).
      rewrite Hglob in Hg. injection Hg as <-. rewrite Hload in Hl. by injection Hl as <-.
Qed.

(** X5. What a successful [init] of the text summariser leaves behind: the
    tokenizer, a model and a device are bound, and the device and the type
    of the model are logged to mlflow, as bound.  When the model loads with
    [device_map="auto"], the device is ["cuda"] exactly when CUDA is
    available, and the model is converted by BetterTransformer only then
    (the unconverted model is kept if the conversion raises).  When that load
    raises, the model is the one loaded without [device_map], the device is
    ["cpu"] even if CUDA is available, and no conversion is attempted. *)
Theorem X5_summarizer_init_binds (lib : SummarizationDriver.Lib) (host : Host)
    (s s' : SummarizationDriver.process lib) :
  SummarizationDriver.init lib host s = (Ok tt, s') ->
  exists dir t m d,
    environ host !! "AZUREML_MODEL_DIR" = Some dir /\
    SummarizationDriver.AutoTokenizer_from_pretrained lib (join dir "model") = Some t /\
    s' = SummarizationDriver.Build_process lib (Some m) (Some t) (Some d)
           (SummarizationDriver.mlflow_params lib s ++
              [("device", d); ("model", SummarizationDriver.type_name lib m)])
           (SummarizationDriver.mlflow_metrics lib s)
           (SummarizationDriver.clock lib s) /\
    match SummarizationDriver.from_pretrained_auto lib (join dir "model") with
    | Some m0 =>
        if SummarizationDriver.cuda_is_available lib
        then d = "cuda" /\
             m = default m0 (SummarizationDriver.BetterTransformer_transform lib m0)
        else d = "cpu" /\ m = m0
    | None =>
        d = "cpu" /\ SummarizationDriver.from_pretrained lib (join dir "model") = Some m
    end.
Proof.
  unfold SummarizationDriver.init, SummarizationDriver.set_model,
    SummarizationDriver.set_tokenizer, SummarizationDriver.set_device,
    SummarizationDriver.get_model, SummarizationDriver.get_device,
    SummarizationDriver.log_param. monad. simpl.
  destruct (SummarizationDriver.cuda_is_available lib) eqn:Hc; simpl.
  - destruct (SummarizationDriver.nvidia_smi lib) as [smi|]; simpl; [|done].
    destruct (environ host !! "AZUREML_MODEL_DIR") as [dir|]; simpl; [|done].
    destruct (SummarizationDriver.AutoTokenizer_from_pretrained lib _) as [t|] eqn:Ht;
      simpl; [|done].
    destruct (SummarizationDriver.from_pretrained_auto lib _) as [m0|] eqn:Hauto; simpl.
    + destruct (SummarizationDriver.BetterTransformer_transform lib m0) as [m1|] eqn:Hbt;
        simpl; intros [= <-].
      * exists dir, t, m1, "cuda". rewrite Hauto, Hbt, <- app_assoc. done.
      * exists dir, t, m0, "cuda". rewrite Hauto, Hbt, <- app_assoc. done.
    + destruct (SummarizationDriver.from_pretrained lib _) as [m|] eqn:Hcpu; simpl; [|done].
      intros [= <-]. exists dir, t, m, "cpu". rewrite Hauto, <- app_assoc. done.
  - destruct (environ host !! "AZUREML_MODEL_DIR") as [dir|]; simpl; [|done].
    destruct (SummarizationDriver.AutoTokenizer_from_pretrained lib _) as [t|] eqn:Ht;
      simpl; [|done].
    destruct (SummarizationDriver.from_pretrained_auto lib _) as [m0|] eqn:Hauto; simpl.
    + intros [= <-]. exists dir, t, m0, "cpu". rewrite Hauto, <- app_assoc. done.
    + destruct (SummarizationDriver.from_pretrained lib _) as [m|] eqn:Hcpu; simpl; [|done].
      intros [= <-]. exists dir, t, m, "cpu". rewrite Hauto, <- app_assoc. done.
Qed.

Lemma X5_witness :
  exists dir t m d,
    environ sample_host !! "AZUREML_MODEL_DIR" = Some dir /\
    SummarizationDriver.AutoTokenizer_from_pretrained (sample_summarizer false)
      (join dir "model") = Some t /\
    SummarizationDriver.Build_process (sample_summarizer false)
      (Some tt) (Some tt) (Some "cpu")
      [("device", "cpu"); ("model", "BartForConditionalGeneration")] [] 0 =
    SummarizationDriver.Build_process (sample_summarizer false) (Some m) (Some t) (Some d)
      (SummarizationDriver.mlflow_params (sample_summarizer false)
         (SummarizationDriver.unbound (sample_summarizer false)) ++
       [("device", d); ("model", SummarizationDriver.type_name (sample_summarizer false) m)])
      (SummarizationDriver.mlflow_metrics (sample_summarizer false)
         (SummarizationDriver.unbound (sample_summarizer false)))
      (SummarizationDriver.clock (sample_summarizer false)
         (SummarizationDriver.unbound (sample_summarizer false))) /\
    match SummarizationDriver.from_pretrained_auto (sample_summarizer false)
            (join dir "model") with
    | Some m0 =>
        if SummarizationDriver.cuda_is_available (sample_summarizer false)
        then d = "cuda" /\
             m = default m0
                   (SummarizationDriver.BetterTransformer_transform (sample_summarizer false) m0)
        else d = "cpu" /\ m = m0
    | None =>
        d = "cpu" /\
        SummarizationDriver.from_pretrained (sample_summarizer false) (join dir "model") = Some m
    end.
Proof.
  apply (X5_summarizer_init_binds (sample_summarizer false) sample_host
           (SummarizationDriver.unbound (sample_summarizer false))).
  vm_compute. reflexivity.
Defined.

(** ** What the summariser logs *)

Section SummarizerEffects.
Context (lib : SummarizationDriver.Lib).
Import SummarizationDriver.

Lemma ticked_0 (s : process lib) : ticked s 0 = s.
Proof. destruct s. unfold ticked. simpl. by rewrite Nat.add_0_r. Qed.

Lemma ticked_ticked (s : process lib) (n k : nat) : ticked (ticked s n) k = ticked s (n + k).
Proof. unfold ticked. simpl. by rewrite Nat.add_assoc. Qed.

Lemma read_clock_ticks (s : process lib) :
  read_clock lib s = (Ok (perf_counter lib (clock lib s)), ticked s 1).
Proof. unfold read_clock, ticked. monad. simpl. by rewrite Nat.add_1_r. Qed.

Lemma summaries_ticked (s : process lib) (n : nat) (texts : list string) :
  (fun text => (summarize lib text (ticked s n)).1) <$> texts =
  (fun text => (summarize lib text s).1) <$> texts.
Proof. apply list_fmap_ext. intros _ text _. by apply summarize_globals. Qed.

Lemma loop_effects (start : time lib) (texts : list string) :
  forall (ys : list string) (idx : nat) (acc : list string)
         (rps : option (metric lib)) (s : process lib),
  collect ((fun text => (summarize lib text s).1) <$> texts) = Ok ys ->
  loop lib start idx texts acc rps s =
    (Ok (acc ++ ys,
         match texts with
         | [] => rps
         | _ :: _ =>
             Some (rows_per_second lib (idx + length texts - 1) start
                     (perf_counter lib (clock lib s + length texts - 1)))
         end),
     ticked s (length texts)).
Proof.
  induction texts as [|text texts IH]; intros ys idx acc rps s; csimpl.
  - intros [= <-]. unfold ret. by rewrite app_nil_r, ticked_0.
  - pose proof (summarize_read_only lib text s) as Hro.
    destruct (summarize lib text s) as [[y|e] s0] eqn:Hy; simpl in Hro; subst s0;
      simpl; [|done].
    destruct (collect _) as [ys'|e] eqn:Hc; [|done]. intros [= <-].
    unfold bind. rewrite Hy, read_clock_ticks.
    rewrite (IH ys' (S idx) (acc ++ [y]) _ (ticked s 1)) by (by rewrite summaries_ticked).
    rewrite ticked_ticked, <- app_assoc. simpl. f_equal. f_equal.
    destruct texts as [|text' texts]; simpl; repeat first [lia | progress f_equal].
Qed.

Lemma summarizer_run_effects (mb : list string) (s : process lib)
    (texts ys : list string) :
  texts_of lib mb = Some texts ->
  collect ((fun text => (summarize lib text s).1) <$> texts) = Ok ys ->
  texts <> [] ->
  run lib mb s = (Ok ys, after_run s (length ys)).
Proof.
  intros Ht Hys Hne.
  assert (length ys = length texts) as Hlen.
  { apply collect_length in Hys. by rewrite length_fmap in Hys. }
  unfold texts_of in Ht. unfold run, bind, lift, ret, raise.
  destruct (load_dataset lib mb) as [ds|]; [|done]. simpl in Ht.
  cbv beta iota. rewrite read_clock_ticks, Ht. cbv beta iota.
  rewrite (loop_effects _ _ ys) by (by rewrite summaries_ticked).
  destruct texts as [|text texts]; [done|].
  simpl. unfold log_metric, after_run, ticked. unfold modify. simpl.
  rewrite Hlen. simpl. repeat first [lia | progress f_equal].
Qed.

End SummarizerEffects.

Section SummarizerLog.
Context (lib : SummarizationDriver.Lib).
Import SummarizationDriver.

Lemma loop_state (start : time lib) (texts : list string) :
  forall (idx : nat) (acc : list string) (rps : option (metric lib)) (s : process lib),
  exists n, (loop lib start idx texts acc rps s).2 = ticked s n.
Proof.
  induction texts as [|text texts IH]; intros idx acc rps s; simpl.
  - exists 0. by rewrite ticked_0.
  - unfold bind. pose proof (summarize_read_only lib text s) as Hro.
    destruct (summarize lib text s) as [[y|e] s0]; simpl in Hro; subst s0.
    + rewrite read_clock_ticks.
      destruct (IH (S idx) (acc ++ [y])
                  (Some (rows_per_second lib idx start (perf_counter lib (clock lib s))))
                  (ticked s 1)) as [n Hn].
      exists (1 + n). by rewrite Hn, ticked_ticked.
    + exists 0. by rewrite ticked_0.
Qed.

(** X6. A call of [run] on a mini-batch whose data set has [n >= 1] rows of
    text, each of which the loaded model summarises, returns the [n]
    summaries in the order of the rows, reads the clock [n + 1] times, and
    logs one metric, [rows_per_second], computed from the index [n - 1] of the
    last row (the index that [enumerate] gives, which starts at zero) and the
    readings before the loop and after the last row; globals and logged
    parameters stay as they were. *)
Theorem X6_summarizer_run_logs_rate (s : process lib) (mini_batch : list string)
    (texts ys : list string) :
  texts_of lib mini_batch = Some texts ->
  Forall2 (summarizes lib s) texts ys ->
  texts <> [] ->
  run lib mini_batch s = (Ok ys, after_run s (length ys)).
Proof.
  intros Ht Hys Hne. eapply summarizer_run_effects; [done| |done].
  by apply summaries_Forall2.
Qed.

(** X7. A call of [run] that raises logs nothing: the process is left with
    its globals, its logged parameters and its logged metrics as they were;
    only the clock has been read some number of times. *)
Theorem X7_summarizer_failed_run_logs_nothing (s : process lib) (mini_batch : list string) :
  raises (run lib mini_batch s).1 ->
  exists n, (run lib mini_batch s).2 = ticked s n.
Proof.
  unfold run, bind, lift, ret, raise.
  destruct (load_dataset lib mini_batch) as [ds|];
    [|intros _; exists 0; by rewrite ticked_0].
  cbv beta iota. rewrite read_clock_ticks. cbv beta iota.
  destruct (get_column "text" ds) as [texts|]; [|intros _; by exists 1].
  cbv beta iota.
  destruct (loop_state (perf_counter lib (clock lib s)) texts 0 [] None (ticked s 1))
    as [n Hn].
  destruct (loop lib _ 0 texts [] None (ticked s 1)) as [[out|e] s1]; simpl in Hn; subst s1;
    [|intros _; exists (1 + n); by rewrite ticked_ticked].
  destruct out as [ys [rps|]]; simpl.
  - unfold log_metric. monad. simpl. intros [e He]. done.
  - intros _. exists (1 + n). by rewrite ticked_ticked.
Qed.

End SummarizerLog.

Lemma X6_witness :
  SummarizationDriver.run (sample_summarizer true) ["bills/part-0.csv"; "bills/part-1.csv"]
    (SummarizationDriver.Build_process (sample_summarizer true)
       (Some tt) (Some tt) (Some "cpu") [] [] 0) =
  (Ok ["An act to amend"; "A bill to provide"; "A resolution"],
   after_run (SummarizationDriver.Build_process (sample_summarizer true)
                (Some tt) (Some tt) (Some "cpu") [] [] 0)
     (length ["An act to amend"; "A bill to provide"; "A resolution"])).
Proof.
  apply (X6_summarizer_run_logs_rate (sample_summarizer true)
           (SummarizationDriver.Build_process (sample_summarizer true)
              (Some tt) (Some tt) (Some "cpu") [] [] 0)
           ["bills/part-0.csv"; "bills/part-1.csv"]
           ["An act to amend"; "A bill to provide"; "A resolution"]).
  - reflexivity.
  - repeat constructor; apply sample_summarizes.
  - discriminate.
Defined.

Lemma X7_witness :
  exists n,
    (SummarizationDriver.run (sample_summarizer true) ["bills/part-0.csv"; "bills/lost.csv"]
       (SummarizationDriver.Build_process (sample_summarizer true)
          (Some tt) (Some tt) (Some "cpu") [] [] 0)).2 =
    ticked (SummarizationDriver.Build_process (sample_summarizer true)
              (Some tt) (Some tt) (Some "cpu") [] [] 0) n.
Proof.
  apply (X7_summarizer_failed_run_logs_nothing (sample_summarizer true)).
  eexists. vm_compute. reflexivity.
Defined.

(** ** What the parquet driver touches *)

Section ParquetFrame.
Context (lib : ParquetDriver.Lib).
Import ParquetDriver.

Lemma for_each_score_fs (mb : list string) :
  forall (s : process lib) (path : string),
  (forall out p, output_path lib s = Some out -> p ∈ mb -> output_file out p <> path) ->
  fs lib (for_each mb (score lib) s).2 !! path = fs lib s !! path.
Proof.
  induction mb as [|p mb IH]; intros s path Hpath; simpl; [done|].
  unfold bind.
  destruct (parquet_score_cases lib s p) as [(df & pred & out & H)|(e & -> & _)]; [|done].
  rewrite (parquet_score_ok _ _ _ _ _ _ H). rewrite IH.
  - simpl. apply lookup_insert_ne. destruct H. apply Hpath; [done|by left].
  - simpl. intros out' q Hout Hq. apply Hpath; [done|by right].
Qed.

Lemma for_each_score_keeps (mb : list string) :
  forall (s : process lib) (path : string),
  is_Some (fs lib s !! path) -> is_Some (fs lib (for_each mb (score lib) s).2 !! path).
Proof.
  induction mb as [|p mb IH]; intros s path Hpath; simpl; [done|].
  unfold bind.
  destruct (parquet_score_cases lib s p) as [(df & pred & out & H)|(e & -> & _)]; [|done].
  rewrite (parquet_score_ok _ _ _ _ _ _ H). apply IH. simpl.
  destruct (decide (output_file out p = path)) as [->|Hne].
  - rewrite lookup_insert_eq. by eexists.
  - by rewrite lookup_insert_ne.
Qed.

(** X8. [run] of the parquet driver, returning or raising, removes no file
    and changes none but the output files of its items: a path that is not
    [<output_path>/<stem>.parquet] for an item of the mini-batch holds after
    the call what it held before. *)
Theorem X8_parquet_run_frame (s : process lib) (mini_batch : list string) :
  (forall path, is_Some (fs lib s !! path) ->
                is_Some (fs lib (run lib mini_batch s).2 !! path)) /\
  (forall path,
      (forall out p, output_path lib s = Some out -> p ∈ mini_batch ->
                     output_file out p <> path) ->
      fs lib (run lib mini_batch s).2 !! path = fs lib s !! path).
Proof.
  assert ((run lib mini_batch s).2 = (for_each mini_batch (score lib) s).2) as ->.
  { unfold run, bind, ret. by destruct (for_each mini_batch (score lib) s) as [[[]|e] s1]. }
  split; intros path H; [by apply for_each_score_keeps|by apply for_each_score_fs].
Qed.

(** X9. When the items before [p] are valid and [p] cannot be loaded or
    processed, [run] raises at [p]: the parquet files of the items before it
    have been written and stay, and no item after [p] is processed. *)
Theorem X9_parquet_partial_outputs (s : process lib) (out : string)
    (before : list string) (p : string) (rest : list string) :
  output_path lib s = Some out ->
  valid_batch (ParquetWorker lib s) before ->
  ~ processes (ParquetWorker lib s) p ->
  exists e arts,
    run lib (before ++ p :: rest) s = (Raise e, wrote_all s arts) /\
    Forall2 (artifact_of s out) before arts.
Proof.
  intros Hout Hvalid Hbad.
  destruct (parquet_valid_batch lib s out before Hout Hvalid) as (arts & Hrun & Harts).
  assert (for_each before (score lib) s = (Ok tt, wrote_all s arts)) as Hfor.
  { unfold run, bind, ret in Hrun.
    pose proof (for_each_score_later lib before s) as Hl.
    destruct (for_each before (score lib) s) as [[[]|e] s1]; [|done].
    by injection Hrun as ->. }
  assert (later s (wrote_all s arts)) as Hlater.
  { pose proof (for_each_score_later lib before s) as Hl. by rewrite Hfor in Hl. }
  destruct (parquet_score_cases lib (wrote_all s arts) p)
    as [(df & pred & out' & H)|(e & He & _)].
  - destruct Hbad. exists df, pred, out'. by eapply parquet_scores_later.
  - exists e, arts. split; [|done].
    unfold run, bind. rewrite for_each_app, Hfor. simpl. unfold bind. by rewrite He.
Qed.

End ParquetFrame.

Lemma X9_witness :
  exists e arts,
    ParquetDriver.run sample_parquet (["in/heart.csv"] ++ "in/lost.csv" :: ["in/scored.csv"])
      sample_parquet_process = (Raise e, wrote_all sample_parquet_process arts) /\
    Forall2 (artifact_of sample_parquet_process "/out") ["in/heart.csv"] arts.
Proof.
  apply (X9_parquet_partial_outputs sample_parquet sample_parquet_process "/out"
           ["in/heart.csv"] "in/lost.csv" ["in/scored.csv"]).
  - reflexivity.
  - split.
    + repeat constructor; by eapply sample_parquet_processes.
    + intros out [= <-]. repeat constructor; intros Hin;
        repeat (apply elem_of_cons in Hin as [Hin|Hin]; [vm_compute in Hin; discriminate|]);
        by apply elem_of_nil in Hin.
  - intros (df & pred & out & [m Hfs _ _ _ _ _]). vm_compute in Hfs. discriminate.
Defined.

(** ** Output names *)

Lemma length_app_str (x y : string) :
  String.length (x +:+ y) = String.length x + String.length y.
Proof.
  induction x as [|a x IH]; [done|].
  change (S (String.length (x +:+ y)) = S (String.length x + String.length y)).
  by rewrite IH.
Qed.

Lemma app_inv_head_str (a x y : string) : a +:+ x = a +:+ y -> x = y.
Proof.
  induction a as [|c a IH]; [done|].
  change (String c (a +:+ x) = String c (a +:+ y) -> x = y). intros [= H]. by apply IH.
Qed.

Lemma app_inv_tail_str (z x y : string) : x +:+ z = y +:+ z -> x = y.
Proof.
  revert y. induction x as [|c x IH]; intros [|d y] H; [done| | |].
  - apply (f_equal String.length) in H. rewrite !length_app_str in H. simpl in H. lia.
  - apply (f_equal String.length) in H. rewrite !length_app_str in H. simpl in H. lia.
  - change (String c (x +:+ z) = String d (y +:+ z)) in H. injection H as -> H.
    f_equal. by apply IH.
Qed.

Lemma join_inj (a b1 b2 : string) :
  startswith slash b1 = false -> startswith slash b2 = false ->
  join a b1 = join a b2 -> b1 = b2.
Proof.
  unfold join. intros -> ->. destruct (is_empty a || endswith slash a).
  - apply app_inv_head_str.
  - intros H%app_inv_head_str. by injection H.
Qed.

Lemma file_name_not_absolute (p : string) :
  startswith slash (stem p +:+ ".parquet") = false.
Proof.
  pose proof (stem_slash_free p) as H. destruct (stem p) as [|c n]; [done|].
  simpl in H. apply orb_false_iff in H as [H _]. exact H.
Qed.

(** Different stems give different output files. *)
Lemma output_file_inj (out p1 p2 : string) :
  ParquetDriver.output_file out p1 = ParquetDriver.output_file out p2 -> stem p1 = stem p2.
Proof.
  unfold ParquetDriver.output_file.
  intros H%join_inj; [|apply file_name_not_absolute..]. by eapply app_inv_tail_str.
Qed.

Lemma after_writes_other {C} (arts : list (string * frame C)) :
  forall (files : gmap string (ParquetDriver.file_data C)) (path : string),
  path ∉ arts.*1 -> after_writes files arts !! path = files !! path.
Proof.
  induction arts as [|[q df] arts IH]; intros files path Hpath; [done|].
  csimpl in Hpath. apply not_elem_of_cons in Hpath as [Hne Hnin].
  unfold after_writes in *. simpl. rewrite IH by done. by apply lookup_insert_ne.
Qed.

Lemma after_writes_lookup {C} (arts : list (string * frame C)) :
  forall (files : gmap string (ParquetDriver.file_data C)) (path : string) (df : frame C),
  NoDup arts.*1 -> (path, df) ∈ arts ->
  after_writes files arts !! path = Some (ParquetDriver.ParquetFile df).
Proof.
  induction arts as [|[q dq] arts IH]; intros files path df Hnd Hin.
  - by apply elem_of_nil in Hin.
  - csimpl in Hnd. apply NoDup_cons in Hnd as [Hq Hnd].
    apply elem_of_cons in Hin as [[= -> ->]|Hin].
    + change (after_writes (<[q := ParquetDriver.ParquetFile dq]> files) arts !! q =
              Some (ParquetDriver.ParquetFile dq)).
      rewrite after_writes_other by done. apply lookup_insert_eq.
    + change (after_writes (<[q := ParquetDriver.ParquetFile dq]> files) arts !! path =
              Some (ParquetDriver.ParquetFile df)).
      by apply IH.
Qed.

(** X10. For a mini-batch of valid csv files with pairwise different stems,
    [run] of the parquet driver writes to pairwise different paths, and when
    it returns the output directory holds, for every item, the parquet file
    with that item's table. *)
Theorem X10_distinct_stems_distinct_files (lib : ParquetDriver.Lib)
    (s : ParquetDriver.process lib) (out : string) (mini_batch : list string) :
  ParquetDriver.output_path lib s = Some out ->
  valid_batch (ParquetWorker lib s) mini_batch ->
  NoDup (stem <$> mini_batch) ->
  exists s' arts,
    ParquetDriver.run lib mini_batch s = (Ok mini_batch, s') /\
    ParquetDriver.written lib s' = ParquetDriver.written lib s ++ arts /\
    NoDup arts.*1 /\
    Forall2 (fun p a =>
               artifact_of s out p a /\
               ParquetDriver.fs lib s' !! ParquetDriver.output_file out p =
                 Some (ParquetDriver.ParquetFile a.2))
            mini_batch arts.
Proof.
  intros Hout Hvalid Hstems.
  destruct (parquet_valid_batch lib s out mini_batch Hout Hvalid) as (arts & Hrun & Harts).
  assert (arts.*1 = ParquetDriver.output_file out <$> mini_batch) as Hpaths.
  { clear -Harts. induction Harts as [|p a mb arts (df & pred & _ & ->) _ IH]; csimpl; [done|].
    by rewrite IH. }
  assert (NoDup arts.*1) as Hnd.
  { rewrite Hpaths. clear -Hstems. induction mini_batch as [|p mb IH]; csimpl; [constructor|].
    csimpl in Hstems. apply NoDup_cons in Hstems as [Hp Hmb].
    apply NoDup_cons. split; [|by apply IH].
    intros (q & Heq & Hq)%list_elem_of_fmap. apply Hp.
    apply list_elem_of_fmap. exists q. split; [by apply output_file_inj in Heq|done]. }
  exists (wrote_all s arts), arts. split; [done|].
  split; [apply wrote_all_written|]. split; [done|].
  rewrite wrote_all_fs.
  apply Forall2_same_length_lookup. split; [by eapply Forall2_length|].
  intros i p a Hp Ha. destruct (Forall2_lookup_l _ _ _ _ _ Harts Hp) as (a' & Ha' & Hart).
  assert (a' = a) as -> by congruence. split; [done|].
  destruct Hart as (df & pred & _ & ->). simpl.
  apply after_writes_lookup; [done|]. by eapply list_elem_of_lookup_2.
Qed.

Lemma X10_witness :
  exists s' arts,
    ParquetDriver.run sample_parquet ["in/heart.csv"; "in/scored.csv"]
      sample_parquet_process = (Ok ["in/heart.csv"; "in/scored.csv"], s') /\
    ParquetDriver.written sample_parquet s' =
      ParquetDriver.written sample_parquet sample_parquet_process ++ arts /\
    NoDup arts.*1 /\
    Forall2 (fun p a =>
               artifact_of sample_parquet_process "/out" p a /\
               ParquetDriver.fs sample_parquet s' !! ParquetDriver.output_file "/out" p =
                 Some (ParquetDriver.ParquetFile a.2))
            ["in/heart.csv"; "in/scored.csv"] arts.
Proof.
  apply (X10_distinct_stems_distinct_files sample_parquet sample_parquet_process "/out"
           ["in/heart.csv"; "in/scored.csv"]).
  - reflexivity.
  - split.
    + repeat constructor; by eapply sample_parquet_processes.
    + intros out [= <-]. repeat constructor; intros Hin;
        repeat (apply elem_of_cons in Hin as [Hin|Hin]; [vm_compute in Hin; discriminate|]);
        by apply elem_of_nil in Hin.
  - vm_compute. repeat constructor; intros Hin;
      repeat (apply elem_of_cons in Hin as [Hin|Hin]; [discriminate|]);
      by apply elem_of_nil in Hin.
Defined.

Lemma split_nonempty (c : ascii) (s : string) : exists h t, split c s = h :: t.
Proof.
  induction s as [|a s (h & t & IH)]; simpl; [by eexists _, _|].
  destruct (Ascii.eqb a c); [by eexists _, _|]. rewrite IH. by eexists _, _.
Qed.

Lemma split_plain (c : ascii) (x : string) : contains c x = false -> split c x = [x].
Proof.
  induction x as [|a x IH]; simpl; [done|].
  intros [-> Hx]%orb_false_iff. by rewrite (IH Hx).
Qed.

Lemma split_last_component (c : ascii) (d x : string) :
  contains c x = false -> split c (d +:+ String c x) = split c d ++ [x].
Proof.
  intros Hx. induction d as [|a d IH].
  - change (split c (String c x) = [EmptyString; x]). simpl.
    by rewrite Ascii.eqb_refl, split_plain.
  - change (split c (String a (d +:+ String c x)) = split c (String a d) ++ [x]). simpl.
    destruct (Ascii.eqb a c); [by rewrite IH|].
    rewrite IH. destruct (split_nonempty c d) as (h & t & ->). done.
Qed.

Lemma slice_to_app (n s : string) : slice_to (String.length n) (n +:+ s) = n.
Proof.
  induction n as [|a n IH]; [by destruct s|].
  change (String a (slice_to (String.length n) (n +:+ s)) = String a n). by rewrite IH.
Qed.

Lemma name_in_directory (d x : string) :
  contains slash x = false -> is_part x = true -> name (d +:+ String slash x) = x.
Proof.
  intros Hx Hpart. unfold name, parts. rewrite split_last_component by done.
  rewrite filter_app, filter_cons_True, filter_nil by done. apply last_last.
Qed.

(** X11. The stem of [<dir>/<name>.<ext>] is [<name>], whatever dots
    [<name>] itself holds: the parquet driver writes the table of
    [<dir>/<name>.<ext>] to [<name>.parquet] in the output directory. *)
Theorem X11_output_name_of_file (out d n ext : string) :
  n <> EmptyString -> ext <> EmptyString ->
  contains slash n = false -> contains slash ext = false -> contains dot ext = false ->
  stem (d +:+ String slash (n +:+ String dot ext)) = n /\
  ParquetDriver.output_file out (d +:+ String slash (n +:+ String dot ext)) =
    join out (n +:+ ".parquet").
Proof.
  intros Hn Hext Hns Hes Hed.
  assert (stem (d +:+ String slash (n +:+ String dot ext)) = n) as Hstem.
  { unfold stem. rewrite name_in_directory.
    - rewrite (rfind_last_separator dot n ext Hed), length_app_str. simpl.
      destruct n as [|a n]; [done|]. destruct ext as [|b ext]; [done|].
      replace (0 <? Z.of_nat (String.length (String a n)))%Z with true
        by (symmetry; apply Z.ltb_lt; simpl; lia).
      replace (Z.of_nat (String.length (String a n)) <?
               Z.of_nat (String.length (String a n) + S (String.length (String b ext))) - 1)%Z
        with true by (symmetry; apply Z.ltb_lt; simpl; lia).
      simpl andb. cbv iota. rewrite Nat2Z.id. apply slice_to_app.
    - rewrite contains_app. simpl. rewrite Hns, Hes. done.
    - destruct n as [|a n]; [done|].
      change (String a n +:+ String dot ext) with (String a (n +:+ String dot ext)).
      unfold is_part. apply andb_true_iff. split; [done|].
      apply negb_true_iff, String.eqb_neq. intros [= _ H]. by destruct n. }
  split; [done|]. unfold ParquetDriver.output_file. by rewrite Hstem.
Qed.

Lemma X11_witness :
  stem ("in/2023" +:+ String slash ("heart.v2" +:+ String dot "csv")) = "heart.v2" /\
  ParquetDriver.output_file "/out"
    ("in/2023" +:+ String slash ("heart.v2" +:+ String dot "csv")) =
    join "/out" ("heart.v2" +:+ ".parquet").
Proof.
  apply (X11_output_name_of_file "/out" "in/2023" "heart.v2" "csv"); try discriminate;
    reflexivity.
Defined.

(** * The model loader and the notebook cells *)

(** ** [TfClassifier.predict] *)

Section Loader.
Context (lib : TfLoader.Lib).
Import TfLoader.

Lemma top_of_row (labels : list string) (row : list R) :
  row <> [] -> length row <= length labels ->
  exists c p l,
    reduce_max row = Some p /\ argmax row = Some c /\ labels !! c = Some l /\
    row !! c = Some p /\ (forall x, x ∈ row -> (x <= p)%R).
Proof.
  intros Hne Hlen. destruct (max_with_index_nonempty row Hne) as (p & c & Hmax).
  pose proof (max_with_index_lookup _ _ _ Hmax) as Hc.
  destruct (lookup_lt_is_Some_2 labels c) as [l Hl].
  { apply lookup_lt_Some in Hc. lia. }
  exists c, p, l. unfold reduce_max, argmax. rewrite Hmax. simpl.
  do 4 (split; [done|]). by eapply max_with_index_upper.
Qed.

Lemma rows_tops (labels : list string) (preds : list (list R)) :
  Forall (fun row => row <> [] /\ length row <= length labels) preds ->
  exists classes probs ls,
    mapM reduce_max preds = Some probs /\
    mapM argmax preds = Some classes /\
    mapM (fun c => labels !! c) classes = Some ls /\
    forall i row, preds !! i = Some row ->
      exists c p l,
        classes !! i = Some c /\ probs !! i = Some p /\ ls !! i = Some l /\
        row !! c = Some p /\ (forall x, x ∈ row -> (x <= p)%R) /\
        labels !! c = Some l.
Proof.
  induction 1 as [|row preds [Hne Hlen] _ (classes & probs & ls & Hp & Hc & Hl & Hrows)].
  - exists [], [], []. do 3 (split; [done|]). intros i row Hi. by destruct i.
  - destruct (top_of_row labels row Hne Hlen) as (c & p & l & Hrp & Hrc & Hrl & Hcp & Hup).
    apply mapM_Some in Hp, Hc, Hl.
    exists (c :: classes), (p :: probs), (l :: ls).
    do 3 (split; [apply mapM_Some; by constructor|]).
    intros [|i] row' Hi; simpl in *.
    + injection Hi as <-. by exists c, p, l.
    + by apply Hrows.
Qed.

(** X12. [TfClassifier.predict] on a batch for which the model gives [N]
    non-empty rows of scores, none longer than the list of labels, returns a
    table of three columns of [N] entries; in row [i], [class] is an index of
    a largest score of the [i]-th row, [probability] is that score as the
    model gave it, and [label] is the label at that index. *)
Theorem X12_predict_table_rows {S} (self : TfClassifier lib) (data : batch lib)
    (preds : list (list R)) (s : S) :
  predict lib (model lib self) data = Some preds ->
  Forall (fun row => row <> [] /\ length row <= length (imagenet_labels lib self)) preds ->
  exists classes probs labels,
    predict_table lib self data s =
      (Ok [("class", VClass <$> classes);
           ("probability", VProbability <$> probs);
           ("label", VLabel <$> labels)], s) /\
    length classes = length preds /\ length probs = length preds /\
    length labels = length preds /\
    forall i row, preds !! i = Some row ->
      exists c p l,
        classes !! i = Some c /\ probs !! i = Some p /\ labels !! i = Some l /\
        row !! c = Some p /\ (forall x, x ∈ row -> (x <= p)%R) /\
        imagenet_labels lib self !! c = Some l.
Proof.
  intros Hpred Hrows.
  destruct (rows_tops _ preds Hrows) as (classes & probs & ls & Hp & Hc & Hl & Hall).
  exists classes, probs, ls. split.
  - unfold predict_table. monad. rewrite Hpred. simpl. rewrite Hp. simpl.
    rewrite Hc. simpl. by rewrite Hl.
  - apply length_mapM in Hp, Hc, Hl. split; [done|]. split; [done|]. split; [lia|done].
Qed.

(** X13. [TfClassifier.predict] raises [IndexError] when the index of the
    largest score of some row has no label: a labels file with fewer lines
    than the model has classes fails the whole batch. *)
Theorem X13_predict_table_missing_label {S} (self : TfClassifier lib) (data : batch lib)
    (preds : list (list R)) (s : S) :
  predict lib (model lib self) data = Some preds ->
  Forall (fun row => row <> []) preds ->
  Exists (fun row => exists c, argmax row = Some c /\
                               length (imagenet_labels lib self) <= c) preds ->
  predict_table lib self data s = (Raise IndexError, s).
Proof.
  intros Hpred Hne Hbad.
  assert (is_Some (mapM reduce_max preds)) as [probs Hp].
  { apply mapM_is_Some. eapply Forall_impl; [exact Hne|]. intros row Hrow. simpl.
    destruct (max_with_index_nonempty row Hrow) as (p & c & Hmax).
    unfold reduce_max. rewrite Hmax. by eexists. }
  assert (is_Some (mapM argmax preds)) as [classes Hc].
  { apply mapM_is_Some. eapply Forall_impl; [exact Hne|]. intros row Hrow. simpl.
    destruct (max_with_index_nonempty row Hrow) as (p & c & Hmax).
    unfold argmax. rewrite Hmax. by eexists. }
  assert (mapM (fun c => imagenet_labels lib self !! c) classes = None) as Hl.
  { apply mapM_None. apply mapM_Some in Hc. clear -Hc Hbad.
    induction Hc as [|row c preds classes Hrow _ IH]; [by inversion Hbad|].
    inversion Hbad as [? ? (c' & Hc' & Hlen)|? ? Hrest]; subst.
    - apply Exists_cons_hd. assert (c' = c) as -> by congruence.
      by apply lookup_ge_None_2.
    - apply Exists_cons_tl. by apply IH. }
  unfold predict_table. monad. rewrite Hpred. simpl. rewrite Hp. simpl.
  rewrite Hc. simpl. by rewrite Hl.
Qed.

End Loader.

Lemma X12_witness :
  exists classes probs labels,
    TfLoader.predict_table sample_tf sample_classifier [[0.2%R; 0.8%R]; [1%R]] tt =
      (Ok [("class", TfLoader.VClass <$> classes);
           ("probability", TfLoader.VProbability <$> probs);
           ("label", TfLoader.VLabel <$> labels)], tt) /\
    length classes = length [[0.2%R; 0.8%R]; [1%R]] /\
    length probs = length [[0.2%R; 0.8%R]; [1%R]] /\
    length labels = length [[0.2%R; 0.8%R]; [1%R]] /\
    forall i row, [[0.2%R; 0.8%R]; [1%R]] !! i = Some row ->
      exists c p l,
        classes !! i = Some c /\ probs !! i = Some p /\ labels !! i = Some l /\
        row !! c = Some p /\ (forall x, x ∈ row -> (x <= p)%R) /\
        TfLoader.imagenet_labels sample_tf sample_classifier !! c = Some l.
Proof.
  apply (X12_predict_table_rows sample_tf sample_classifier
           [[0.2%R; 0.8%R]; [1%R]] [[0.2%R; 0.8%R]; [1%R]] tt).
  - reflexivity.
  - repeat constructor; simpl; try discriminate; lia.
Defined.

Lemma X13_witness :
  TfLoader.predict_table sample_tf
    (TfLoader.Build_TfClassifier sample_tf tt []) [[1%R]] tt = (Raise IndexError, tt).
Proof.
  apply (X13_predict_table_missing_label sample_tf
           (TfLoader.Build_TfClassifier sample_tf tt []) [[1%R]] [[1%R]] tt).
  - reflexivity.
  - repeat constructor. discriminate.
  - apply Exists_cons_hd. exists 0. split; [reflexivity|simpl; lia].
Defined.

(** ** Endpoint names *)

Lemma get_contains (s : string) (i : nat) (c : ascii) :
  String.get i s = Some c -> contains c s = true.
Proof.
  revert i. induction s as [|a s IH]; intros [|i]; simpl; try done.
  - intros [= ->]. by rewrite Ascii.eqb_refl.
  - intros H%IH. rewrite H. apply orb_true_r.
Qed.

Lemma get_in_range (s : string) (i : nat) :
  i < String.length s -> exists c, String.get i s = Some c.
Proof.
  revert i. induction s as [|a s IH]; intros [|i]; simpl; try lia.
  - by eexists.
  - intros H. apply IH. lia.
Qed.

Lemma length_string_of_list (cs : list ascii) :
  String.length (string_of_list_ascii cs) = length cs.
Proof. induction cs as [|c cs IH]; simpl; [done|]. by rewrite IH. Qed.

Lemma contains_string_of_list (c : ascii) (cs : list ascii) :
  contains c (string_of_list_ascii cs) = true -> c ∈ cs.
Proof.
  induction cs as [|a cs IH]; simpl; [done|].
  intros [->%Ascii.eqb_eq|H]%orb_true_iff; [by left|right; by apply IH].
Qed.

Section EndpointNames.
Context (randbelow : nat -> nat -> nat).
Import Notebook.

Lemma random_choice_allowed (k : nat) :
  (forall j n, 0 < n -> randbelow j n < n) ->
  exists c, random_choice randbelow allowed_chars k = (Ok c, S k) /\
            contains c allowed_chars = true.
Proof.
  intros Hrand.
  destruct (get_in_range allowed_chars (randbelow k (String.length allowed_chars)))
    as [c Hc].
  { apply Hrand. vm_compute. lia. }
  exists c. split; [|by eapply get_contains].
  unfold random_choice. monad. cbv beta iota zeta. by rewrite Hc.
Qed.

Lemma random_choices (n : nat) :
  (forall j m, 0 < m -> randbelow j m < m) ->
  forall (a k : nat) (acc : list ascii),
  exists cs,
    for_append (seq a n) (fun _ => random_choice randbelow allowed_chars) acc k =
      (Ok (acc ++ cs), k + n) /\
    length cs = n /\ Forall (fun c => contains c allowed_chars = true) cs.
Proof.
  intros Hrand. induction n as [|n IH]; intros a k acc; simpl.
  - exists []. by rewrite app_nil_r, Nat.add_0_r.
  - unfold bind. destruct (random_choice_allowed k Hrand) as (c & -> & Hc).
    destruct (IH (S a) (S k) (acc ++ [c])) as (cs & -> & Hlen & Hall).
    exists (c :: cs). rewrite <- app_assoc. simpl.
    split; [f_equal; lia|]. split; [by rewrite Hlen|by constructor].
Qed.

(** X14. The endpoint name that the notebooks build is their prefix
    followed by exactly five characters, each a lower-case letter or a
    digit, whatever the random generator returns; five numbers are drawn. *)
Theorem X14_endpoint_name_shape (prefix : string) (k : nat) :
  (forall j n, 0 < n -> randbelow j n < n) ->
  exists suffix,
    endpoint_name randbelow prefix k = (Ok (prefix +:+ suffix), k + 5) /\
    String.length suffix = 5 /\
    String.length (prefix +:+ suffix) = String.length prefix + 5 /\
    forall c, contains c suffix = true ->
              contains c "abcdefghijklmnopqrstuvwxyz0123456789" = true.
Proof.
  intros Hrand. destruct (random_choices 5 Hrand 0 k []) as (cs & Hrun & Hlen & Hall).
  exists (string_of_list_ascii cs).
  assert (String.length (string_of_list_ascii cs) = 5) as Hlen'
    by (by rewrite length_string_of_list).
  split; [|split; [done|split]].
  - unfold endpoint_name, endpoint_suffix, bind, ret. by rewrite Hrun.
  - by rewrite length_app_str, Hlen'.
  - intros c Hc%contains_string_of_list. rewrite Forall_forall in Hall. by apply Hall.
Qed.

End EndpointNames.

Lemma X14_witness :
  exists suffix,
    Notebook.endpoint_name (fun j n => (7 * j + 3) mod n) "mnist-batch-" 0 =
      (Ok ("mnist-batch-" +:+ suffix), 0 + 5) /\
    String.length suffix = 5 /\
    String.length ("mnist-batch-" +:+ suffix) = String.length "mnist-batch-" + 5 /\
    forall c, contains c suffix = true ->
              contains c "abcdefghijklmnopqrstuvwxyz0123456789" = true.
Proof.
  apply (X14_endpoint_name_shape (fun j n => (7 * j + 3) mod n) "mnist-batch-" 0).
  intros j n Hn. apply Nat.mod_upper_bound. lia.
Defined.

(** ** Create-if-absent cells *)

(** X15. The cell that registers a model (or creates the compute cluster)
    only when no asset of that name is listed: given that an asset is listed
    under its name once created, the name is listed after the cell; a
    workspace that lists it already is left unchanged; and running the cell
    a second time changes nothing. *)
Theorem X15_create_if_absent_idempotent (assets : Notebook.Assets)
    (a : Notebook.asset assets) (st : Notebook.store assets) :
  (forall b st', Notebook.any_named assets (Notebook.asset_name assets b)
                   (Notebook.create_or_update assets b st') = true) ->
  Notebook.any_named assets (Notebook.asset_name assets a)
    (Notebook.create_if_absent assets a st) = true /\
  (Notebook.any_named assets (Notebook.asset_name assets a) st = true ->
   Notebook.create_if_absent assets a st = st) /\
  Notebook.create_if_absent assets a (Notebook.create_if_absent assets a st) =
    Notebook.create_if_absent assets a st.
Proof.
  intros Hlisted.
  assert (Notebook.any_named assets (Notebook.asset_name assets a)
            (Notebook.create_if_absent assets a st) = true) as Hafter.
  { unfold Notebook.create_if_absent.
    destruct (Notebook.any_named assets _ st) eqn:Hst; simpl; [done|apply Hlisted]. }
  split; [done|]. split.
  - intros Hst. unfold Notebook.create_if_absent. by rewrite Hst.
  - unfold Notebook.create_if_absent at 1. by rewrite Hafter.
Qed.

Lemma X15_witness :
  Notebook.any_named sample_assets "mnist-classification-torch"
    (Notebook.create_if_absent sample_assets "mnist-classification-torch" ["heart"]) = true /\
  (Notebook.any_named sample_assets "mnist-classification-torch" ["heart"] = true ->
   Notebook.create_if_absent sample_assets "mnist-classification-torch" ["heart"] = ["heart"]) /\
  Notebook.create_if_absent sample_assets "mnist-classification-torch"
    (Notebook.create_if_absent sample_assets "mnist-classification-torch" ["heart"]) =
    Notebook.create_if_absent sample_assets "mnist-classification-torch" ["heart"].
Proof.
  apply (X15_create_if_absent_idempotent sample_assets "mnist-classification-torch" ["heart"]).
  intros b st'. unfold Notebook.any_named. simpl. by rewrite filter_cons_True.
Defined.

(** ** Waiting loops *)

Lemma wait_while_Some {A} (waiting : A -> bool) (observe : nat -> A) (fuel : nat) :
  forall k n,
  Notebook.wait_while waiting observe fuel k = Some n <->
  k <= n < k + fuel /\ waiting (observe n) = false /\
  forall j, k <= j < n -> waiting (observe j) = true.
Proof.
  induction fuel as [|fuel IH]; intros k n; simpl.
  - split; [done|lia].
  - destruct (waiting (observe k)) eqn:Hk.
    + rewrite IH. split.
      * intros (Hn & Hstop & Hwait). split; [lia|]. split; [done|].
        intros j Hj. destruct (decide (j = k)) as [->|]; [done|]. apply Hwait. lia.
      * intros (Hn & Hstop & Hwait).
        assert (k <> n) by (intros ->; congruence).
        split; [lia|]. split; [done|]. intros j Hj. apply Hwait. lia.
    + split.
      * intros [= <-]. split; [lia|]. split; [done|]. intros j Hj. lia.
      * intros (Hn & Hstop & Hwait). f_equal.
        destruct (decide (k = n)) as [|Hne]; [done|].
        rewrite Hwait in Hk by lia. done.
Qed.

(** X16. The loop that waits for a job ends at the first poll that sees
    ["Completed"] or ["Failed"], after one sleep per earlier poll, and given
    enough polls it ends there; while the job shows any other status it keeps
    polling, so a job that never shows one of the two is waited for without
    end.  The loop that waits for the compute cluster ends at the first poll
    that sees a state other than ["Creating"], whatever that state is. *)
Theorem X16_waiting_loops (observe : nat -> string) (fuel n : nat) :
  (Notebook.wait_for_job observe fuel = Some n <->
   n < fuel /\ observe n ∈ ["Completed"; "Failed"] /\
   forall j, j < n -> observe j ∉ ["Completed"; "Failed"]) /\
  ((forall j, observe j ∉ ["Completed"; "Failed"]) ->
   Notebook.wait_for_job observe fuel = None) /\
  (Notebook.wait_for_compute observe fuel = Some n <->
   n < fuel /\ observe n <> "Creating" /\ forall j, j < n -> observe j = "Creating").
Proof.
  assert (forall st, Notebook.job_running st = false <-> st ∈ ["Completed"; "Failed"])
    as Hstop.
  { intros st. unfold Notebook.job_running. rewrite negb_false_iff.
    apply bool_decide_eq_true. }
  assert (forall st, Notebook.job_running st = true <-> st ∉ ["Completed"; "Failed"])
    as Hrun.
  { intros st. unfold Notebook.job_running. rewrite negb_true_iff.
    apply bool_decide_eq_false. }
  split; [|split].
  - unfold Notebook.wait_for_job. rewrite wait_while_Some, Hstop.
    split; intros (Hn & Hend & Hbefore); (split; [lia|]); (split; [done|]);
      intros j Hj; apply Hrun; apply Hbefore; lia.
  - intros Hnever. unfold Notebook.wait_for_job.
    destruct (Notebook.wait_while _ _ fuel 0) as [m|] eqn:Hm; [|done].
    apply wait_while_Some in Hm as (_ & Hend%Hstop & _). by destruct (Hnever m).
  - unfold Notebook.wait_for_compute. rewrite wait_while_Some.
    split; intros (Hn & Hend & Hbefore); (split; [lia|]).
    + split; [by apply String.eqb_neq|].
      intros j Hj. apply String.eqb_eq. apply Hbefore. lia.
    + split; [by apply String.eqb_neq|].
      intros j Hj. apply String.eqb_eq. apply Hbefore. lia.
Qed.

(** * After a failure, and on a retry *)

(** X17. [run] leaves what [init] bound as it found it whether it returns
    or raises, for each of the four drivers: after a failed mini-batch the
    worker still holds its model, and the image drivers are left exactly as
    they were. *)
Theorem X17_run_keeps_globals (w : worker) (mini_batch : list string) :
  globals_of (run w mini_batch).2 = globals_of w /\
  (image_driver w = true -> (run w mini_batch).2 = w).
Proof.
  destruct w as [lib g|lib g|lib s|lib s].
  - by rewrite (image_run (TorchWorker lib g)).
  - by rewrite (image_run (KerasWorker lib g)).
  - split; [|done]. simpl. unfold on_worker. simpl.
    destruct (summarizer_run_spec lib mini_batch s) as [Hg _].
    unfold summarizer_globals in Hg. by injection Hg as -> -> ->.
  - split; [|done]. simpl. unfold on_worker. simpl.
    assert (later s (ParquetDriver.run lib mini_batch s).2) as [Hg _].
    { unfold ParquetDriver.run, bind, ret.
      pose proof (for_each_score_later lib mini_batch s) as Hl.
      by destruct (for_each mini_batch (ParquetDriver.score lib) s) as [[[]|e] s1]. }
    unfold parquet_globals in Hg. by injection Hg as -> ->.
Qed.

Lemma after_writes_overwritten {C} (arts : list (string * frame C)) :
  forall (files1 files2 : gmap string (ParquetDriver.file_data C)) (path : string),
  path ∈ arts.*1 -> after_writes files1 arts !! path = after_writes files2 arts !! path.
Proof.
  induction arts as [|[q df] arts IH]; intros files1 files2 path Hin.
  - by apply elem_of_nil in Hin.
  - change (after_writes (<[q := ParquetDriver.ParquetFile df]> files1) arts !! path =
            after_writes (<[q := ParquetDriver.ParquetFile df]> files2) arts !! path).
    destruct (decide (path ∈ arts.*1)) as [Hrest|Hrest]; [by apply IH|].
    rewrite !after_writes_other by done.
    csimpl in Hin. apply elem_of_cons in Hin as [->|?]; [|done].
    by rewrite !lookup_insert_eq.
Qed.

Lemma after_writes_twice {C} (arts : list (string * frame C))
    (files : gmap string (ParquetDriver.file_data C)) :
  after_writes (after_writes files arts) arts = after_writes files arts.
Proof.
  apply map_eq. intros path. destruct (decide (path ∈ arts.*1)) as [Hin|Hout].
  - by apply after_writes_overwritten.
  - by rewrite !after_writes_other.
Qed.

Section ParquetRetry.
Context (lib : ParquetDriver.Lib).
Import ParquetDriver.

Lemma artifact_unique (s : process lib) (out p : string)
    (a a' : string * frame (cell lib)) :
  artifact_of s out p a -> artifact_of s out p a' -> a = a'.
Proof.
  intros (df & pred & [m Hfs Hm Hpred _ _ _] & ->) (df' & pred' & [m' Hfs' Hm' Hpred' _ _ _] & ->).
  assert (df' = df) as -> by congruence. assert (m' = m) as -> by congruence.
  assert (pred' = pred) as -> by congruence. done.
Qed.

Lemma artifacts_later (s s1 : process lib) (out : string) (mb : list string)
    (arts arts' : list (string * frame (cell lib))) :
  later s s1 ->
  Forall2 (artifact_of s out) mb arts ->
  Forall2 (artifact_of s1 out) mb arts' ->
  arts' = arts.
Proof.
  intros Hlater Harts. revert arts'.
  induction Harts as [|p a mb arts Ha _ IH]; intros arts' Harts'; [by inversion Harts'|].
  inversion Harts' as [|? a' ? arts'' Ha' Hrest]; subst. f_equal; [|by apply IH].
  symmetry. eapply artifact_unique; [exact Ha|].
  destruct Ha' as (df & pred & Hs & ->). exists df, pred. split; [|done].
  by eapply parquet_scores_later.
Qed.

(** X18. A retry of a mini-batch that was processed to its end: running the
    parquet driver a second time on the same valid mini-batch succeeds again,
    writes the same tables to the same paths, and leaves the file system as
    the first run left it. *)
Theorem X18_parquet_retry_same_files (s : process lib) (out : string)
    (mini_batch : list string) :
  output_path lib s = Some out ->
  valid_batch (ParquetWorker lib s) mini_batch ->
  exists s1 s2 arts,
    run lib mini_batch s = (Ok mini_batch, s1) /\
    run lib mini_batch s1 = (Ok mini_batch, s2) /\
    written lib s1 = written lib s ++ arts /\
    written lib s2 = written lib s1 ++ arts /\
    fs lib s2 = fs lib s1.
Proof.
  intros Hout Hvalid.
  destruct (parquet_valid_batch lib s out mini_batch Hout Hvalid) as (arts & Hrun & Harts).
  pose proof (artifact_paths s out mini_batch arts Harts) as Hpaths.
  assert (output_path lib (wrote_all s arts) = Some out) as Hout1.
  { pose proof (wrote_all_globals lib arts s) as Hg. unfold parquet_globals in Hg.
    injection Hg as _ ->. done. }
  assert (valid_batch (ParquetWorker lib (wrote_all s arts)) mini_batch) as Hvalid1.
  { destruct Hvalid as [Hall Hkeep]. split.
    - apply Forall_forall. intros p Hp. rewrite Forall_forall in Hall.
      destruct (Hall p Hp) as (df & pred & out' & [m Hfs Hm Hpred Hlen Hout' Hw]).
      assert (out' = out) as -> by congruence.
      pose proof (wrote_all_globals lib arts s) as Hg. unfold parquet_globals in Hg.
      injection Hg as Hm1 _.
      exists df, pred, out. econstructor; try done; [|by rewrite Hm1].
      rewrite wrote_all_fs, after_writes_other; [done|].
      rewrite Hpaths. intros (q & Heq & Hq)%list_elem_of_fmap.
      specialize (Hkeep out Hout). rewrite Forall_forall in Hkeep.
      apply (Hkeep q Hq). by rewrite <- Heq.
    - simpl. intros out' Hout'. apply Hkeep. congruence. }
  destruct (parquet_valid_batch lib _ out mini_batch Hout1 Hvalid1)
    as (arts' & Hrun' & Harts').
  assert (arts' = arts) as ->.
  { assert (later s (wrote_all s arts)) as Hlater.
    { pose proof (for_each_score_later lib mini_batch s) as Hl.
      unfold run, bind, ret in Hrun.
      destruct (for_each mini_batch (score lib) s) as [[[]|e] s1]; [|done].
      by injection Hrun as <-. }
    by eapply artifacts_later. }
  exists (wrote_all s arts), (wrote_all (wrote_all s arts) arts), arts.
  split; [done|]. split; [done|]. rewrite !wrote_all_written, !wrote_all_fs.
  split; [done|]. split; [done|]. apply after_writes_twice.
Qed.

End ParquetRetry.

Lemma X18_witness :
  exists s1 s2 arts,
    ParquetDriver.run sample_parquet ["in/heart.csv"; "in/scored.csv"]
      sample_parquet_process = (Ok ["in/heart.csv"; "in/scored.csv"], s1) /\
    ParquetDriver.run sample_parquet ["in/heart.csv"; "in/scored.csv"] s1 =
      (Ok ["in/heart.csv"; "in/scored.csv"], s2) /\
    ParquetDriver.written sample_parquet s1 =
      ParquetDriver.written sample_parquet sample_parquet_process ++ arts /\
    ParquetDriver.written sample_parquet s2 =
      ParquetDriver.written sample_parquet s1 ++ arts /\
    ParquetDriver.fs sample_parquet s2 = ParquetDriver.fs sample_parquet s1.
Proof.
  apply (X18_parquet_retry_same_files sample_parquet sample_parquet_process "/out"
           ["in/heart.csv"; "in/scored.csv"]).
  - reflexivity.
  - split.
    + repeat constructor; by eapply sample_parquet_processes.
    + intros out [= <-]. repeat constructor; intros Hin;
        repeat (apply elem_of_cons in Hin as [Hin|Hin]; [vm_compute in Hin; discriminate|]);
        by apply elem_of_nil in Hin.
Defined.
